(** * polymer-analyzer: the analysis engine (analyzer.ts)

    A shallow embedding of [Analyzer] and [AnalyzerCacheContext]: the
    asynchronous methods are written as trees of synchronous blocks joined by
    [await] points, and an event loop with a FIFO microtask queue runs them.
    The cache maps are [gmap]s keyed by URL; JavaScript objects that are
    mutated through shared references (feature objects, warning arrays,
    [visited] sets, scanned documents, documents) live in stores and are
    named by their index. *)

From stdpp Require Import base option list gmap sets strings sorting.
From Stdlib Require Import Ascii Lia.

Local Open Scope string_scope.
Local Open Scope nat_scope.
Local Open Scope list_scope.

(** ** Data model *)

Record SourcePosition := { sp_line : nat; sp_column : nat }.

Record SourceRange := {
  sr_file : string;
  sr_start : SourcePosition;
  sr_end : SourcePosition
}.

Record LocationOffset := {
  lo_line : nat;
  lo_col : nat;
  lo_filename : option string
}.

Inductive Severity := ERROR | WARNING | INFO.

Record Warning := {
  w_code : string;
  w_message : string;
  w_sourceRange : option SourceRange;
  w_severity : Severity
}.

(** Everything a [throw] or a rejected promise can carry in analyzer.ts. *)
Inductive exn :=
| NoKnownParserError (msg : string)
| WarningCarryingException (w : Warning)
| Error (msg : string)
| Rejection (reason : string).   (* a loader rejecting with a non-Error value *)

Definition is_NoKnownParserError (e : exn) : bool :=
  match e with NoKnownParserError _ => true | _ => false end.

Definition is_WarningCarryingException (e : exn) : option Warning :=
  match e with WarningCarryingException w => Some w | _ => None end.

(** [`${error.message || error}`] after [error = error || '']. *)
Definition error_text (e : exn) : string :=
  match e with
  | NoKnownParserError m => if decide (m = EmptyString) then "Error" else m
  | WarningCarryingException w =>
      if decide (w_message w = EmptyString) then "Error" else w_message w
  | Error m => if decide (m = EmptyString) then "Error" else m
  | Rejection r => r
  end.

Record InlineDocInfo := {
  idi_astNode : option nat;
  idi_locationOffset : option LocationOffset
}.

Record ParsedDocument := {
  pd_type : string;
  pd_url : string;
  pd_contents : string;
  pd_isInline : bool;
  pd_astNode : option nat;
  pd_locationOffset : option LocationOffset
}.

(** Object identities: indexes into the stores of the heap. *)
Abbreviation pid := nat.      (* promises *)
Abbreviation fid := nat.      (* scanned features *)
Abbreviation sdid := nat.     (* ScannedDocument objects *)
Abbreviation docid := nat.    (* Document objects *)
Abbreviation wid := nat.      (* Warning[] arrays *)
Abbreviation vid := nat.      (* Set<string> objects used as [visited] *)
Abbreviation ctxid := nat.    (* AnalyzerCacheContext objects *)
Abbreviation cellid := nat.   (* bookkeeping records of Promise.all *)

Record ScannedInlineDocument := {
  sid_type : string;
  sid_contents : string;
  sid_locationOffset : LocationOffset;
  sid_attachedComment : option string;
  sid_astNode : option nat;
  sid_scannedDocument : option sdid      (* mutable slot *)
}.

Record ScannedImport := {
  si_type : string;
  si_url : string;
  si_urlSourceRange : option SourceRange;
  si_sourceRange : option SourceRange;
  si_scannedDocument : option sdid       (* mutable slot *)
}.

(** [ScannedElement] and its subclasses; [applyHtmlComment] records the
    comment it was given. *)
Record ScannedElement := {
  se_tagName : string;
  se_htmlComment : option string
}.

Inductive ScannedFeature :=
| FInlineDocument (d : ScannedInlineDocument)
| FImport (i : ScannedImport)
| FElement (e : ScannedElement)
| FOther (kind : string).

Record ScannedDocument := {
  sd_document : ParsedDocument;
  sd_features : list fid;
  sd_warnings : wid;
  sd_isInline : bool
}.

Definition sd_url (sd : ScannedDocument) : string := pd_url (sd_document sd).

Record Document := {
  doc_base : sdid;              (* the ScannedDocument it was built from *)
  doc_analyzer : ctxid;         (* the context that built it *)
  doc_begunResolving : bool;
  doc_doneResolving : bool
}.

(** Parsers and scanners are objects of classes defined elsewhere; they are
    named here, their behaviour is a parameter of the development. *)
Inductive Parser :=
| HtmlParser
| JavaScriptParser (sourceType : string)
| CssParser
| JsonParser
| CustomParser (name : string).

Abbreviation LazyEdgeMap := (gmap string (list string)).

Inductive Scanner :=
| HtmlImportScanner (lazyEdges : option LazyEdgeMap)
| HtmlScriptScanner
| HtmlStyleScanner
| DomModuleScanner
| CssImportScanner
| HtmlCustomElementReferenceScanner
| PolymerElementScanner
| BehaviorScanner
| VanillaElementScanner
| CustomScanner (name : string).

Abbreviation ScannerTable := (gmap string (list Scanner)).

(** [load] is asynchronous: the loader decides the outcome and how long it
    takes ([ul_latency], in turns of the event loop's clock). *)
Record UrlLoader := {
  ul_canLoad : string → bool;
  ul_load : string → string + exn;
  ul_latency : string → nat
}.

Record UrlResolver := {
  ur_canResolve : string → bool;
  ur_resolve : string → string
}.

Record Options := {
  urlLoader : UrlLoader;
  urlResolver : option UrlResolver;
  parsers : option (gmap string Parser);
  scanners : option ScannerTable;
  lazyEdges : option LazyEdgeMap
}.

(** What a promise can be fulfilled with. *)
Inductive val :=
| VUndefined
| VNull
| VString (s : string)
| VParsed (d : ParsedDocument)
| VFeatures (fs : list fid)
| VScanned (sd : sdid)
| VVisited                      (* the string 'visited' returned by _scan *)
| VDocument (d : docid)
| VArray (n : nat).             (* the array Promise.all resolves with *)

Inductive pstate := Pending | Fulfilled (v : val) | Rejected (e : exn).

(** The result type of a promise, as the TypeScript signatures give it
    ([Promise<ScannedDocument>], [Promise<ScannedDocument|'visited'>], ...).
    It is recorded when the promise is created and never read by the
    program. *)
Inductive ty :=
| TAny
| TVoid
| TNull
| TString
| TParsedDocument
| TFeatures
| TScannedDocument
| TScannedDocumentOrVisited
| TScannedDocumentOrNull
| TDocument
| TArray.

Record promise := { p_type : ty; p_state : pstate }.

(** The cache maps that analyzer.ts reads and writes. *)
Record AnalysisCache := {
  parsedDocumentPromises : gmap string pid;
  scannedDocumentPromises : gmap string pid;
  dependenciesScanned : gmap string pid;
  analyzedDocumentPromises : gmap string pid;
  scannedDocuments : gmap string sdid;
  analyzedDocuments : gmap string docid
}.

Definition new_AnalysisCache : AnalysisCache :=
  {| parsedDocumentPromises := ∅; scannedDocumentPromises := ∅;
     dependenciesScanned := ∅; analyzedDocumentPromises := ∅;
     scannedDocuments := ∅; analyzedDocuments := ∅ |}.

Record AnalyzerCacheContext := {
  _parsers : gmap string Parser;
  _lazyEdges : option LazyEdgeMap;
  _scanners : ScannerTable;
  _loader : UrlLoader;
  _resolver : option UrlResolver;
  _cache : AnalysisCache;
  _generation : nat
}.

Record heap := {
  contexts : list AnalyzerCacheContext;   
  analyzer_cacheContext : ctxid;   (* Analyzer._cacheContext *)
  features : list ScannedFeature;   
  scannedDocs : list ScannedDocument;   
  warningArrays : list (list Warning);   
  visitedSets : list (gset string);   
  documents : list Document;   
  promises : list promise;   
  allCells : list nat;   (* Promise.all: elements still pending *)
  loaderCalls : list string   (* every url passed to UrlLoader.load *)
}.

Definition empty_heap : heap :=
  {| contexts := []; analyzer_cacheContext := 0; features := []; scannedDocs := []; warningArrays := []; visitedSets := []; documents := []; promises := []; allCells := []; loaderCalls := [] |}.

(** Field updates. *)
Definition set_contexts (f : list AnalyzerCacheContext → list AnalyzerCacheContext) (h : heap) : heap :=
  {| contexts := f (contexts h);
     analyzer_cacheContext := analyzer_cacheContext h;
     features := features h;
     scannedDocs := scannedDocs h;
     warningArrays := warningArrays h;
     visitedSets := visitedSets h;
     documents := documents h;
     promises := promises h;
     allCells := allCells h;
     loaderCalls := loaderCalls h |}.

Definition set_analyzer_cacheContext (c : ctxid) (h : heap) : heap :=
  {| contexts := contexts h;
     analyzer_cacheContext := c;
     features := features h;
     scannedDocs := scannedDocs h;
     warningArrays := warningArrays h;
     visitedSets := visitedSets h;
     documents := documents h;
     promises := promises h;
     allCells := allCells h;
     loaderCalls := loaderCalls h |}.

Definition set_features (f : list ScannedFeature → list ScannedFeature) (h : heap) : heap :=
  {| contexts := contexts h;
     analyzer_cacheContext := analyzer_cacheContext h;
     features := f (features h);
     scannedDocs := scannedDocs h;
     warningArrays := warningArrays h;
     visitedSets := visitedSets h;
     documents := documents h;
     promises := promises h;
     allCells := allCells h;
     loaderCalls := loaderCalls h |}.

Definition set_scannedDocs (f : list ScannedDocument → list ScannedDocument) (h : heap) : heap :=
  {| contexts := contexts h;
     analyzer_cacheContext := analyzer_cacheContext h;
     features := features h;
     scannedDocs := f (scannedDocs h);
     warningArrays := warningArrays h;
     visitedSets := visitedSets h;
     documents := documents h;
     promises := promises h;
     allCells := allCells h;
     loaderCalls := loaderCalls h |}.

Definition set_warningArrays (f : list (list Warning) → list (list Warning)) (h : heap) : heap :=
  {| contexts := contexts h;
     analyzer_cacheContext := analyzer_cacheContext h;
     features := features h;
     scannedDocs := scannedDocs h;
     warningArrays := f (warningArrays h);
     visitedSets := visitedSets h;
     documents := documents h;
     promises := promises h;
     allCells := allCells h;
     loaderCalls := loaderCalls h |}.

Definition set_visitedSets (f : list (gset string) → list (gset string)) (h : heap) : heap :=
  {| contexts := contexts h;
     analyzer_cacheContext := analyzer_cacheContext h;
     features := features h;
     scannedDocs := scannedDocs h;
     warningArrays := warningArrays h;
     visitedSets := f (visitedSets h);
     documents := documents h;
     promises := promises h;
     allCells := allCells h;
     loaderCalls := loaderCalls h |}.

Definition set_documents (f : list Document → list Document) (h : heap) : heap :=
  {| contexts := contexts h;
     analyzer_cacheContext := analyzer_cacheContext h;
     features := features h;
     scannedDocs := scannedDocs h;
     warningArrays := warningArrays h;
     visitedSets := visitedSets h;
     documents := f (documents h);
     promises := promises h;
     allCells := allCells h;
     loaderCalls := loaderCalls h |}.

Definition set_promises (f : list promise → list promise) (h : heap) : heap :=
  {| contexts := contexts h;
     analyzer_cacheContext := analyzer_cacheContext h;
     features := features h;
     scannedDocs := scannedDocs h;
     warningArrays := warningArrays h;
     visitedSets := visitedSets h;
     documents := documents h;
     promises := f (promises h);
     allCells := allCells h;
     loaderCalls := loaderCalls h |}.

Definition set_allCells (f : list nat → list nat) (h : heap) : heap :=
  {| contexts := contexts h;
     analyzer_cacheContext := analyzer_cacheContext h;
     features := features h;
     scannedDocs := scannedDocs h;
     warningArrays := warningArrays h;
     visitedSets := visitedSets h;
     documents := documents h;
     promises := promises h;
     allCells := f (allCells h);
     loaderCalls := loaderCalls h |}.

Definition set_loaderCalls (f : list string → list string) (h : heap) : heap :=
  {| contexts := contexts h;
     analyzer_cacheContext := analyzer_cacheContext h;
     features := features h;
     scannedDocs := scannedDocs h;
     warningArrays := warningArrays h;
     visitedSets := visitedSets h;
     documents := documents h;
     promises := promises h;
     allCells := allCells h;
     loaderCalls := f (loaderCalls h) |}.

Definition set_cache (f : AnalysisCache → AnalysisCache) (c : AnalyzerCacheContext) : AnalyzerCacheContext :=
  {| _parsers := _parsers c; _lazyEdges := _lazyEdges c; _scanners := _scanners c;
     _loader := _loader c; _resolver := _resolver c; _cache := f (_cache c);
     _generation := _generation c |}.

Definition set_parsedDocumentPromises (f : gmap string pid → gmap string pid) (c : AnalysisCache) : AnalysisCache :=
  {| parsedDocumentPromises := f (parsedDocumentPromises c);
     scannedDocumentPromises := scannedDocumentPromises c;
     dependenciesScanned := dependenciesScanned c;
     analyzedDocumentPromises := analyzedDocumentPromises c;
     scannedDocuments := scannedDocuments c; analyzedDocuments := analyzedDocuments c |}.

Definition set_scannedDocumentPromises (f : gmap string pid → gmap string pid) (c : AnalysisCache) : AnalysisCache :=
  {| parsedDocumentPromises := parsedDocumentPromises c;
     scannedDocumentPromises := f (scannedDocumentPromises c);
     dependenciesScanned := dependenciesScanned c;
     analyzedDocumentPromises := analyzedDocumentPromises c;
     scannedDocuments := scannedDocuments c; analyzedDocuments := analyzedDocuments c |}.

Definition set_dependenciesScanned (f : gmap string pid → gmap string pid) (c : AnalysisCache) : AnalysisCache :=
  {| parsedDocumentPromises := parsedDocumentPromises c;
     scannedDocumentPromises := scannedDocumentPromises c;
     dependenciesScanned := f (dependenciesScanned c);
     analyzedDocumentPromises := analyzedDocumentPromises c;
     scannedDocuments := scannedDocuments c; analyzedDocuments := analyzedDocuments c |}.

Definition set_analyzedDocumentPromises (f : gmap string pid → gmap string pid) (c : AnalysisCache) : AnalysisCache :=
  {| parsedDocumentPromises := parsedDocumentPromises c;
     scannedDocumentPromises := scannedDocumentPromises c;
     dependenciesScanned := dependenciesScanned c;
     analyzedDocumentPromises := f (analyzedDocumentPromises c);
     scannedDocuments := scannedDocuments c; analyzedDocuments := analyzedDocuments c |}.

Definition set_scannedDocuments (f : gmap string sdid → gmap string sdid) (c : AnalysisCache) : AnalysisCache :=
  {| parsedDocumentPromises := parsedDocumentPromises c;
     scannedDocumentPromises := scannedDocumentPromises c;
     dependenciesScanned := dependenciesScanned c;
     analyzedDocumentPromises := analyzedDocumentPromises c;
     scannedDocuments := f (scannedDocuments c); analyzedDocuments := analyzedDocuments c |}.

Definition set_analyzedDocuments (f : gmap string docid → gmap string docid) (c : AnalysisCache) : AnalysisCache :=
  {| parsedDocumentPromises := parsedDocumentPromises c;
     scannedDocumentPromises := scannedDocumentPromises c;
     dependenciesScanned := dependenciesScanned c;
     analyzedDocumentPromises := analyzedDocumentPromises c;
     scannedDocuments := scannedDocuments c; analyzedDocuments := f (analyzedDocuments c) |}.


(** ** Synchronous code: a state monad over the heap with exceptions *)

Inductive outcome (A : Type) :=
| Normal (a : A)
| Thrown (e : exn)
| Diverged.                      (* the recursion bound of the embedding was reached *)
Arguments Normal {A} a.
Arguments Thrown {A} e.
Arguments Diverged {A}.

Definition M (A : Type) : Type := heap → heap * outcome A.

Definition ret {A} (a : A) : M A := λ h, (h, Normal a).
Definition throw {A} (e : exn) : M A := λ h, (h, Thrown e).
Definition diverge {A} : M A := λ h, (h, Diverged).
Definition bind {A B} (m : M A) (k : A → M B) : M B :=
  λ h, match m h with
       | (h', Normal a) => k a h'
       | (h', Thrown e) => (h', Thrown e)
       | (h', Diverged) => (h', Diverged)
       end.
Definition get : M heap := λ h, (h, Normal h).
Definition modify (f : heap → heap) : M unit := λ h, (f h, Normal tt).

Declare Scope sync_scope.
Delimit Scope sync_scope with sync.
Notation "'let*' x := m 'in' k" := (bind m (λ x, k))
  (at level 10, x pattern, m at level 100, k at level 200) : sync_scope.
Notation "m ';;' k" := (bind m (λ _, k))
  (at level 100, k at level 200, right associativity) : sync_scope.
Local Open Scope sync_scope.

Fixpoint forEach {A} (l : list A) (f : A → M unit) : M unit :=
  match l with
  | [] => ret tt
  | a :: l' => bind (f a) (λ _, forEach l' f)
  end.

(** ** Promises and asynchronous functions *)

(** The body of an [async] function. [Sync] is a block of synchronous code;
    [Await] suspends the function until [p] settles; [Async] calls another
    async function, which runs up to its first [await] and hands back its
    promise; [RetP] returns a promise; [Then] is [p.then(cbok, cberr)] whose
    result is dropped; [Resolve] and [Reject] are the two capabilities of
    [new Promise(...)]; [LoaderLoad] is [UrlLoader.load]; [Stuck] never
    completes (the recursion bound of the embedding was reached);
    [Impossible] stands where a value has a shape that the TypeScript types
    of the source exclude; [ShouldNotHappen] marks a branch that the source
    itself declares unreachable, and runs it. *)
Inductive task :=
| Ret (v : val)
| RetP (p : pid)
| Throw (e : exn)
| Sync (f : heap → sres)
| Await (p : pid) (kok : val → task) (kerr : exn → task)
| Async (τ : ty) (body : task) (k : pid → task)
| Then (p : pid) (cbok : val → task) (cberr : exn → task) (k : task)
| Resolve (p : pid) (v : val) (k : task)
| Reject (p : pid) (e : exn) (k : task)
| LoaderLoad (l : UrlLoader) (url : string) (k : pid → task)
| Stuck
| Impossible
| ShouldNotHappen (k : task)
with sres :=
| SRes (h : heap) (t : task).

(** Runs a synchronous computation inside an async function: an exception
    it throws rejects the function's promise. *)
Definition Do {A} (m : M A) (k : A → task) : task :=
  Sync (λ h, match m h with
             | (h', Normal a) => SRes h' (k a)
             | (h', Thrown e) => SRes h' (Throw e)
             | (h', Diverged) => SRes h' Stuck
             end).

(** [new Promise(...)] before either capability is used. *)
Definition new_promise (τ : ty) : M pid :=
  λ h, (set_promises (λ ps, ps ++ [ {| p_type := τ; p_state := Pending |} ]) h,
        Normal (length (promises h))).

(** [Promise.resolve(v)] *)
Definition Promise_resolve (τ : ty) (v : val) : M pid :=
  λ h, (set_promises (λ ps, ps ++ [ {| p_type := τ; p_state := Fulfilled v |} ]) h,
        Normal (length (promises h))).

(** [await Promise.resolve()] *)
Definition Yield (k : task) : task :=
  Do (Promise_resolve TVoid VUndefined) (λ p, Await p (λ _, k) Throw).

Record reaction := {
  on_ok : val → task;
  on_err : exn → task;
  r_target : pid
}.

Record job := { j_task : task; j_target : pid }.

Record io_request := {
  io_deadline : nat;
  io_promise : pid;
  io_result : string + exn
}.

(** The event loop. [s_failed] records that an [Impossible] or a
    [ShouldNotHappen] was run. *)
Record sched := {
  s_heap : heap;
  s_reactions : list (pid * reaction);
  s_queue : list job;
  s_io : list io_request;
  s_clock : nat;
  s_failed : bool
}.

Definition initial_sched (h : heap) : sched :=
  {| s_heap := h; s_reactions := []; s_queue := []; s_io := []; s_clock := 0;
     s_failed := false |}.

Definition with_heap (h : heap) (s : sched) : sched :=
  {| s_heap := h; s_reactions := s_reactions s; s_queue := s_queue s;
     s_io := s_io s; s_clock := s_clock s; s_failed := s_failed s |}.

Definition with_reactions (rs : list (pid * reaction)) (s : sched) : sched :=
  {| s_heap := s_heap s; s_reactions := rs; s_queue := s_queue s;
     s_io := s_io s; s_clock := s_clock s; s_failed := s_failed s |}.

Definition with_queue (q : list job) (s : sched) : sched :=
  {| s_heap := s_heap s; s_reactions := s_reactions s; s_queue := q;
     s_io := s_io s; s_clock := s_clock s; s_failed := s_failed s |}.

Definition with_io (io : list io_request) (c : nat) (s : sched) : sched :=
  {| s_heap := s_heap s; s_reactions := s_reactions s; s_queue := s_queue s;
     s_io := io; s_clock := c; s_failed := s_failed s |}.

Definition failed (s : sched) : sched :=
  {| s_heap := s_heap s; s_reactions := s_reactions s; s_queue := s_queue s;
     s_io := s_io s; s_clock := s_clock s; s_failed := true |}.

Definition fresh (s : sched) : pid := length (promises (s_heap s)).

Definition alloc_heap (τ : ty) (h : heap) : heap :=
  set_promises (λ ps, ps ++ [ {| p_type := τ; p_state := Pending |} ]) h.

Definition alloc (τ : ty) (s : sched) : sched :=
  with_heap (alloc_heap τ (s_heap s)) s.

Definition state_of (h : heap) (p : pid) : option pstate :=
  p_state <$> promises h !! p.

Definition set_state (st : pstate) (pr : promise) : promise :=
  {| p_type := p_type pr; p_state := st |}.

(** A pending promise takes the state; a settled one never changes. *)
Definition settle_heap (p : pid) (st : pstate) (h : heap) : heap :=
  match state_of h p with
  | Some Pending => set_promises (alter (set_state st) p) h
  | _ => h
  end.

Definition enqueue (js : list job) (s : sched) : sched :=
  with_queue (s_queue s ++ js) s.

Definition reaction_job (st : pstate) (r : reaction) : list job :=
  match st with
  | Fulfilled v => [ {| j_task := on_ok r v; j_target := r_target r |} ]
  | Rejected e => [ {| j_task := on_err r e; j_target := r_target r |} ]
  | Pending => []
  end.

(** [p.then(...)]: queued at once when [p] is settled, kept otherwise. *)
Definition subscribe (p : pid) (r : reaction) (s : sched) : sched :=
  match state_of (s_heap s) p with
  | Some Pending => with_reactions (s_reactions s ++ [(p, r)]) s
  | Some st => enqueue (reaction_job st r) s
  | None => s
  end.

(** Settling a pending promise queues its reactions in the order they were
    registered; a settled promise never changes. *)
Definition settle (p : pid) (st : pstate) (s : sched) : sched :=
  match state_of (s_heap s) p with
  | Some Pending =>
      let mine := filter (λ pr, pr.1 = p) (s_reactions s) in
      let others := filter (λ pr, pr.1 ≠ p) (s_reactions s) in
      with_heap (settle_heap p st (s_heap s))
        (with_reactions others
           (enqueue (flat_map (λ pr, reaction_job st pr.2) mine) s))
  | _ => s
  end.

Definition add_io (r : io_request) (s : sched) : sched :=
  with_io (s_io s ++ [r]) (s_clock s) s.

(** Runs a function body until it returns, throws or suspends. [tgt] is the
    promise of the async function the body belongs to. Returning a promise
    resolves [tgt] with it one job later. *)
Fixpoint exec (t : task) (tgt : pid) (s : sched) {struct t} : sched :=
  match t with
  | Ret v => settle tgt (Fulfilled v) s
  | RetP p => enqueue [ {| j_task := Await p Ret Throw; j_target := tgt |} ] s
  | Throw e => settle tgt (Rejected e) s
  | Sync f =>
      match f (s_heap s) with
      | SRes h' t' => exec t' tgt (with_heap h' s)
      end
  | Await p kok kerr =>
      subscribe p {| on_ok := kok; on_err := kerr; r_target := tgt |} s
  | Async τ body k =>
      let p := fresh s in
      exec (k p) tgt (exec body p (alloc τ s))
  | Then p cbok cberr k =>
      let d := fresh s in
      exec k tgt (subscribe p {| on_ok := cbok; on_err := cberr; r_target := d |}
                    (alloc TAny s))
  | Resolve p v k => exec k tgt (settle p (Fulfilled v) s)
  | Reject p e k => exec k tgt (settle p (Rejected e) s)
  | LoaderLoad l url k =>
      let p := fresh s in
      exec (k p) tgt
        (add_io {| io_deadline := s_clock s + ul_latency l url;
                   io_promise := p; io_result := ul_load l url |}
           (with_heap (set_loaderCalls (λ ls, ls ++ [url]) (alloc_heap TString (s_heap s))) s))
  | Stuck => s
  | Impossible => failed s
  | ShouldNotHappen k => exec k tgt (failed s)
  end.

(** The pending load that completes next: the smallest deadline, the
    oldest request among equals. *)
Fixpoint earliest (rs : list io_request) : option io_request :=
  match rs with
  | [] => None
  | r :: rs' =>
      match earliest rs' with
      | Some r' => if decide (io_deadline r' < io_deadline r) then Some r' else Some r
      | None => Some r
      end
  end.

Definition io_state (r : io_request) : pstate :=
  match io_result r with
  | inl text => Fulfilled (VString text)
  | inr e => Rejected e
  end.

(** One turn of the event loop: the oldest microtask if there is one,
    otherwise the completion of a load. *)
Definition step (s : sched) : option sched :=
  match s_queue s with
  | j :: q => Some (exec (j_task j) (j_target j) (with_queue q s))
  | [] =>
      match earliest (s_io s) with
      | Some r =>
          Some (settle (io_promise r) (io_state r)
                  (with_io (filter (λ r', io_promise r' ≠ io_promise r) (s_io s))
                     (max (s_clock s) (io_deadline r)) s))
      | None => None
      end
  end.

Fixpoint run (n : nat) (s : sched) : sched :=
  match n with
  | 0 => s
  | S n' => match step s with Some s' => run n' s' | None => s end
  end.

(** A call of an async function from outside any async function. *)
Definition call (τ : ty) (body : task) (s : sched) : pid * sched :=
  (fresh s, exec body (fresh s) (alloc τ s)).

Declare Scope task_scope.
Delimit Scope task_scope with task.
Notation "'do' x := m 'in' k" := (Do m (λ x, k))
  (at level 10, x pattern, m at level 100, k at level 200) : task_scope.
Notation "'await' x := p 'in' k" := (Await p (λ x, k) Throw)
  (at level 10, x pattern, p at level 100, k at level 200) : task_scope.
Notation "'async' p : τ := body 'in' k" := (Async τ body (λ p, k))
  (at level 10, p name, τ at level 0, body at level 100, k at level 200) : task_scope.
Local Open Scope task_scope.

(** ** Heap access *)

Definition this_context (this : ctxid) : M AnalyzerCacheContext :=
  λ h, match contexts h !! this with
       | Some c => (h, Normal c)
       | None => (h, Diverged)
       end.

Definition this_cache (this : ctxid) : M AnalysisCache :=
  let* c := this_context this in ret (_cache c).

Definition update_cache (this : ctxid) (f : AnalysisCache → AnalysisCache) : M unit :=
  modify (set_contexts (alter (set_cache f) this)).

Definition get_feature (f : fid) : M ScannedFeature :=
  λ h, match features h !! f with
       | Some x => (h, Normal x)
       | None => (h, Diverged)
       end.

Definition get_scannedDoc (sd : sdid) : M ScannedDocument :=
  λ h, match scannedDocs h !! sd with
       | Some x => (h, Normal x)
       | None => (h, Diverged)
       end.

Definition new_features (fs : list ScannedFeature) : M (list fid) :=
  λ h, (set_features (λ l, l ++ fs) h,
        Normal (seq (length (features h)) (length fs))).

Definition new_warnings : M wid :=
  λ h, (set_warningArrays (λ l, l ++ [[]]) h, Normal (length (warningArrays h))).

Definition warnings_push (ws : wid) (w : Warning) : M unit :=
  modify (set_warningArrays (alter (λ l, l ++ [w]) ws)).

Definition new_Set : M vid :=
  λ h, (set_visitedSets (λ l, l ++ [∅]) h, Normal (length (visitedSets h))).

Definition Set_has (v : vid) (x : string) : M bool :=
  λ h, match visitedSets h !! v with
       | Some s => (h, Normal (bool_decide (x ∈ s)))
       | None => (h, Diverged)
       end.

Definition Set_add (v : vid) (x : string) : M unit :=
  modify (set_visitedSets (alter (λ s, {[x]} ∪ s) v)).

Definition new_ScannedDocument (document : ParsedDocument) (fs : list fid)
    (warnings : wid) : M sdid :=
  λ h, (set_scannedDocs (λ l, l ++ [ {| sd_document := document; sd_features := fs;
                                         sd_warnings := warnings;
                                         sd_isInline := pd_isInline document |} ]) h,
        Normal (length (scannedDocs h))).

Definition new_Document (base : sdid) (analyzer : ctxid) : M docid :=
  λ h, (set_documents (λ l, l ++ [ {| doc_base := base; doc_analyzer := analyzer;
                                       doc_begunResolving := false;
                                       doc_doneResolving := false |} ]) h,
        Normal (length (documents h))).

Definition new_context (c : AnalyzerCacheContext) : M ctxid :=
  λ h, (set_contexts (λ l, l ++ [c]) h, Normal (length (contexts h))).

(** [scannedImport.scannedDocument = scannedDocument] and the same
    assignment on an inline document. *)
Definition set_scannedDocument_slot (sd : sdid) (f : ScannedFeature) : ScannedFeature :=
  match f with
  | FImport i =>
      FImport {| si_type := si_type i; si_url := si_url i;
                 si_urlSourceRange := si_urlSourceRange i;
                 si_sourceRange := si_sourceRange i;
                 si_scannedDocument := Some sd |}
  | FInlineDocument d =>
      FInlineDocument {| sid_type := sid_type d; sid_contents := sid_contents d;
                         sid_locationOffset := sid_locationOffset d;
                         sid_attachedComment := sid_attachedComment d;
                         sid_astNode := sid_astNode d;
                         sid_scannedDocument := Some sd |}
  | _ => f
  end.

Definition assign_scannedDocument (f : fid) (sd : sdid) : M unit :=
  modify (set_features (alter (set_scannedDocument_slot sd) f)).

Definition scannedDocument_slot (f : ScannedFeature) : option sdid :=
  match f with
  | FImport i => si_scannedDocument i
  | FInlineDocument d => sid_scannedDocument d
  | _ => None
  end.

(** Modelled from the spec: [ScannedElement.applyHtmlComment], declared in
    the model but absent from the sources; the comment that applies to the
    document is attributed to the element. *)
Definition applyHtmlComment (comment : option string) (f : ScannedFeature) : ScannedFeature :=
  match f with
  | FElement e => FElement {| se_tagName := se_tagName e; se_htmlComment := comment |}
  | _ => f
  end.

(** ** Promise.all *)

Definition new_cell (n : nat) : M cellid :=
  λ h, (set_allCells (λ l, l ++ [n]) h, Normal (length (allCells h))).

(** One element was fulfilled; answers how many are still pending. *)
Definition cell_countdown (c : cellid) : M nat :=
  λ h, match allCells h !! c with
       | Some n => (set_allCells (λ l, <[c := pred n]> l) h, Normal (pred n))
       | None => (h, Diverged)
       end.

Fixpoint Promise_all_each (result : pid) (c : cellid) (n : nat) (ps : list pid) (k : task) : task :=
  match ps with
  | [] => k
  | p :: ps' =>
      Then p
        (λ _, do remaining := cell_countdown c in
              if decide (remaining = 0)
              then Resolve result (VArray n) (Ret VUndefined)
              else Ret VUndefined)
        (λ e, Reject result e (Ret VUndefined))
        (Promise_all_each result c n ps' k)
  end.

(** [Promise.all(ps)]: fulfilled once every element is, rejected with the
    first rejection. *)
Definition Promise_all (ps : list pid) (k : pid → task) : task :=
  do result := new_promise TArray in
  do c := new_cell (length ps) in
  match ps with
  | [] => Resolve result (VArray 0) (k result)
  | _ => Promise_all_each result c (length ps) ps (k result)
  end.

(** [xs.map(async (x) => ...)]: every callback is called in turn and runs to
    its first suspension. *)
Fixpoint map_async (bodies : list task) (k : list pid → task) : task :=
  match bodies with
  | [] => k []
  | b :: bs => async p : TAny := b in map_async bs (λ ps, k (p :: ps))
  end.

(** ** AnalyzerCacheContext *)

Definition default_parsers : gmap string Parser :=
  {[ "html" := HtmlParser;
     "js" := JavaScriptParser "script";
     "css" := CssParser;
     "json" := JsonParser ]}.

Definition _getDefaultScanners (lazyEdges : option LazyEdgeMap) : ScannerTable :=
  {[ "html" := [ HtmlImportScanner lazyEdges; HtmlScriptScanner; HtmlStyleScanner;
                 DomModuleScanner; CssImportScanner;
                 HtmlCustomElementReferenceScanner ];
     "js" := [ PolymerElementScanner; BehaviorScanner; VanillaElementScanner ] ]}.

(** [new AnalyzerCacheContext(options)] *)
Definition AnalyzerCacheContext_new (options : Options) : AnalyzerCacheContext :=
  {| _loader := urlLoader options;
     _resolver := urlResolver options;
     _parsers := default default_parsers (parsers options);
     _lazyEdges := lazyEdges options;
     _scanners := default (_getDefaultScanners (lazyEdges options)) (scanners options);
     _cache := new_AnalysisCache;
     _generation := 0 |}.

Definition _resolveUrl (this : AnalyzerCacheContext) (url : string) : string :=
  match _resolver this with
  | Some r => if ur_canResolve r url then ur_resolve r url else url
  | None => url
  end.

(** [_fork]: a copy of this context with the given cache, one generation on. *)
Definition _fork (this : ctxid) (cache : AnalysisCache) : M ctxid :=
  let* c := this_context this in
  let copy := AnalyzerCacheContext_new
                {| lazyEdges := _lazyEdges c; parsers := Some (_parsers c);
                   scanners := Some (_scanners c); urlLoader := _loader c;
                   urlResolver := _resolver c |} in
  new_context
    {| _parsers := _parsers copy; _lazyEdges := _lazyEdges copy;
       _scanners := _scanners copy; _loader := _loader copy;
       _resolver := _resolver copy; _cache := cache;
       _generation := _generation c + 1 |}.

Definition clearCaches (this : ctxid) : M ctxid :=
  _fork this new_AnalysisCache.

(** Modelled from the spec: [ScannedDocument.getNestedFeatures], declared in
    model/document but absent from the sources. For each feature, an inline
    document whose [scannedDocument] is populated is replaced by that
    sub-document's nested features; flattening stops at imports. *)
Fixpoint getNestedFeatures (depth : nat) (h : heap) (sd : sdid) : list fid :=
  match depth with
  | 0 => []
  | S n =>
      match scannedDocs h !! sd with
      | None => []
      | Some d =>
          flat_map
            (λ f, match features h !! f with
                  | Some (FInlineDocument i) =>
                      match sid_scannedDocument i with
                      | Some sub => getNestedFeatures n h sub
                      | None => [f]
                      end
                  | _ => [f]
                  end)
            (sd_features d)
      end
  end.

Definition nested_imports (h : heap) (sd : sdid) : list string :=
  omap (λ f, match features h !! f with
             | Some (FImport i) => Some (si_url i)
             | _ => None
             end)
       (getNestedFeatures (S (length (scannedDocs h))) h sd).

(** Modelled from the spec: [getImportersOf] of analysis-cache, absent from
    the sources. The set of URLs whose analyzed or scanned document
    transitively imports [path]: the import graph over both caches is walked
    backwards from [path], a set of reached URLs ending the walk on cycles. *)
Definition import_edges (h : heap) (resolveFn : string → string) (sds : list sdid)
    : list (string * string) :=
  flat_map (λ sd, match scannedDocs h !! sd with
                  | Some d => map (λ u, (sd_url d, resolveFn u)) (nested_imports h sd)
                  | None => []
                  end) sds.

Definition direct_importers (edges : list (string * string)) (targets : gset string)
    : gset string :=
  list_to_set (map fst (filter (λ e, e.2 ∈ targets) edges)).

Fixpoint importers (n : nat) (edges : list (string * string)) (path : string)
    (found : gset string) : gset string :=
  match n with
  | 0 => found
  | S n' => importers n' edges path (found ∪ direct_importers edges ({[path]} ∪ found))
  end.

Definition getImportersOf (h : heap) (path : string) (docs : list docid)
    (sds : list sdid) (resolveFn : string → string) : gset string :=
  let bases := omap (λ d, doc_base <$> documents h !! d) docs in
  let edges := import_edges h resolveFn (bases ++ sds) in
  importers (S (length edges)) edges path ∅.

(** Modelled from the spec: [AnalysisCache.onPathChanged], absent from the
    sources. A new cache in which [{changedUrl} ∪ dependants] has been removed
    from every map; every other entry is carried over. *)
Definition onPathChanged (c : AnalysisCache) (changedUrl : string)
    (dependants : gset string) : AnalysisCache :=
  let gone := {[changedUrl]} ∪ dependants in
  let keep {V} (m : gmap string V) : gmap string V :=
    filter (λ kv, kv.1 ∉ gone) m in
  {| parsedDocumentPromises := keep (parsedDocumentPromises c);
     scannedDocumentPromises := keep (scannedDocumentPromises c);
     dependenciesScanned := keep (dependenciesScanned c);
     analyzedDocumentPromises := keep (analyzedDocumentPromises c);
     scannedDocuments := keep (scannedDocuments c);
     analyzedDocuments := keep (analyzedDocuments c) |}.

Definition Map_values {V} (m : gmap string V) : list V := (map_to_list m).*2.

(** The set [fileChanged] invalidates besides the changed URL itself. *)
Definition dependants (h : heap) (c : AnalyzerCacheContext) (resolvedUrl : string)
    : gset string :=
  getImportersOf h resolvedUrl
    (Map_values (analyzedDocuments (_cache c)))
    (Map_values (scannedDocuments (_cache c)))
    (λ url, _resolveUrl c url).

Definition fileChanged (this : ctxid) (url : string) : M ctxid :=
  let* c := this_context this in
  let resolvedUrl := _resolveUrl c url in
  let* h := get in
  let newCache := onPathChanged (_cache c) resolvedUrl (dependants h c resolvedUrl) in
  _fork this newCache.

Section Engine.

(** The collaborators whose code lies outside the analysis engine:
    [Parser.parse] of each parser object, the [scan] function of
    scanning/scan, and [path.extname]. *)
Variable parse : Parser → string → string → option InlineDocInfo → ParsedDocument + exn.
Variable scan : ParsedDocument → list Scanner → list ScannedFeature + exn.
Variable extname : string → string.

(** [s.substring(1)] *)
Definition substring1 (s : string) : string :=
  match s with
  | EmptyString => EmptyString
  | String _ rest => rest
  end.

(** [scan(document, scanners)]: the scanners create the feature objects. *)
Definition scan_call (document : ParsedDocument) (scanners : list Scanner) : task :=
  match scan document scanners with
  | inl fs => do ids := new_features fs in Ret (VFeatures ids)
  | inr e => Throw e
  end.

Definition load (this : ctxid) (resolvedUrl : string) (providedContents : option string) : task :=
  do c := this_context this in
  if negb (ul_canLoad (_loader c) resolvedUrl)
  then Throw (Error ("Can't load URL: " +:+ resolvedUrl))
  else match providedContents with
       | None => LoaderLoad (_loader c) resolvedUrl (λ p, await content := p in Ret content)
       | Some contents => Ret (VString contents)
       end.

Definition _parseContents (this : ctxid) (type contents url : string)
    (inlineInfo : option InlineDocInfo) : M ParsedDocument :=
  let* c := this_context this in
  match _parsers c !! type with
  | None => throw (NoKnownParserError ("No parser for for file type " +:+ type))
  | Some parser =>
      match parse parser contents url inlineInfo with
      | inl parsedDoc => ret parsedDoc
      | inr (WarningCarryingException w) => throw (WarningCarryingException w)
      | inr error =>
          throw (Error ("Error parsing " +:+ url +:+ ":" +:+ String "010"%char " "
                        +:+ error_text error))
      end
  end.

Definition _parse (this : ctxid) (resolvedUrl : string) (providedContents : option string) : task :=
  do cache := this_cache this in
  match parsedDocumentPromises cache !! resolvedUrl with
  | Some cachedResult => RetP cachedResult
  | None =>
      async promise : TParsedDocument :=
        Yield (
          async l : TString := load this resolvedUrl providedContents in
          await content := l in
          match content with
          | VString content =>
              let extension := substring1 (extname resolvedUrl) in
              do parsedDoc := _parseContents this extension content resolvedUrl None in
              Ret (VParsed parsedDoc)
          | _ => Impossible
          end)
      in
      do _ := update_cache this (set_parsedDocumentPromises <[resolvedUrl := promise]>) in
      RetP promise
  end.

Definition _getScannedFeatures (this : ctxid) (document : ParsedDocument) : task :=
  do c := this_context this in
  match _scanners c !! pd_type document with
  | Some scanners => async p : TFeatures := scan_call document scanners in RetP p
  | None => Ret (VFeatures [])
  end.

Definition is_ScannedElement (f : ScannedFeature) : bool :=
  match f with FElement _ => true | _ => false end.

Definition _scanDocument (this : ctxid) (document : ParsedDocument)
    (maybeAttachedComment : option string) : task :=
  do warnings := new_warnings in
  async p : TFeatures := _getScannedFeatures this document in
  await scannedFeatures := p in
  match scannedFeatures with
  | VFeatures scannedFeatures =>
      do scannedDocument := (
        (match scannedFeatures with
         | firstScannedFeature :: _ =>
             let* f := get_feature firstScannedFeature in
             if is_ScannedElement f
             then modify (set_features (alter (applyHtmlComment maybeAttachedComment)
                                              firstScannedFeature))
             else ret tt
         | [] => ret tt
         end);;
        let* scannedDocument := new_ScannedDocument document scannedFeatures warnings in
        (if negb (pd_isInline document)
         then let* cache := this_cache this in
              if decide (is_Some (scannedDocuments cache !! pd_url document))
              then throw (Error "Scanned document already in cache. This should never happen.")
              else update_cache this
                     (set_scannedDocuments <[pd_url document := scannedDocument]>)
         else ret tt);;
        ret scannedDocument) in
      Ret (VScanned scannedDocument)
  | _ => Impossible
  end.

(** [_scan] is declared [Promise<ScannedDocument|'visited'>]; a call that
    passes no [visited] set is given the type without the sentinel. *)
Definition scan_result (visited : option vid) : ty :=
  match visited with
  | Some _ => TScannedDocumentOrVisited
  | None => TScannedDocument
  end.

Section Recursion.

(** The two functions the others call back into; the knot is tied below. *)
Variable _scan : ctxid → string → option string → option vid → task.
Variable _scanDependencies : ctxid → sdid → vid → task.

Definition _scanInlineSource (this : ctxid) (type contents url : string) (visited : vid)
    (inlineInfo : option InlineDocInfo) (attachedComment : option string) : task :=
  do c := this_context this in
  let resolvedUrl := _resolveUrl c url in
  do parsedDoc := _parseContents this type contents resolvedUrl inlineInfo in
  async p : TScannedDocument := _scanDocument this parsedDoc attachedComment in
  await scannedDoc := p in
  match scannedDoc with
  | VScanned scannedDoc =>
      async q : TVoid := _scanDependencies this scannedDoc visited in
      await _ := q in
      Ret (VScanned scannedDoc)
  | _ => Impossible
  end.

Definition _scanInlineDocument (this : ctxid) (inlineDoc : fid)
    (containingDocument : ParsedDocument) (warnings : wid) (visited : vid) : task :=
  do f := get_feature inlineDoc in
  match f with
  | FInlineDocument d =>
      let locationOffset :=
        {| lo_line := lo_line (sid_locationOffset d);
           lo_col := lo_col (sid_locationOffset d);
           lo_filename := Some (pd_url containingDocument) |} in
      let inlineInfo :=
        {| idi_locationOffset := Some locationOffset; idi_astNode := sid_astNode d |} in
      async p : TScannedDocument :=
        _scanInlineSource this (sid_type d) (sid_contents d)
          (pd_url containingDocument) visited (Some inlineInfo)
          (sid_attachedComment d) in
      Await p
        (λ scannedDocument,
           match scannedDocument with
           | VScanned sd =>
               do _ := assign_scannedDocument inlineDoc sd in
               Ret (VScanned sd)
           | _ => Impossible
           end)
        (λ err,
           match is_WarningCarryingException err with
           | Some w => do _ := warnings_push warnings w in Ret VNull
           | None => Throw err
           end)
  | _ => Stuck
  end.

Definition could_not_load (error : exn) (i : ScannedImport) : Warning :=
  {| w_code := "could-not-load";
     w_message := "Unable to load import: " +:+ error_text error;
     w_sourceRange := match si_urlSourceRange i with
                      | Some r => Some r
                      | None => si_sourceRange i
                      end;
     w_severity := ERROR |}.

Definition _scanImport (this : ctxid) (scannedImport : fid) (warnings : wid)
    (visited : vid) : task :=
  do f := get_feature scannedImport in
  match f with
  | FImport i =>
      do c := this_context this in
      let url := _resolveUrl c (si_url i) in
      async p : (scan_result (Some visited)) := _scan this url None (Some visited) in
      Await p
        (λ _,
           do cache := this_cache this in
           match scannedDocumentPromises cache !! url with
           | Some q =>
               Then q
                 (λ scannedDocument,
                    match scannedDocument with
                    | VScanned sd =>
                        do _ := assign_scannedDocument scannedImport sd in
                        Ret VUndefined
                    | _ => Impossible
                    end)
                 Throw
                 (Ret VNull)
           | None => Throw (Error "Cannot read property 'then' of undefined")
           end)
        (λ error,
           if is_NoKnownParserError error then Ret VNull
           else
             do _ := warnings_push warnings (could_not_load error i) in
             Ret VNull)
  | _ => Stuck
  end.

Definition is_dependency (h : heap) (f : fid) : bool :=
  match features h !! f with
  | Some (FInlineDocument _) | Some (FImport _) => true
  | _ => false
  end.

(** The callback that [_scanDependencies] maps over the dependencies. *)
Definition scanDependency (this : ctxid) (sd : ScannedDocument) (visited : vid)
    (h : heap) (scannedDependency : fid) : task :=
  match features h !! scannedDependency with
  | Some (FInlineDocument _) =>
      async p : TScannedDocumentOrNull :=
        _scanInlineDocument this scannedDependency (sd_document sd)
          (sd_warnings sd) visited in
      RetP p
  | Some (FImport i) =>
      if decide (si_type i ≠ "lazy-html-import")
      then async p : TNull :=
             _scanImport this scannedDependency (sd_warnings sd) visited in
           RetP p
      else Ret VNull
  | _ => Throw (Error "Unexpected dependency type")
  end.

Definition _scanDependencies_body (this : ctxid) (scannedDocument : sdid)
    (visited : vid) : task :=
  do sd := get_scannedDoc scannedDocument in
  do h := get in
  let scannedDependencies := filter (λ f, is_dependency h f = true) (sd_features sd) in
  map_async (map (scanDependency this sd visited h) scannedDependencies)
    (λ scannedSubDocuments,
       Promise_all scannedSubDocuments (λ all, await _ := all in Ret VUndefined)).

Definition _scanDependenciesOfToplevelDoc (this : ctxid) (scannedDocument : sdid)
    (visited : vid) : task :=
  do sd := get_scannedDoc scannedDocument in
  do cache := this_cache this in
  match dependenciesScanned cache !! sd_url sd with
  | Some scanDepPromise =>
      do _ := update_cache this (set_dependenciesScanned <[sd_url sd := scanDepPromise]>) in
      await _ := scanDepPromise in
      RetP scanDepPromise
  | None =>
      async scanDepPromise : TVoid := _scanDependencies this scannedDocument visited in
      do _ := update_cache this (set_dependenciesScanned <[sd_url sd := scanDepPromise]>) in
      await _ := scanDepPromise in
      RetP scanDepPromise
  end.

Definition _scan_body (this : ctxid) (resolvedUrl : string) (contents : option string)
    (visited : option vid) : task :=
  do seen := match visited with
             | Some v => Set_has v resolvedUrl
             | None => ret false
             end in
  if seen then Ret VVisited
  else
    do actualVisited := match visited with
                        | Some v => ret v
                        | None => new_Set
                        end in
    do _ := Set_add actualVisited resolvedUrl in
    do cache := this_cache this in
    match scannedDocumentPromises cache !! resolvedUrl with
    | Some cachedResult =>
        await scannedDocument := cachedResult in
        match scannedDocument with
        | VScanned sd =>
            async d : TVoid := _scanDependenciesOfToplevelDoc this sd actualVisited in
            await _ := d in
            RetP cachedResult
        | _ => Impossible
        end
    | None =>
        async promise : TScannedDocument :=
          Yield (
            async pp : TParsedDocument := _parse this resolvedUrl contents in
            await document := pp in
            match document with
            | VParsed document =>
                async ps : TScannedDocument := _scanDocument this document None in
                RetP ps
            | _ => Impossible
            end)
        in
        do _ := update_cache this (set_scannedDocumentPromises <[resolvedUrl := promise]>) in
        await scannedDocument := promise in
        match scannedDocument with
        | VScanned sd =>
            async d : TVoid := _scanDependenciesOfToplevelDoc this sd actualVisited in
            await _ := d in
            Ret (VScanned sd)
        | _ => Impossible
        end
    end.

End Recursion.

(** The recursion of [_scan] through [_scanImport] and of
    [_scanDependencies] through [_scanInlineDocument], bounded by [fuel]. *)
Fixpoint _scan (fuel : nat) : ctxid → string → option string → option vid → task :=
  match fuel with
  | 0 => λ _ _ _ _, Stuck
  | S n => _scan_body (_scanDependencies n)
  end
with _scanDependencies (fuel : nat) : ctxid → sdid → vid → task :=
  match fuel with
  | 0 => λ _ _ _, Stuck
  | S n => _scanDependencies_body (_scan n) (_scanDependencies n)
  end.

Definition begin_resolving (d : Document) : Document :=
  {| doc_base := doc_base d; doc_analyzer := doc_analyzer d;
     doc_begunResolving := true; doc_doneResolving := doc_doneResolving d |}.

Definition finish_resolving (d : Document) : Document :=
  {| doc_base := doc_base d; doc_analyzer := doc_analyzer d;
     doc_begunResolving := doc_begunResolving d; doc_doneResolving := true |}.

(** Modelled from the spec: [Document.resolve], declared in model/document
    but absent from the sources. Guarded by [begunResolving]; walks the nested
    features of the scanned document and, for an import, asks the analyzer
    for the imported document ([_getDocument]); [doneResolving] is set at the
    end. *)
Definition Document_resolve (_getDocument : ctxid → string → M (option docid))
    (document : docid) : M unit :=
  let* h := get in
  match documents h !! document with
  | None => diverge
  | Some d =>
      if doc_begunResolving d then ret tt
      else
        modify (set_documents (alter begin_resolving document));;
        forEach (nested_imports h (doc_base d))
          (λ url, _getDocument (doc_analyzer d) url;; ret tt);;
        modify (set_documents (alter finish_resolving document))
  end.

Definition _getDocument_body (_makeDocument : ctxid → sdid → M docid)
    (this : ctxid) (url : string) : M (option docid) :=
  let* c := this_context this in
  let resolvedUrl := _resolveUrl c url in
  match analyzedDocuments (_cache c) !! resolvedUrl with
  | Some document => ret (Some document)
  | None =>
      match scannedDocuments (_cache c) !! resolvedUrl with
      | None => ret None
      | Some scannedDocument =>
          let* document := _makeDocument this scannedDocument in
          ret (Some document)
      end
  end.

(** [document.resolve()] calls back into [_getDocument] and so into
    [_makeDocument]; [fuel] bounds that recursion. *)
Fixpoint _makeDocument (fuel : nat) (this : ctxid) (scannedDocument : sdid) : M docid :=
  match fuel with
  | 0 => diverge
  | S n =>
      let* sd := get_scannedDoc scannedDocument in
      let resolvedUrl := sd_url sd in
      let* cache := this_cache this in
      if decide (is_Some (analyzedDocuments cache !! resolvedUrl))
      then throw (Error ("Internal error: document " +:+ resolvedUrl +:+ " already exists"))
      else
        let* document := new_Document scannedDocument this in
        (if decide (is_Some (analyzedDocumentPromises cache !! resolvedUrl))
         then ret tt
         else let* p := Promise_resolve TDocument (VDocument document) in
              update_cache this (set_analyzedDocumentPromises <[resolvedUrl := p]>));;
        update_cache this (set_analyzedDocuments <[resolvedUrl := document]>);;
        Document_resolve (_getDocument_body (_makeDocument n)) document;;
        ret document
  end.

Definition _getDocument (fuel : nat) : ctxid → string → M (option docid) :=
  _getDocument_body (_makeDocument fuel).

Definition analyze (fuel : nat) (this : ctxid) (url : string) (contents : option string) : task :=
  do c := this_context this in
  let resolvedUrl := _resolveUrl c url in
  match analyzedDocumentPromises (_cache c) !! resolvedUrl with
  | Some cachedResult => RetP cachedResult
  | None =>
      async promise : TDocument :=
        Yield (
          async s : (scan_result None) := _scan fuel this resolvedUrl contents None in
          await scannedDocument := s in
          match scannedDocument with
          | VVisited =>
              ShouldNotHappen
                (Throw (Error ("This should not happen. Got a cycle of length zero(!) scanning "
                               +:+ url)))
          | VScanned scannedDocument =>
              Yield (
                do document := _makeDocument fuel this scannedDocument in
                Ret (VDocument document))
          | _ => Impossible
          end)
      in
      do _ := update_cache this (set_analyzedDocumentPromises <[resolvedUrl := promise]>) in
      RetP promise
  end.

(** ** Analyzer *)

Definition Analyzer_new (options : Options) : heap :=
  set_contexts (λ _, [AnalyzerCacheContext_new options]) empty_heap.

Definition Analyzer_analyze (fuel : nat) (url : string) (contents : option string) : task :=
  do _ := match contents with
          | Some _ =>
              let* h := get in
              let* c := fileChanged (analyzer_cacheContext h) url in
              modify (set_analyzer_cacheContext c)
          | None => ret tt
          end in
  do h := get in
  async p : TDocument := analyze fuel (analyzer_cacheContext h) url contents in
  RetP p.

Definition Analyzer_clearCaches : M unit :=
  let* h := get in
  let* c := clearCaches (analyzer_cacheContext h) in
  modify (set_analyzer_cacheContext c).

Definition Analyzer_load (resolvedUrl : string) (providedContents : option string) : task :=
  do h := get in
  async p : TString := load (analyzer_cacheContext h) resolvedUrl providedContents in
  RetP p.

End Engine.

(** ** Source positions *)

(** Modelled from the spec: [ParsedDocument.newlineIndexes],
    [offsetToSourcePosition] and [sourcePositionToOffset] are declared in
    parser/document but absent from the sources. [newlineIndexes] holds the
    offset of every newline of [contents]; a position is the number of
    newlines before the offset and the distance to the start of that line;
    the location offset of an inline document is applied additively. *)
Definition newline : ascii := "010"%char.

Fixpoint newlineIndexes_from (i : nat) (contents : string) : list nat :=
  match contents with
  | EmptyString => []
  | String c rest =>
      if decide (c = newline)
      then i :: newlineIndexes_from (S i) rest
      else newlineIndexes_from (S i) rest
  end.

Definition newlineIndexes (d : ParsedDocument) : list nat :=
  newlineIndexes_from 0 (pd_contents d).

(** How many newlines lie before [offset]. *)
Definition linesLess (nl : list nat) (offset : nat) : nat :=
  length (filter (λ i, i < offset) nl).

(** The offset at which line [l] starts. *)
Definition lineStart (nl : list nat) (l : nat) : nat :=
  match l with
  | 0 => 0
  | S l' => match nl !! l' with Some i => S i | None => 0 end
  end.

(** The offset at which line [l] ends: its newline, or the end of the text. *)
Definition lineEnd (d : ParsedDocument) (l : nat) : nat :=
  match newlineIndexes d !! l with
  | Some i => i
  | None => String.length (pd_contents d)
  end.

Definition offset_line (d : ParsedDocument) : nat :=
  match pd_locationOffset d with Some o => lo_line o | None => 0 end.

Definition offset_col (d : ParsedDocument) : nat :=
  match pd_locationOffset d with Some o => lo_col o | None => 0 end.

Definition offsetToSourcePosition (d : ParsedDocument) (offset : nat) : SourcePosition :=
  let l := linesLess (newlineIndexes d) offset in
  {| sp_line := l + offset_line d;
     sp_column := offset - lineStart (newlineIndexes d) l + offset_col d |}.

Definition sourcePositionToOffset (d : ParsedDocument) (position : SourcePosition) : nat :=
  let l := sp_line position - offset_line d in
  lineStart (newlineIndexes d) l + (sp_column position - offset_col d).

Definition valid_offset (d : ParsedDocument) (offset : nat) : Prop :=
  offset ≤ String.length (pd_contents d).

(** A position of the document: a line it has and a column within it, in
    the coordinates of the host file. *)
Definition valid_position (d : ParsedDocument) (p : SourcePosition) : Prop :=
  offset_line d ≤ sp_line p ∧ offset_col d ≤ sp_column p ∧
  sp_line p - offset_line d ≤ length (newlineIndexes d) ∧
  lineStart (newlineIndexes d) (sp_line p - offset_line d)
    + (sp_column p - offset_col d) ≤ lineEnd d (sp_line p - offset_line d).

(** ** A small project to run the engine on *)

(** ** Whole runs: the predicates of the statements, and forms that compute *)

(** A feature that [_scanDependencies] does not follow: neither an inline
    document nor an import. *)
Definition leaf_feature (f : ScannedFeature) : Prop :=
  match f with
  | FInlineDocument _ | FImport _ => False
  | _ => True
  end.

(** The reactions registered on [p], and the others, picked by a boolean
    test; [settle_b] is [settle] written with them. *)
Fixpoint reactions_of (p : pid) (rs : list (pid * reaction)) : list (pid * reaction) :=
  match rs with
  | [] => []
  | pr :: rs' => if Nat.eqb pr.1 p then pr :: reactions_of p rs' else reactions_of p rs'
  end.

Fixpoint reactions_but (p : pid) (rs : list (pid * reaction)) : list (pid * reaction) :=
  match rs with
  | [] => []
  | pr :: rs' => if Nat.eqb pr.1 p then reactions_but p rs' else pr :: reactions_but p rs'
  end.

Definition settle_b (p : pid) (st : pstate) (s : sched) : sched :=
  match state_of (s_heap s) p with
  | Some Pending =>
      with_heap (settle_heap p st (s_heap s))
        (with_reactions (reactions_but p (s_reactions s))
           (enqueue (flat_map (λ pr, reaction_job st pr.2) (reactions_of p (s_reactions s))) s))
  | _ => s
  end.

(** The features [_scanDependencies] follows, picked by a boolean test. *)
Fixpoint dependencies_of (h : heap) (fs : list fid) : list fid :=
  match fs with
  | [] => []
  | f :: fs' => if is_dependency h f then f :: dependencies_of h fs' else dependencies_of h fs'
  end.

(** What the collaborators make of the file at [u]: the loader serves
    [text], a parser is registered for the extension of [u] and parses
    [text] into the top level document [doc], and the scanners registered
    for the type of [doc] find [feats] in it. *)
Definition document_at
    (parse : Parser → string → string → option InlineDocInfo → ParsedDocument + exn)
    (scan : ParsedDocument → list Scanner → list ScannedFeature + exn)
    (extname : string → string)
    (c : AnalyzerCacheContext) (u text : string) (doc : ParsedDocument)
    (feats : list ScannedFeature) : Prop :=
  ul_canLoad (_loader c) u = true ∧
  ul_load (_loader c) u = inl text ∧
  ∃ parser scanners,
    _parsers c !! substring1 (extname u) = Some parser ∧
    parse parser text u None = inl doc ∧
    pd_url doc = u ∧ pd_isInline doc = false ∧
    _scanners c !! pd_type doc = Some scanners ∧
    scan doc scanners = inl feats.

(** Nothing is left to run: no job is queued, no load is in flight, no
    reaction waits for a promise, and no branch that the source calls
    impossible was taken. *)
Definition at_rest (s : sched) : Prop :=
  s_queue s = [] ∧ s_io s = [] ∧ s_reactions s = [] ∧ s_failed s = false.

(** The analysis of [u] has failed with [e]: the promise that the context
    of the analyzer caches for [u] is rejected with [e], and neither a
    ScannedDocument nor a Document exists. *)
Definition analysis_failed (s : sched) (u : string) (e : exn) : Prop :=
  scannedDocs (s_heap s) = [] ∧ documents (s_heap s) = [] ∧
  ∃ c p, contexts (s_heap s) !! analyzer_cacheContext (s_heap s) = Some c ∧
         analyzedDocumentPromises (_cache c) !! u = Some p ∧
         state_of (s_heap s) p = Some (Rejected e).

Module Fixture.

Definition parser_type (p : Parser) : string :=
  match p with
  | HtmlParser => "html"
  | JavaScriptParser _ => "js"
  | CssParser => "css"
  | JsonParser => "json"
  | CustomParser name => name
  end.

(** A parser that accepts every text. *)
Definition parse (p : Parser) (contents url : string) (inlineInfo : option InlineDocInfo)
    : ParsedDocument + exn :=
  inl {| pd_type := parser_type p; pd_url := url; pd_contents := contents;
         pd_isInline := bool_decide (is_Some inlineInfo);
         pd_astNode := inlineInfo ≫= idi_astNode;
         pd_locationOffset := inlineInfo ≫= idi_locationOffset |}.

Definition scanned_import (type url : string) : ScannedImport :=
  {| si_type := type; si_url := url;
     si_urlSourceRange :=
       Some {| sr_file := url;
               sr_start := {| sp_line := 0; sp_column := 25 |};
               sr_end := {| sp_line := 0; sp_column := 37 |} |};
     si_sourceRange := None; si_scannedDocument := None |}.

Definition import (type url : string) : ScannedFeature :=
  FImport (scanned_import type url).

(** The features of each file of the project, keyed by its text. *)
Definition scan (d : ParsedDocument) (_ : list Scanner) : list ScannedFeature + exn :=
  inl (if decide (pd_contents d = "A")
       then [import "html-import" "b.html"; import "html-import" "c.html"]
       else if decide (pd_contents d = "B") then [import "html-import" "c.html"]
       else if decide (pd_contents d = "X") then [import "html-import" "y.html"]
       else if decide (pd_contents d = "Y") then [import "html-import" "x.html"]
       else if decide (pd_contents d = "P") then [import "html-import" "missing.html"]
       else if decide (pd_contents d = "L") then [import "lazy-html-import" "d.html"]
       else []).

(** Every file of the project is an HTML file. *)
Definition extname (url : string) : string := ".html".

Definition files : gmap string string :=
  {[ "a.html" := "A"; "b.html" := "B"; "c.html" := "C";
     "x.html" := "X"; "y.html" := "Y";
     "p.html" := "P";
     "l.html" := "L"; "d.html" := "D" ]}.

(** Serves [files]; c.html takes longer to load than the others. *)
Definition loader : UrlLoader :=
  {| ul_canLoad := λ url, bool_decide (is_Some (files !! url));
     ul_load := λ url, match files !! url with
                       | Some text => inl text
                       | None => inr (Error "not found")
                       end;
     ul_latency := λ url, if decide (url = "c.html") then 5 else 1 |}.

Definition options : Options :=
  {| urlLoader := loader; urlResolver := None; parsers := None;
     scanners := None; lazyEdges := None |}.

Definition fuel : nat := 10.

Definition start : sched := initial_sched (Analyzer_new options).

Definition analyze_call (url : string) (contents : option string) (s : sched)
    : pid * sched :=
  call TDocument (Analyzer_analyze parse scan extname fuel url contents) s.

(** Runs the event loop until only loads are outstanding. *)
Fixpoint run_microtasks (n : nat) (s : sched) : sched :=
  match n with
  | 0 => s
  | S n' =>
      match s_queue s with
      | [] => s
      | _ => match step s with Some s' => run_microtasks n' s' | None => s end
      end
  end.

Definition slots (s : sched) : list (option sdid) :=
  map scannedDocument_slot (features (s_heap s)).

(** analyze("a.html"), run until c.html is the only thing awaited; then
    analyze("b.html") and its microtasks. *)
Definition race_before : sched :=
  run_microtasks 100 (run 45 (analyze_call "a.html" None start).2).

Definition race_after : pid * sched :=
  let r := analyze_call "b.html" None race_before in
  (r.1, run_microtasks 100 r.2).

(** The URL each import feature names, in the order the features were created. *)
Definition import_urls (s : sched) : list (option string) :=
  map (λ f, match f with FImport i => Some (si_url i) | _ => None end)
      (features (s_heap s)).

Definition is_TNull (τ : ty) : bool :=
  match τ with TNull => true | _ => false end.

(** The promises returned by the calls of [_scanImport], the only promises
    of type [null], in the order of the calls, with their states. *)
Definition scanImport_promises (s : sched) : list (pid * pstate) :=
  omap id (imap (λ p pr, if is_TNull (p_type pr) then Some (p, p_state pr) else None)
             (promises (s_heap s))).

(** The state of the promise a map of the cache of context 0 holds for [url]. *)
Definition cached_state (m : AnalysisCache → gmap string pid) (url : string) (s : sched)
    : option pstate :=
  c ← contexts (s_heap s) !! 0; p ← m (_cache c) !! url; state_of (s_heap s) p.

(** The URLs of the scanned documents, in the order they were scanned. *)
Definition scanned_urls (s : sched) : list string :=
  map sd_url (scannedDocs (s_heap s)).

Definition finished (url : string) (contents : option string) : pid * sched :=
  let r := analyze_call url contents start in (r.1, run 300 r.2).


(** A state with one import feature, and a heap with one lazy import. *)
Definition one_import : sched :=
  with_heap (set_features (λ _, [import "html-import" "missing.html"])
               (s_heap start)) start.


(** An inline script of two lines, three lines and two columns into its
    host. *)
Definition two_lines : ParsedDocument :=
  {| pd_type := "js"; pd_url := "a.js"; pd_contents := String "a" (String "b" (String newline (String "c" (String "d" EmptyString))));
     pd_isInline := true; pd_astNode := None;
     pd_locationOffset := Some {| lo_line := 3; lo_col := 2; lo_filename := Some "a.html" |} |}.

(** An inline script in a language no parser is registered for. *)
Definition inline_script : ScannedInlineDocument :=
  {| sid_type := "typescript"; sid_contents := "let x: number = 1;";
     sid_locationOffset := {| lo_line := 3; lo_col := 2; lo_filename := None |};
     sid_attachedComment := None; sid_astNode := None; sid_scannedDocument := None |}.

Definition one_inline : sched :=
  with_heap (set_features (λ _, [FInlineDocument inline_script]) (s_heap start)) start.

Definition host_page : ParsedDocument :=
  {| pd_type := "html"; pd_url := "a.html"; pd_contents := "A"; pd_isInline := false;
     pd_astNode := None; pd_locationOffset := None |}.

(** A style sheet: the default configuration has no scanners for css. *)
Definition style_sheet : ParsedDocument :=
  {| pd_type := "css"; pd_url := "s.css"; pd_contents := "p {}"; pd_isInline := false;
     pd_astNode := None; pd_locationOffset := None |}.

(** A state with one empty [visited] set. *)
Definition one_set : sched :=
  with_heap (set_visitedSets (λ _, [∅]) (s_heap start)) start.


(** The document the parser of the project makes of a file. *)
Definition page (url contents : string) : ParsedDocument :=
  {| pd_type := "html"; pd_url := url; pd_contents := contents; pd_isInline := false;
     pd_astNode := None; pd_locationOffset := None |}.

(** Scanners that find an element and a behavior in every document. *)
Definition leaf_features : list ScannedFeature :=
  [ FElement {| se_tagName := "dom-module"; se_htmlComment := Some "old" |};
    FOther "behavior" ].

Definition leaf_scan (d : ParsedDocument) (_ : list Scanner) : list ScannedFeature + exn :=
  inl leaf_features.


Definition broken_scan (d : ParsedDocument) (_ : list Scanner) : list ScannedFeature + exn :=
  inr (Error "scanner crashed").

(** Every file is a text file; c.html alone is a text file. *)
Definition text_extname (url : string) : string := ".txt".

Definition mixed_extname (url : string) : string :=
  if decide (url = "c.html") then ".txt" else ".html".

(** An HTML import as the scanners report it. *)
Definition html_import (url : string) : ScannedImport := scanned_import "html-import" url.

Definition lazy_import (url : string) : ScannedImport :=
  scanned_import "lazy-html-import" url.

(** Scanners that find in every document an import of the document itself. *)
Definition self_scan (d : ParsedDocument) (_ : list Scanner) : list ScannedFeature + exn :=
  inl [import "html-import" (pd_url d)].

(** An inline script, and scanners that find it in every top level
    document; the scanners of [typescript_scan] find [inline_script]. *)
Definition inline_js : ScannedInlineDocument :=
  {| sid_type := "js"; sid_contents := "var x;";
     sid_locationOffset := {| lo_line := 3; lo_col := 2; lo_filename := None |};
     sid_attachedComment := None; sid_astNode := None; sid_scannedDocument := None |}.

Definition inline_scan (d : ParsedDocument) (_ : list Scanner) : list ScannedFeature + exn :=
  inl (if pd_isInline d then [] else [FInlineDocument inline_js]).

Definition typescript_scan (d : ParsedDocument) (_ : list Scanner)
    : list ScannedFeature + exn :=
  inl [FInlineDocument inline_script].

(** What the parser makes of [inline_js] inside d.html. *)
Definition inline_js_document : ParsedDocument :=
  {| pd_type := "js"; pd_url := "d.html"; pd_contents := "var x;"; pd_isInline := true;
     pd_astNode := None;
     pd_locationOffset := Some {| lo_line := 3; lo_col := 2; lo_filename := Some "d.html" |} |}.

(** A loader that says it can load every URL, and an analyzer with it. *)
Definition eager_loader : UrlLoader :=
  {| ul_canLoad := λ _, true; ul_load := ul_load loader; ul_latency := ul_latency loader |}.

Definition eager_options : Options :=
  {| urlLoader := eager_loader; urlResolver := None; parsers := None;
     scanners := None; lazyEdges := None |}.

(** The scanners of the default configuration. *)
Definition html_scanners : list Scanner :=
  [ HtmlImportScanner None; HtmlScriptScanner; HtmlStyleScanner; DomModuleScanner;
    CssImportScanner; HtmlCustomElementReferenceScanner ].

Definition js_scanners : list Scanner :=
  [ PolymerElementScanner; BehaviorScanner; VanillaElementScanner ].

End Fixture.

(** ** Reasoning about runs: invariants of the event loop *)

Definition has_type (τ : ty) (v : val) : Prop :=
  match τ with
  | TAny => True
  | TVoid => v = VUndefined
  | TNull => v = VNull
  | TString => ∃ s, v = VString s
  | TParsedDocument => ∃ d, v = VParsed d
  | TFeatures => ∃ fs, v = VFeatures fs
  | TScannedDocument => ∃ sd, v = VScanned sd
  | TScannedDocumentOrVisited => v = VVisited ∨ ∃ sd, v = VScanned sd
  | TScannedDocumentOrNull => v = VNull ∨ ∃ sd, v = VScanned sd
  | TDocument => ∃ d, v = VDocument d
  | TArray => ∃ n, v = VArray n
  end.

Definition type_of (h : heap) (p : pid) : option ty := p_type <$> promises h !! p.

(** Every fulfilled promise holds a value of its type. *)
Definition typed (h : heap) : Prop :=
  ∀ p pr v, promises h !! p = Some pr → p_state pr = Fulfilled v →
            has_type (p_type pr) v.

(** [v] may be what [p] is fulfilled with / [p] may be fulfilled with [v]. *)
Definition may_yield (h : heap) (p : pid) (v : val) : Prop :=
  ∀ τ, type_of h p = Some τ → has_type τ v.

Definition may_take (h : heap) (p : pid) (v : val) : Prop :=
  ∃ τ, type_of h p = Some τ ∧ has_type τ v.

Section Logic.

(** [HI] holds of the heap whenever control is with the event loop; [R]
    relates the heap before and after every synchronous block. *)
Variable HI : heap → Prop.
Variable R : heap → heap → Prop.

Definition turn_post (h : heap) : heap → Prop := λ h', HI h' ∧ R h h'.

(** [wp t tgt h Q]: run from the heap [h] as the body of the async function
    whose promise is [tgt], [t] reaches its first suspension (or its end) in
    a heap that satisfies [Q]; every block on the way keeps [R] and the
    typing of promises; a promise is only settled with a value of its type;
    neither [Impossible] nor [ShouldNotHappen] is reached; and whatever [t] leaves behind to run later
    does the same from any later heap that satisfies [HI], and ends its turn
    in [HI]. *)
Fixpoint wp (t : task) (tgt : pid) (h : heap) (Q : heap → Prop) {struct t} : Prop :=
  match t with
  | Ret v => may_take h tgt v ∧ Q (settle_heap tgt (Fulfilled v) h)
  | RetP p => (∀ v, may_yield h p v → may_take h tgt v) ∧ Q h
  | Throw e => Q (settle_heap tgt (Rejected e) h)
  | Sync f =>
      match f h with
      | SRes h' t' => R h h' ∧ (typed h → typed h') ∧ wp t' tgt h' Q
      end
  | Await p kok kerr =>
      Q h ∧
      (∀ v h', may_yield h p v → R h h' → HI h' → wp (kok v) tgt h' (turn_post h')) ∧
      (∀ e h', R h h' → HI h' → wp (kerr e) tgt h' (turn_post h'))
  | Async τ body k =>
      let p := length (promises h) in
      wp body p (alloc_heap τ h) (λ h1, wp (k p) tgt h1 Q)
  | Then p cbok cberr k =>
      let d := length (promises h) in
      let h1 := alloc_heap TAny h in
      (∀ v h', may_yield h1 p v → R h1 h' → HI h' → wp (cbok v) d h' (turn_post h')) ∧
      (∀ e h', R h1 h' → HI h' → wp (cberr e) d h' (turn_post h')) ∧
      wp k tgt h1 Q
  | Resolve p v k => may_take h p v ∧ wp k tgt (settle_heap p (Fulfilled v) h) Q
  | Reject p e k => wp k tgt (settle_heap p (Rejected e) h) Q
  | LoaderLoad l url k =>
      let p := length (promises h) in
      wp (k p) tgt (set_loaderCalls (λ ls, ls ++ [url]) (alloc_heap TString h)) Q
  | Stuck => Q h
  | Impossible => False
  | ShouldNotHappen _ => False
  end.

(** A task that may start a turn at any heap later than [h]. *)
Definition good_task (h : heap) (t : task) (tgt : pid) : Prop :=
  ∀ h', R h h' → HI h' → wp t tgt h' (turn_post h').

Definition good_job (h : heap) (j : job) : Prop :=
  good_task h (j_task j) (j_target j).

Definition good_reaction (h : heap) (pr : pid * reaction) : Prop :=
  (∀ v, may_yield h pr.1 v → good_task h (on_ok pr.2 v) (r_target pr.2)) ∧
  (∀ e, good_task h (on_err pr.2 e) (r_target pr.2)).

Definition good_io (h : heap) (r : io_request) : Prop :=
  type_of h (io_promise r) = Some TString.

(** The invariant of the event loop. *)
Record sched_inv (s : sched) : Prop := {
  inv_failed : s_failed s = false;
  inv_heap : HI (s_heap s);
  inv_typed : typed (s_heap s);
  inv_queue : Forall (good_job (s_heap s)) (s_queue s);
  inv_reactions : Forall (good_reaction (s_heap s)) (s_reactions s);
  inv_io : Forall (good_io (s_heap s)) (s_io s)
}.

End Logic.

(** ** The invariant of the analyzer's heap *)

(** The promises kept in the cache have the types the maps are declared
    with. *)
Definition cache_typed (h : heap) (c : AnalysisCache) : Prop :=
  (∀ u p, parsedDocumentPromises c !! u = Some p → type_of h p = Some TParsedDocument) ∧
  (∀ u p, scannedDocumentPromises c !! u = Some p → type_of h p = Some TScannedDocument) ∧
  (∀ u p, dependenciesScanned c !! u = Some p → type_of h p = Some TVoid) ∧
  (∀ u p, analyzedDocumentPromises c !! u = Some p → type_of h p = Some TDocument).

(** The document [d], the [i]-th ever constructed, is the entry for its
    URL in the [analyzedDocuments] of the context that constructed it. *)
Definition registered (h : heap) (i : docid) (d : Document) : Prop :=
  ∃ c sd, contexts h !! doc_analyzer d = Some c ∧
          scannedDocs h !! doc_base d = Some sd ∧
          analyzedDocuments (_cache c) !! sd_url sd = Some i.

Definition heap_inv (h : heap) : Prop :=
  (∀ i c, contexts h !! i = Some c → cache_typed h (_cache c)) ∧
  (∀ i d, documents h !! i = Some d → registered h i d).

Definition same_settings (c c' : AnalyzerCacheContext) : Prop :=
  _parsers c' = _parsers c ∧ _lazyEdges c' = _lazyEdges c ∧
  _scanners c' = _scanners c ∧ _loader c' = _loader c ∧
  _resolver c' = _resolver c ∧ _generation c' = _generation c.

(** What no step of the analyzer undoes: the type of a promise and the
    state of a settled one; a context, its settings, and the entries of its
    [analyzedDocumentPromises], [analyzedDocuments] and [scannedDocuments];
    a scanned document; the scanned document and the context of a
    document. *)
Definition heap_step (h h' : heap) : Prop :=
  (∀ p τ, type_of h p = Some τ → type_of h' p = Some τ) ∧
  (∀ p st, state_of h p = Some st → st ≠ Pending → state_of h' p = Some st) ∧
  (∀ i c, contexts h !! i = Some c →
     ∃ c', contexts h' !! i = Some c' ∧ same_settings c c' ∧
           analyzedDocumentPromises (_cache c) ⊆ analyzedDocumentPromises (_cache c') ∧
           analyzedDocuments (_cache c) ⊆ analyzedDocuments (_cache c') ∧
           scannedDocuments (_cache c) ⊆ scannedDocuments (_cache c')) ∧
  (∀ i sd, scannedDocs h !! i = Some sd → scannedDocs h' !! i = Some sd) ∧
  (∀ i d, documents h !! i = Some d →
     ∃ d', documents h' !! i = Some d' ∧ doc_base d' = doc_base d ∧
           doc_analyzer d' = doc_analyzer d).

Section Runs.

Variable parse : Parser → string → string → option InlineDocInfo → ParsedDocument + exn.
Variable scan : ParsedDocument → list Scanner → list ScannedFeature + exn.
Variable extname : string → string.

(** What can happen to a running analyzer: a turn of the event loop, or a
    call of one of its methods ([_getDocument] is the entry point of
    plugins and of [Document.resolve]). *)
Inductive transition : sched → sched → Prop :=
| turn s s' :
    step s = Some s' → transition s s'
| call_analyze fuel url contents s :
    transition s (call TDocument (Analyzer_analyze parse scan extname fuel url contents) s).2
| call_clearCaches s :
    transition s (with_heap (Analyzer_clearCaches (s_heap s)).1 s)
| call_load url contents s :
    transition s (call TString (Analyzer_load url contents) s).2
| call_getDocument fuel this url s :
    transition s (with_heap (_getDocument fuel this url (s_heap s)).1 s).

Definition reachable_from (s s' : sched) : Prop := rtc transition s s'.

Definition reachable (s : sched) : Prop :=
  ∃ options, reachable_from (initial_sched (Analyzer_new options)) s.

End Runs.

(** ** Proof rules: what a block of synchronous code has to keep *)

Scheme task_sres_ind := Induction for task Sort Prop
  with sres_task_ind := Induction for sres Sort Prop.

(** What a step of the event loop relies on besides the heap: the queued
    jobs, the registered reactions and the pending loads keep the invariant. *)
Definition ok_rest (HI : heap → Prop) (R : heap → heap → Prop) (h : heap) (s : sched) : Prop :=
  Forall (good_job HI R h) (s_queue s) ∧ Forall (good_reaction HI R h) (s_reactions s) ∧
  Forall (good_io h) (s_io s).

(** Heaps that agree on everything but the promise table and the log of
    loads. *)
Definition same_objects (h h' : heap) : Prop :=
  contexts h' = contexts h ∧ scannedDocs h' = scannedDocs h ∧ documents h' = documents h.

(** A block that leaves the contexts, the scanned documents, the documents
    and the promises alone. *)
Definition same_core (h h' : heap) : Prop :=
  contexts h' = contexts h ∧ scannedDocs h' = scannedDocs h ∧
  documents h' = documents h ∧ promises h' = promises h.

(** The obligations of one block of the logic. *)
Definition block (h h' : heap) : Prop :=
  heap_step h h' ∧ (typed h → typed h') ∧ (heap_inv h → heap_inv h') ∧
  (∀ p τ, type_of h p = Some τ → type_of h' p = Some τ).

Abbreviation WP := (wp heap_inv heap_step).
Abbreviation INV := (sched_inv heap_inv heap_step).

(** [Q] holds of every later heap that satisfies the invariant. *)
Definition frame (h : heap) (Q : heap → Prop) : Prop :=
  ∀ h1, heap_step h h1 → heap_inv h1 → Q h1.

(** The situation of a function body about to run: the invariant holds, its
    promise [tgt] has the type [τ], and [Q] is what it has to reach. *)
Definition ready (h : heap) (tgt : pid) (τ : ty) (Q : heap → Prop) : Prop :=
  heap_inv h ∧ type_of h tgt = Some τ ∧ frame h Q.

(** Started at any such point, as the body of an async function of result
    type [τ], [t] keeps the invariant. *)
Definition spec (t : task) (τ : ty) : Prop :=
  ∀ tgt h Q, ready h tgt τ Q → WP t tgt h Q.

Abbreviation TURN := (turn_post heap_inv heap_step).

(** The new document and its entry in [analyzedDocuments], under a URL
    that has none. *)
Definition register_document (this : ctxid) (sd : sdid) (u : string) (h : heap) : heap :=
  set_contexts (alter (set_cache (set_analyzedDocuments <[u := length (documents h)]>)) this)
    (set_documents (λ l, l ++ [ {| doc_base := sd; doc_analyzer := this;
                                   doc_begunResolving := false;
                                   doc_doneResolving := false |} ]) h).

(** The runs of the project of [Fixture]. *)
Abbreviation Freachable := (reachable Fixture.parse Fixture.scan Fixture.extname).
Abbreviation Freachable_from := (reachable_from Fixture.parse Fixture.scan Fixture.extname).

Ltac split5 := split; [|split; [|split; [|split]]].

(** The scan functions of the project of [Fixture]. *)
Abbreviation Fscan := (_scan Fixture.parse Fixture.scan Fixture.extname Fixture.fuel).
Abbreviation Fdeps := (_scanDependencies Fixture.parse Fixture.scan Fixture.extname Fixture.fuel).

(** Reduces what the event loop does to a record of the scheduler. *)
Ltac sched_simpl :=
  cbn [s_heap with_heap with_io with_queue with_reactions s_queue s_reactions s_io
       s_clock s_failed app failed enqueue fst snd j_task j_target io_promise io_deadline
       io_result on_ok on_err r_target reaction_job flat_map].

(** * Verification *)

Lemma with_heap_same s : with_heap (s_heap s) s = s.
Proof. destruct s; reflexivity. Qed.

Lemma type_of_alloc_heap τ h p τ' :
  type_of h p = Some τ' → type_of (alloc_heap τ h) p = Some τ'.
Proof.
  unfold type_of, alloc_heap. simpl. intros H.
  destruct (promises h !! p) as [pr|] eqn:E; [|done].
  by rewrite (lookup_app_l_Some _ _ _ _ E).
Qed.

Lemma type_of_alloc_heap_new τ h :
  type_of (alloc_heap τ h) (length (promises h)) = Some τ.
Proof.
  unfold type_of, alloc_heap. simpl.
  rewrite lookup_app_r by lia. by rewrite Nat.sub_diag.
Qed.

Lemma type_of_settle_heap p st h q :
  type_of (settle_heap p st h) q = type_of h q.
Proof.
  unfold settle_heap, state_of, type_of.
  destruct (promises h !! p) as [pr|] eqn:E; simpl; [|done].
  destruct (p_state pr); try done. simpl.
  destruct (decide (p = q)) as [->|Hne].
  - rewrite list_lookup_alter_eq, E. reflexivity.
  - by rewrite list_lookup_alter_ne.
Qed.

Lemma typed_alloc_heap τ h : typed h → typed (alloc_heap τ h).
Proof.
  intros Ht p pr v Hp Hs. unfold alloc_heap in Hp. simpl in Hp.
  apply lookup_app_Some in Hp as [Hp|[_ Hp]]; [by eapply Ht|].
  apply list_lookup_singleton_Some in Hp as [_ <-]. done.
Qed.

Lemma typed_settle_fulfilled p v h :
  typed h → may_take h p v → typed (settle_heap p (Fulfilled v) h).
Proof.
  intros Ht [τ [Hτ Hv]] q pr w Hq Hs. unfold settle_heap, state_of in Hq.
  unfold type_of in Hτ.
  destruct (promises h !! p) as [pp|] eqn:E; simpl in *; [|by eapply Ht].
  destruct (p_state pp) eqn:Es; try by eapply Ht.
  simpl in Hq. destruct (decide (p = q)) as [->|Hne].
  - rewrite list_lookup_alter_eq, E in Hq. simpl in Hq. inversion Hq; subst.
    simpl in *. inversion Hs; subst. by inversion Hτ; subst.
  - rewrite list_lookup_alter_ne in Hq by done. by eapply Ht.
Qed.

Lemma typed_settle_rejected p e h :
  typed h → typed (settle_heap p (Rejected e) h).
Proof.
  intros Ht q pr w Hq Hs. unfold settle_heap, state_of in Hq.
  destruct (promises h !! p) as [pp|] eqn:E; simpl in *; [|by eapply Ht].
  destruct (p_state pp) eqn:Es; try by eapply Ht.
  simpl in Hq. destruct (decide (p = q)) as [->|Hne].
  - rewrite list_lookup_alter_eq, E in Hq. simpl in Hq. inversion Hq; subst.
    simpl in *. done.
  - rewrite list_lookup_alter_ne in Hq by done. by eapply Ht.
Qed.

Lemma Forall_filter_keep {A} (P : A → Prop) (Q : A → Prop) `{∀ x, Decision (Q x)} l :
  Forall P l → Forall P (filter Q l).
Proof.
  rewrite !Forall_forall. intros H' x Hx. apply list_elem_of_filter in Hx as [_ Hx]. auto.
Qed.


Section Soundness.

Variable HI : heap → Prop.
Variable R : heap → heap → Prop.
Hypothesis R_refl : ∀ h, R h h.
Hypothesis R_trans : ∀ h1 h2 h3, R h1 h2 → R h2 h3 → R h1 h3.
Hypothesis R_types : ∀ h h' p τ, R h h' → type_of h p = Some τ → type_of h' p = Some τ.
Hypothesis R_alloc : ∀ τ h, R h (alloc_heap τ h).
Hypothesis R_settle : ∀ p st h, R h (settle_heap p st h).
Hypothesis R_log : ∀ f h, R h (set_loaderCalls f h).
Hypothesis HI_settle : ∀ p st h, HI h → HI (settle_heap p st h).

Local Abbreviation wp := (wp HI R).
Local Abbreviation good_task := (good_task HI R).
Local Abbreviation good_job := (good_job HI R).
Local Abbreviation good_reaction := (good_reaction HI R).
Local Abbreviation ok_rest := (ok_rest HI R).


Lemma good_task_mono h h' t tgt : R h h' → good_task h t tgt → good_task h' t tgt.
Proof. intros HR Hg h'' HR' HI'. apply Hg; eauto. Qed.

Lemma may_yield_mono h h' p v : R h h' → may_yield h' p v → may_yield h p v.
Proof. intros HR Hy τ Hτ. apply Hy. eauto. Qed.

Lemma may_take_mono h h' p v : R h h' → may_take h p v → may_take h' p v.
Proof. intros HR [τ [Hτ Hv]]. exists τ. eauto. Qed.

Lemma may_take_yield h p v : may_take h p v → may_yield h p v.
Proof. intros [τ [Hτ Hv]] τ' Hτ'. congruence. Qed.

Lemma good_reaction_mono h h' pr : R h h' → good_reaction h pr → good_reaction h' pr.
Proof.
  intros HR [Hok Herr]. split.
  - intros v Hv. eapply good_task_mono; eauto. apply Hok. by eapply may_yield_mono.
  - intros e. eapply good_task_mono; eauto.
Qed.

Lemma good_io_mono h h' r : R h h' → good_io h r → good_io h' r.
Proof. unfold good_io. eauto. Qed.

Lemma ok_rest_mono h h' s s' :
  R h h' → s_queue s' = s_queue s → s_reactions s' = s_reactions s → s_io s' = s_io s →
  ok_rest h s → ok_rest h' s'.
Proof.
  intros HR Hq Hr Hio (Hj & Hrx & Hi). unfold ok_rest. rewrite Hq, Hr, Hio.
  repeat split.
  - eapply Forall_impl; [exact Hj|]. intros j. intros Hg. by eapply good_task_mono.
  - eapply Forall_impl; [exact Hrx|]. intros r. by apply good_reaction_mono.
  - eapply Forall_impl; [exact Hi|]. intros r. by apply good_io_mono.
Qed.

Lemma settle_heap_eq p st s : s_heap (settle p st s) = settle_heap p st (s_heap s).
Proof.
  unfold settle, settle_heap. destruct (state_of (s_heap s) p) as [[]|]; reflexivity.
Qed.

Lemma good_reaction_jobs h p st rs :
  Forall (good_reaction h) rs →
  match st with Fulfilled v => may_yield h p v | _ => True end →
  Forall (good_job h) (flat_map (λ pr, reaction_job st pr.2) (filter (λ pr, pr.1 = p) rs)).
Proof.
  intros Hrs Hst. induction Hrs as [|[q r] rs Hr Hrs IH]; [constructor|].
  rewrite filter_cons. simpl. destruct (decide (q = p)) as [->|]; [|exact IH].
  simpl. destruct Hr as [Hok Herr]. simpl in *.
  destruct st; simpl; try exact IH.
  - constructor; [|exact IH]. apply Hok. done.
  - constructor; [|exact IH]. apply Herr.
Qed.

Lemma settle_sound p st s :
  match st with Fulfilled v => may_take (s_heap s) p v | _ => True end →
  ok_rest (s_heap s) s → ok_rest (s_heap (settle p st s)) (settle p st s).
Proof.
  intros Hst (Hj & Hrx & Hi).
  assert (HR : R (s_heap s) (s_heap (settle p st s))).
  { rewrite settle_heap_eq. apply R_settle. }
  revert HR. unfold settle.
  destruct (state_of (s_heap s) p) as [[]|] eqn:E; intros HR; try by repeat split.
  simpl in *. repeat split; simpl.
  - apply Forall_app. split.
    + eapply Forall_impl; [exact Hj|]. intros j. by apply good_task_mono.
    + eapply Forall_impl.
      * apply (good_reaction_jobs (s_heap s) p st); [done|].
        destruct st; try done. by apply may_take_yield.
      * intros j. by apply good_task_mono.
  - apply Forall_filter_keep. eapply Forall_impl; [exact Hrx|]. intros r. by apply good_reaction_mono.
  - eapply Forall_impl; [exact Hi|]. intros r. by apply good_io_mono.
Qed.

Lemma subscribe_heap p r s : s_heap (subscribe p r s) = s_heap s.
Proof. unfold subscribe. destruct (state_of (s_heap s) p) as [[]|]; reflexivity. Qed.

Lemma subscribe_sound p r s :
  typed (s_heap s) → good_reaction (s_heap s) (p, r) →
  ok_rest (s_heap s) s → ok_rest (s_heap s) (subscribe p r s).
Proof.
  intros Ht [Hok Herr] (Hj & Hrx & Hi). unfold subscribe.
  destruct (state_of (s_heap s) p) as [st|] eqn:E; [|by repeat split].
  unfold state_of in E. destruct (promises (s_heap s) !! p) as [pr|] eqn:Ep; [|done].
  simpl in E. inversion E; subst.
  destruct (p_state pr) eqn:Es; repeat split; simpl; try done.
  - apply Forall_app. split; [done|]. constructor; [|constructor]. split; done.
  - apply Forall_app. split; [done|]. constructor; [|constructor].
    apply Hok. intros τ Hτ. simpl in Hτ. unfold type_of in Hτ. rewrite Ep in Hτ. inversion Hτ; subst.
    by eapply Ht.
  - apply Forall_app. split; [done|]. constructor; [|constructor]. apply Herr.
Qed.

Lemma settle_failed p st s : s_failed (settle p st s) = s_failed s.
Proof. unfold settle. by destruct (state_of (s_heap s) p) as [[]|]. Qed.

Lemma subscribe_failed p r s : s_failed (subscribe p r s) = s_failed s.
Proof. unfold subscribe. by destruct (state_of (s_heap s) p) as [[]|]. Qed.

Lemma exec_sound t :
  ∀ tgt s Q,
    wp t tgt (s_heap s) Q → typed (s_heap s) → ok_rest (s_heap s) s →
    Q (s_heap (exec t tgt s)) ∧ R (s_heap s) (s_heap (exec t tgt s)) ∧
    typed (s_heap (exec t tgt s)) ∧ ok_rest (s_heap (exec t tgt s)) (exec t tgt s) ∧
    s_failed (exec t tgt s) = s_failed s.
Proof.
  induction t using task_sres_ind with
    (P0 := λ r, match r with SRes h t => ∀ tgt s Q,
      wp t tgt (s_heap s) Q → typed (s_heap s) → ok_rest (s_heap s) s →
      Q (s_heap (exec t tgt s)) ∧ R (s_heap s) (s_heap (exec t tgt s)) ∧
      typed (s_heap (exec t tgt s)) ∧ ok_rest (s_heap (exec t tgt s)) (exec t tgt s) ∧
      s_failed (exec t tgt s) = s_failed s end);
    intros tgt s Q Hwp Ht Hok; simpl in *.
  - (* Ret *) destruct Hwp as [Hv HQ]. rewrite settle_heap_eq. split5.
    + done.
    + apply R_settle.
    + by apply typed_settle_fulfilled.
    + rewrite <- settle_heap_eq. by apply (settle_sound _ (Fulfilled v)).
    + apply settle_failed.
  - (* RetP *) destruct Hwp as [Hv HQ]. split5; try done.
    destruct Hok as (Hj & Hrx & Hi). split; [|done].
    simpl. apply Forall_app. split; [done|]. constructor; [|constructor].
    intros h' HR HI'. simpl. split; [split; [done|apply R_refl]|]. split.
    + intros v h'' Hy HR' HI''. simpl. split.
      * eapply may_take_mono; [|apply Hv].
        -- eapply R_trans; eauto.
        -- eapply may_yield_mono; eauto.
      * split; [by apply HI_settle|apply R_settle].
    + intros e h'' HR' HI''. split; [by apply HI_settle|apply R_settle].
  - (* Throw *) rewrite settle_heap_eq. split5.
    + done.
    + apply R_settle.
    + by apply typed_settle_rejected.
    + rewrite <- settle_heap_eq. by apply (settle_sound _ (Rejected e)).
    + apply settle_failed.
  - (* Sync *) specialize (H (s_heap s)). destruct (f (s_heap s)) as [h' t'].
    destruct Hwp as (HR & Hty & Hwp).
    destruct (H tgt (with_heap h' s) Q) as (HQ & HR' & Ht' & Hok' & Hf); simpl; try done.
    + by apply Hty.
    + eapply ok_rest_mono; [exact HR| | | |exact Hok]; done.
    + split5; try done. eapply R_trans; eauto.
  - (* Await *) destruct Hwp as (HQ & Hk & He). rewrite subscribe_heap. split5; try done.
    + apply subscribe_sound; try done. split; simpl.
      * intros v' Hv' h' HR HI'. by apply Hk.
      * intros e' h' HR HI'. by apply He.
    + apply subscribe_failed.
  - (* Async *) unfold fresh.
    destruct (IHt (length (promises (s_heap s))) (alloc τ s) _ Hwp)
      as (Hk & HR1 & Ht1 & Hok1 & Hf1); simpl.
    + by apply typed_alloc_heap.
    + eapply ok_rest_mono; [apply (R_alloc τ)| | | |exact Hok]; done.
    + destruct (H _ tgt _ Q Hk Ht1 Hok1) as (HQ & HR2 & Ht2 & Hok2 & Hf2).
      split5; try done.
      * eapply R_trans; [apply (R_alloc τ)|]. eapply R_trans; eauto.
      * by rewrite Hf2, Hf1.
  - (* Then *) destruct Hwp as (Hk & He & Hwp). unfold fresh.
    set (r := {| on_ok := cbok; on_err := cberr; r_target := length (promises (s_heap s)) |}).
    assert (Hok1 : ok_rest (s_heap (alloc TAny s)) (alloc TAny s)).
    { eapply ok_rest_mono; [apply (R_alloc TAny)| | | |exact Hok]; done. }
    assert (Ht1 : typed (s_heap (alloc TAny s))) by by apply typed_alloc_heap.
    assert (Hr : good_reaction (s_heap (alloc TAny s)) (p, r)).
    { split; simpl.
      - intros v' Hv' h' HR HI'. by apply Hk.
      - intros e' h' HR HI'. by apply He. }
    pose proof (subscribe_sound p r _ Ht1 Hr Hok1) as Hok2.
    destruct (IHt tgt (subscribe p r (alloc TAny s)) Q) as (HQ & HR2 & Ht2 & Hok3 & Hf).
    + by rewrite subscribe_heap.
    + by rewrite subscribe_heap.
    + by rewrite subscribe_heap.
    + rewrite subscribe_heap in HR2. split5; try done.
      * eapply R_trans; [apply (R_alloc TAny)|]. done.
      * by rewrite Hf, subscribe_failed.
  - (* Resolve *) destruct Hwp as [Hv Hwp].
    destruct (IHt tgt (settle p (Fulfilled v) s) Q) as (HQ & HR2 & Ht2 & Hok2 & Hf).
    + by rewrite settle_heap_eq.
    + rewrite settle_heap_eq. by apply typed_settle_fulfilled.
    + by apply (settle_sound _ (Fulfilled v)).
    + split5; try done.
      * eapply R_trans; [|exact HR2]. rewrite settle_heap_eq. apply R_settle.
      * by rewrite Hf, settle_failed.
  - (* Reject *)
    destruct (IHt tgt (settle p (Rejected e) s) Q) as (HQ & HR2 & Ht2 & Hok2 & Hf).
    + by rewrite settle_heap_eq.
    + rewrite settle_heap_eq. by apply typed_settle_rejected.
    + by apply (settle_sound _ (Rejected e)).
    + split5; try done.
      * eapply R_trans; [|exact HR2]. rewrite settle_heap_eq. apply R_settle.
      * by rewrite Hf, settle_failed.
  - (* LoaderLoad *) unfold fresh.
    match goal with |- context [exec _ _ ?s1] => set (s1' := s1) end.
    assert (HR1 : R (s_heap s) (s_heap s1')).
    { simpl. eapply R_trans; [apply (R_alloc TString)|apply R_log]. }
    destruct (H (length (promises (s_heap s))) tgt s1' Q) as (HQ & HR2 & Ht2 & Hok2 & Hf).
    + exact Hwp.
    + simpl. intros q pr v Hq Hs. simpl in Hq. by eapply (typed_alloc_heap TString _ Ht).
    + destruct Hok as (Hj & Hrx & Hi). split; [|split]; simpl.
      * eapply Forall_impl; [exact Hj|]. intros j. by apply good_task_mono.
      * eapply Forall_impl; [exact Hrx|]. intros r. by apply good_reaction_mono.
      * apply Forall_app. split.
        -- eapply Forall_impl; [exact Hi|]. intros r. by apply good_io_mono.
        -- constructor; [|constructor]. unfold good_io. simpl.
           apply (R_types _ _ _ _ (R_log _ _)). apply type_of_alloc_heap_new.
    + split5; try done. eapply R_trans; eauto.
  - (* Stuck *) split5; try done.
  - (* Impossible *) done.
  - (* ShouldNotHappen *) done.
  - (* SRes *) by apply IHt.
Qed.

End Soundness.

(** * The step relation is a preorder that the event loop respects *)

Lemma same_settings_refl c : same_settings c c.
Proof. by repeat split. Qed.

Lemma same_settings_trans c1 c2 c3 :
  same_settings c1 c2 → same_settings c2 c3 → same_settings c1 c3.
Proof.
  intros (?&?&?&?&?&?) (?&?&?&?&?&?). repeat split; congruence.
Qed.

Lemma heap_step_refl h : heap_step h h.
Proof.
  split; [done|]. split; [done|]. split; [|split; [done|]].
  - intros i c Hc. exists c. split; [done|]. split; [apply same_settings_refl|done].
  - intros i d Hd. by exists d.
Qed.

Lemma heap_step_trans h1 h2 h3 : heap_step h1 h2 → heap_step h2 h3 → heap_step h1 h3.
Proof.
  intros (T1 & S1 & C1 & D1 & O1) (T2 & S2 & C2 & D2 & O2).
  split; [eauto|]. split; [eauto|]. split; [|split; [eauto|]].
  - intros i c Hc. destruct (C1 _ _ Hc) as (c' & Hc' & Hs & Ha & Hd & Hsd).
    destruct (C2 _ _ Hc') as (c'' & Hc'' & Hs' & Ha' & Hd' & Hsd').
    exists c''. split; [done|]. split; [by eapply same_settings_trans|].
    repeat split; etrans; eauto.
  - intros i d Hd. destruct (O1 _ _ Hd) as (d' & Hd' & Hb & Ha).
    destruct (O2 _ _ Hd') as (d'' & Hd'' & Hb' & Ha').
    exists d''. repeat split; congruence.
Qed.


Lemma heap_step_promises h h' :
  same_objects h h' →
  (∀ p τ, type_of h p = Some τ → type_of h' p = Some τ) →
  (∀ p st, state_of h p = Some st → st ≠ Pending → state_of h' p = Some st) →
  heap_step h h'.
Proof.
  intros (Hc & Hs & Hd) HT HS.
  split; [eauto|]. split; [eauto|]. split; [|split].
  - intros i c Hi. exists c. rewrite Hc. split; [done|]. split; [apply same_settings_refl|done].
  - by rewrite Hs.
  - intros i d Hi. exists d. by rewrite Hd.
Qed.

Lemma state_of_alloc_heap τ h p st :
  state_of h p = Some st → state_of (alloc_heap τ h) p = Some st.
Proof.
  unfold state_of, alloc_heap. simpl. intros H.
  destruct (promises h !! p) as [pr|] eqn:E; [|done].
  by rewrite (lookup_app_l_Some _ _ _ _ E).
Qed.

Lemma heap_step_alloc τ h : heap_step h (alloc_heap τ h).
Proof.
  apply heap_step_promises; [done|..].
  - intros. by apply type_of_alloc_heap.
  - intros. by apply state_of_alloc_heap.
Qed.

Lemma state_of_settle_heap p st h q st' :
  state_of h q = Some st' → st' ≠ Pending → state_of (settle_heap p st h) q = Some st'.
Proof.
  unfold settle_heap. destruct (state_of h p) as [[]|] eqn:E; try done.
  intros Hq Hne. unfold state_of in *. simpl.
  destruct (decide (p = q)) as [->|Hpq].
  - rewrite Hq in E. congruence.
  - by rewrite list_lookup_alter_ne.
Qed.

Lemma same_objects_settle p st h : same_objects h (settle_heap p st h).
Proof. unfold settle_heap. by destruct (state_of h p) as [[]|]. Qed.

Lemma heap_step_settle p st h : heap_step h (settle_heap p st h).
Proof.
  apply heap_step_promises; [apply same_objects_settle|..].
  - intros. by rewrite type_of_settle_heap.
  - intros. by apply state_of_settle_heap.
Qed.

Lemma heap_step_log f h : heap_step h (set_loaderCalls f h).
Proof. by apply heap_step_promises. Qed.

Lemma heap_step_types h h' p τ : heap_step h h' → type_of h p = Some τ → type_of h' p = Some τ.
Proof. intros (T & _). apply T. Qed.

Lemma cache_typed_mono h h' c :
  (∀ p τ, type_of h p = Some τ → type_of h' p = Some τ) →
  cache_typed h c → cache_typed h' c.
Proof. intros HT (P & S & D & A). repeat split; eauto. Qed.

Lemma heap_inv_promises h h' :
  same_objects h h' →
  (∀ p τ, type_of h p = Some τ → type_of h' p = Some τ) →
  heap_inv h → heap_inv h'.
Proof.
  intros (Hc & Hs & Hd) HT [HC HD]. split.
  - intros i c Hi. rewrite Hc in Hi. eapply cache_typed_mono; eauto.
  - intros i d Hi. rewrite Hd in Hi. destruct (HD _ _ Hi) as (c & sd & H1 & H2 & H3).
    exists c, sd. by rewrite Hc, Hs.
Qed.

Lemma heap_inv_settle p st h : heap_inv h → heap_inv (settle_heap p st h).
Proof.
  apply heap_inv_promises; [apply same_objects_settle|].
  intros. by rewrite type_of_settle_heap.
Qed.

Lemma heap_inv_alloc τ h : heap_inv h → heap_inv (alloc_heap τ h).
Proof. apply heap_inv_promises; [done|]. intros. by apply type_of_alloc_heap. Qed.

(** * Soundness of a turn *)


Lemma exec_turn t tgt s Q :
  WP t tgt (s_heap s) Q → typed (s_heap s) → ok_rest heap_inv heap_step (s_heap s) s →
  Q (s_heap (exec t tgt s)) ∧ heap_step (s_heap s) (s_heap (exec t tgt s)) ∧
  typed (s_heap (exec t tgt s)) ∧
  ok_rest heap_inv heap_step (s_heap (exec t tgt s)) (exec t tgt s) ∧
  s_failed (exec t tgt s) = s_failed s.
Proof.
  apply exec_sound.
  - apply heap_step_refl.
  - apply heap_step_trans.
  - intros. by eapply heap_step_types.
  - apply heap_step_alloc.
  - apply heap_step_settle.
  - apply heap_step_log.
  - apply heap_inv_settle.
Qed.

Lemma earliest_elem rs r : earliest rs = Some r → r ∈ rs.
Proof.
  revert r. induction rs as [|r' rs IH]; [done|]. simpl. intros r.
  destruct (earliest rs) as [r''|].
  - destruct (decide _); intros [= <-]; [right; by apply IH | left].
  - intros [= <-]. left.
Qed.

Lemma step_inv s s' :
  INV s → step s = Some s' → INV s' ∧ heap_step (s_heap s) (s_heap s').
Proof.
  intros [Hfl HI Ht Hq Hr Hio]. unfold step.
  destruct (s_queue s) as [|j q] eqn:Eq.
  - destruct (earliest (s_io s)) as [r|] eqn:Er; [|done]. intros [= <-].
    apply earliest_elem in Er.
    assert (Hg : good_io (s_heap s) r) by (eapply Forall_forall in Hio; eauto).
    set (s1 := with_io _ _ s).
    assert (Hok : ok_rest heap_inv heap_step (s_heap s1) s1).
    { subst s1. simpl. repeat split; simpl; try done.
      - by rewrite Eq.
      - by apply Forall_filter_keep. }
    assert (Hst : match io_state r with
                  | Fulfilled v => may_take (s_heap s1) (io_promise r) v
                  | _ => True end).
    { unfold io_state. destruct (io_result r); [|done]. exists TString. split; [done|]. by eexists. }
    assert (ok_rest heap_inv heap_step (s_heap (settle (io_promise r) (io_state r) s1))
              (settle (io_promise r) (io_state r) s1)) as (Hq' & Hr' & Hio').
    { apply settle_sound; try done.
      - apply heap_step_trans.
      - intros. by eapply heap_step_types.
      - apply heap_step_settle. }
    split; [|rewrite settle_heap_eq; apply heap_step_settle].
    split; try done.
    + by rewrite settle_failed.
    + rewrite settle_heap_eq. by apply heap_inv_settle.
    + rewrite settle_heap_eq. destruct (io_state r) eqn:E.
      * unfold io_state in E. by destruct (io_result r).
      * by apply typed_settle_fulfilled.
      * by apply typed_settle_rejected.
  - intros [= <-]. inversion Hq as [|? ? Hj Hq']; subst.
    set (s1 := with_queue q s).
    assert (Hwp : WP (j_task j) (j_target j) (s_heap s1)
                    (turn_post heap_inv heap_step (s_heap s1))).
    { apply Hj; [apply heap_step_refl|done]. }
    assert (Hok : ok_rest heap_inv heap_step (s_heap s1) s1) by done.
    destruct (exec_turn _ _ s1 _ Hwp Ht Hok)
      as ([HI' HR] & _ & Ht' & (Hq'' & Hr'' & Hio'') & Hf).
    split; [|done]. split; try done. by rewrite Hf.
Qed.

(** * Blocks of synchronous code *)


Lemma same_core_refl h : same_core h h.
Proof. done. Qed.

Lemma same_core_type_of h h' p : same_core h h' → type_of h' p = type_of h p.
Proof. intros (_ & _ & _ & Hp). unfold type_of. by rewrite Hp. Qed.

Lemma same_core_step h h' : same_core h h' → heap_step h h'.
Proof.
  intros (Hc & Hs & Hd & Hp). apply heap_step_promises; [done|..].
  - intros p τ. unfold type_of. by rewrite Hp.
  - intros p st. unfold state_of. by rewrite Hp.
Qed.

Lemma same_core_typed h h' : same_core h h' → typed h → typed h'.
Proof. intros (_ & _ & _ & Hp) Ht p pr v. rewrite Hp. apply Ht. Qed.

Lemma same_core_inv h h' : same_core h h' → heap_inv h → heap_inv h'.
Proof.
  intros (Hc & Hs & Hd & Hp). apply heap_inv_promises; [done|].
  intros p τ. unfold type_of. by rewrite Hp.
Qed.


Lemma block_refl h : block h h.
Proof. split; [apply heap_step_refl|done]. Qed.

Lemma block_trans h1 h2 h3 : block h1 h2 → block h2 h3 → block h1 h3.
Proof.
  intros (S1 & T1 & I1 & P1) (S2 & T2 & I2 & P2).
  split; [by eapply heap_step_trans|]. split; [auto|]. split; auto.
Qed.

Lemma same_core_block h h' : same_core h h' → block h h'.
Proof.
  intros H. split; [by apply same_core_step|]. split; [by apply same_core_typed|].
  split; [by apply same_core_inv|]. intros p τ. by rewrite (same_core_type_of _ _ _ H).
Qed.

Lemma block_alloc τ h : block h (alloc_heap τ h).
Proof.
  split; [apply heap_step_alloc|]. split; [apply typed_alloc_heap|].
  split; [apply heap_inv_alloc|]. intros. by apply type_of_alloc_heap.
Qed.

Lemma block_settle_rejected p e h : block h (settle_heap p (Rejected e) h).
Proof.
  split; [apply heap_step_settle|]. split; [apply typed_settle_rejected|].
  split; [apply heap_inv_settle|]. intros. by rewrite type_of_settle_heap.
Qed.

(** [Promise.resolve(v)] at a type of [v]. *)
Lemma block_Promise_resolve τ v h :
  has_type τ v → block h (Promise_resolve τ v h).1.
Proof.
  intros Hv. simpl.
  assert (HT : ∀ p τ', type_of h p = Some τ' →
               type_of (set_promises (λ ps, ps ++ [ {| p_type := τ; p_state := Fulfilled v |} ]) h) p = Some τ').
  { intros p τ'. unfold type_of. simpl. intros H.
    destruct (promises h !! p) as [pr|] eqn:E; [|done].
    by rewrite (lookup_app_l_Some _ _ _ _ E). }
  split; [|split; [|split]]; try done.
  - apply heap_step_promises; [done|done|].
    intros p st. unfold state_of. simpl. intros H _.
    destruct (promises h !! p) as [pr|] eqn:E; [|done].
    by rewrite (lookup_app_l_Some _ _ _ _ E).
  - intros Ht p pr w Hp Hs. simpl in Hp.
    apply lookup_app_Some in Hp as [Hp|[_ Hp]]; [by eapply Ht|].
    apply list_lookup_singleton_Some in Hp as [_ <-]. simpl in *. by inversion Hs; subst.
  - by apply heap_inv_promises.
Qed.

Lemma type_of_Promise_resolve τ v h :
  type_of (Promise_resolve τ v h).1 (length (promises h)) = Some τ.
Proof.
  unfold type_of. simpl. rewrite lookup_app_r by lia. by rewrite Nat.sub_diag.
Qed.

Lemma block_new_promise τ h : block h (new_promise τ h).1.
Proof. apply block_alloc. Qed.

(** Adding a scanned document. *)
Lemma block_new_ScannedDocument d fs ws h : block h (new_ScannedDocument d fs ws h).1.
Proof.
  simpl. split; [|split; [done|split; [|done]]].
  - split; [done|]. split; [done|]. split; [|split].
    + intros i c Hc. exists c. split; [done|]. split; [apply same_settings_refl|done].
    + intros i sd Hi. simpl. by apply lookup_app_l_Some.
    + intros i x Hi. by exists x.
  - intros [HC HD]. split; [done|]. intros i x Hi. simpl in Hi.
    destruct (HD _ _ Hi) as (c & sd & H1 & H2 & H3). exists c, sd. simpl.
    split; [done|]. split; [by apply lookup_app_l_Some|done].
Qed.

(** Updating the cache of a context: the entries of the three write-once
    maps stay, and the promises put in the cache have the types of the
    maps. *)
Lemma block_update_cache this f h :
  (∀ c, contexts h !! this = Some c →
     analyzedDocumentPromises (_cache c) ⊆ analyzedDocumentPromises (f (_cache c)) ∧
     analyzedDocuments (_cache c) ⊆ analyzedDocuments (f (_cache c)) ∧
     scannedDocuments (_cache c) ⊆ scannedDocuments (f (_cache c)) ∧
     (cache_typed h (_cache c) → cache_typed h (f (_cache c)))) →
  block h (update_cache this f h).1.
Proof.
  intros Hf. simpl. split; [|split; [done|split; [|done]]].
  - split; [done|]. split; [done|]. split; [|split; [done|]].
    + intros i c Hc. simpl. destruct (decide (this = i)) as [->|Hne].
      * rewrite list_lookup_alter_eq, Hc. simpl. eexists. split; [done|].
        split; [by repeat split|]. destruct (Hf _ Hc) as (?&?&?&?). done.
      * rewrite list_lookup_alter_ne by done. exists c. split; [done|].
        split; [apply same_settings_refl|done].
    + intros i x Hi. by exists x.
  - intros [HC HD]. split.
    + intros i c Hc. simpl in Hc. destruct (decide (this = i)) as [->|Hne].
      * rewrite list_lookup_alter_eq in Hc.
        destruct (contexts h !! i) as [c0|] eqn:E; [|done]. simpl in Hc.
        inversion Hc; subst. simpl. destruct (Hf _ eq_refl) as (_&_&_&Ht). apply Ht. by eapply HC.
      * rewrite list_lookup_alter_ne in Hc by done. by eapply HC.
    + intros i x Hi. simpl in Hi. destruct (HD _ _ Hi) as (c & sd & H1 & H2 & H3).
      simpl. destruct (decide (this = doc_analyzer x)) as [->|Hne].
      * exists (set_cache f c), sd. simpl. rewrite list_lookup_alter_eq, H1. simpl.
        split; [done|]. split; [done|]. destruct (Hf _ H1) as (_&Hd&_).
        eapply lookup_weaken; eauto.
      * exists c, sd. simpl. by rewrite list_lookup_alter_ne.
Qed.

(** * Rules of the logic *)


Lemma frame_turn h : frame h (TURN h).
Proof. intros h1 Hs Hi. by split. Qed.

Lemma ready_step h h' tgt τ Q :
  ready h tgt τ Q → heap_step h h' → heap_inv h' → ready h' tgt τ Q.
Proof.
  intros (Hi & Ht & HQ) Hs Hi'. split; [done|]. split; [by eapply heap_step_types|].
  intros h1 Hs1 Hi1. apply HQ; [by eapply heap_step_trans|done].
Qed.

Lemma ready_turn h h' tgt τ Q :
  ready h tgt τ Q → heap_step h h' → heap_inv h' → ready h' tgt τ (TURN h').
Proof.
  intros (Hi & Ht & HQ) Hs Hi'. split; [done|]. split; [by eapply heap_step_types|].
  apply frame_turn.
Qed.

Lemma ready_block h h' tgt τ Q : ready h tgt τ Q → block h h' → ready h' tgt τ Q.
Proof. intros Hr (Hs & _ & Hi & _). eapply ready_step; eauto. apply Hi, Hr. Qed.

Lemma ready_here h tgt τ Q : ready h tgt τ Q → Q h.
Proof. intros (Hi & _ & HQ). apply HQ; [apply heap_step_refl|done]. Qed.

Lemma wp_ret v τ tgt h Q : ready h tgt τ Q → has_type τ v → WP (Ret v) tgt h Q.
Proof.
  intros (Hi & Ht & HQ) Hv. simpl. split; [by exists τ|].
  apply HQ; [apply heap_step_settle|by apply heap_inv_settle].
Qed.

Lemma wp_throw e τ tgt h Q : ready h tgt τ Q → WP (Throw e) tgt h Q.
Proof.
  intros (Hi & Ht & HQ). simpl. apply HQ; [apply heap_step_settle|by apply heap_inv_settle].
Qed.

Lemma wp_stuck τ tgt h Q : ready h tgt τ Q → WP Stuck tgt h Q.
Proof. intros Hr. simpl. by eapply ready_here. Qed.

Lemma wp_retp p τ τ' tgt h Q :
  ready h tgt τ' Q → type_of h p = Some τ → (∀ v, has_type τ v → has_type τ' v) →
  WP (RetP p) tgt h Q.
Proof.
  intros Hr Hp Hsub. simpl. split; [|by eapply ready_here].
  intros v Hv. exists τ'. split; [apply Hr|]. apply Hsub. by apply Hv.
Qed.

Lemma wp_do {A} (m : M A) (k : A → task) τ tgt h Q :
  ready h tgt τ Q → block h (m h).1 →
  (∀ a, (m h).2 = Normal a → ready (m h).1 tgt τ Q → WP (k a) tgt (m h).1 Q) →
  WP (Do m k) tgt h Q.
Proof.
  intros Hr Hb Hk. pose proof (ready_block _ _ _ _ _ Hr Hb) as Hr'.
  destruct Hb as (Hs & Hty & Hin & Htp). unfold Do. simpl.
  destruct (m h) as [h' [a|e|]] eqn:E; simpl in *; (split; [done|split; [done|]]).
  - by apply Hk.
  - by apply (wp_throw e τ).
  - by eapply ready_here.
Qed.

Lemma wp_call body τ' k τ tgt h Q :
  spec body τ' → ready h tgt τ Q →
  (∀ h1, heap_step h h1 → ready h1 tgt τ Q →
         type_of h1 (length (promises h)) = Some τ' →
         WP (k (length (promises h))) tgt h1 Q) →
  WP (Async τ' body k) tgt h Q.
Proof.
  intros Hb Hr Hk. simpl. apply Hb. split; [apply heap_inv_alloc, Hr|].
  split; [apply type_of_alloc_heap_new|].
  intros h1 Hs Hi1.
  assert (Hs' : heap_step h h1).
  { eapply heap_step_trans; [apply (heap_step_alloc τ')|done]. }
  apply Hk; [done|by eapply ready_step|].
  eapply heap_step_types; [exact Hs|]. apply type_of_alloc_heap_new.
Qed.

Lemma wp_await p kok kerr τ tgt h Q :
  ready h tgt τ Q →
  (∀ v h', may_yield h p v → heap_step h h' → ready h' tgt τ (TURN h') →
           WP (kok v) tgt h' (TURN h')) →
  (∀ e h', heap_step h h' → ready h' tgt τ (TURN h') →
           WP (kerr e) tgt h' (TURN h')) →
  WP (Await p kok kerr) tgt h Q.
Proof.
  intros Hr Hk He. simpl. split; [by eapply ready_here|]. split.
  - intros v h' Hv Hs Hi. apply Hk; try done. by eapply ready_turn.
  - intros e h' Hs Hi. apply He; try done. by eapply ready_turn.
Qed.

(** An [await] whose rejection is rethrown. *)
Lemma wp_await_throw p kok τ tgt h Q :
  ready h tgt τ Q →
  (∀ v h', may_yield h p v → heap_step h h' → ready h' tgt τ (TURN h') →
           WP (kok v) tgt h' (TURN h')) →
  WP (Await p kok Throw) tgt h Q.
Proof.
  intros Hr Hk. eapply wp_await; try done.
  intros e h' Hs Hr'. by eapply wp_throw.
Qed.

Lemma wp_yield k τ tgt h Q :
  ready h tgt τ Q →
  (∀ h', heap_step h h' → ready h' tgt τ (TURN h') → WP k tgt h' (TURN h')) →
  WP (Yield k) tgt h Q.
Proof.
  intros Hr Hk. unfold Yield. eapply wp_do; [done|by apply block_Promise_resolve|].
  intros a _ Hr'. eapply wp_await_throw; [done|].
  intros _ h' _ Hs Hr''. apply Hk; [|done].
  eapply heap_step_trans; [|exact Hs]. by apply (block_Promise_resolve TVoid VUndefined).
Qed.

Lemma spec_stuck τ : spec Stuck τ.
Proof. intros tgt h Q Hr. by eapply wp_stuck. Qed.

Section LoadAndParse.

Variable parse : Parser → string → string → option InlineDocInfo → ParsedDocument + exn.
Variable scan : ParsedDocument → list Scanner → list ScannedFeature + exn.
Variable extname : string → string.

Lemma spec_scan_call document scanners : spec (scan_call scan document scanners) TFeatures.
Proof.
  intros tgt h Q Hr. unfold scan_call. destruct (scan document scanners) as [fs|e].
  - eapply wp_do; [done|by apply same_core_block|].
    intros ids _ Hr'. eapply wp_ret; [done|]. by eexists.
  - by eapply wp_throw.
Qed.

Lemma wp_this_context this (k : AnalyzerCacheContext → task) τ tgt h Q :
  ready h tgt τ Q →
  (∀ c, contexts h !! this = Some c → WP (k c) tgt h Q) →
  WP (Do (this_context this) k) tgt h Q.
Proof.
  intros Hr Hk. eapply wp_do; [done| |].
  - unfold this_context. destruct (contexts h !! this); apply block_refl.
  - unfold this_context. destruct (contexts h !! this) as [c|] eqn:E; [|done].
    simpl. intros a [= <-] _. by apply Hk.
Qed.

Lemma wp_this_cache this (k : AnalysisCache → task) τ tgt h Q :
  ready h tgt τ Q →
  (∀ c, contexts h !! this = Some c → WP (k (_cache c)) tgt h Q) →
  WP (Do (this_cache this) k) tgt h Q.
Proof.
  intros Hr Hk. eapply wp_do; [done| |].
  - unfold this_cache, bind, this_context, ret. destruct (contexts h !! this); apply block_refl.
  - unfold this_cache, bind, this_context, ret.
    destruct (contexts h !! this) as [c|] eqn:E; [|done].
    simpl. intros a [= <-] _. by apply Hk.
Qed.

Lemma spec_load this resolvedUrl providedContents :
  spec (load this resolvedUrl providedContents) TString.
Proof.
  intros tgt h Q Hr. unfold load. eapply wp_this_context; [done|].
  intros c Hc. destruct (negb _); [by eapply wp_throw|].
  destruct providedContents as [contents|].
  - eapply wp_ret; [done|]. by eexists.
  - simpl. set (h2 := set_loaderCalls _ _).
    assert (Hs : heap_step h h2).
    { eapply heap_step_trans; [apply (heap_step_alloc TString)|apply heap_step_log]. }
    assert (Hi2 : heap_inv h2).
    { subst h2. apply (heap_inv_promises (alloc_heap TString h)); [done|done|].
      apply heap_inv_alloc, Hr. }
    pose proof (ready_step _ _ _ _ _ Hr Hs Hi2) as Hr2.
    split; [by eapply ready_here|]. split.
    + intros v h' Hv Hs' Hi'. eapply wp_ret; [by eapply ready_turn|].
      apply Hv. apply type_of_alloc_heap_new.
    + intros e h' Hs' Hi'. eapply wp_throw. by eapply ready_turn.
Qed.

Lemma parseContents_heap this type contents url info h :
  (_parseContents parse this type contents url info h).1 = h.
Proof.
  unfold _parseContents, bind, this_context.
  destruct (contexts h !! this) as [c|]; [|done].
  destruct (_parsers c !! type) as [p|]; [|done].
  destruct (parse p contents url info) as [d|[]]; done.
Qed.

(** Putting a promise of the right type into one of the promise maps. *)
Lemma cache_typed_insert_parsed h c u p :
  type_of h p = Some TParsedDocument → cache_typed h c →
  cache_typed h (set_parsedDocumentPromises <[u := p]> c).
Proof.
  intros Hp (HP & HS & HD & HA). split; [|done]. simpl. intros u' p'.
  destruct (decide (u = u')) as [->|Hne].
  - rewrite lookup_insert_eq. by intros [= <-].
  - rewrite lookup_insert_ne by done. apply HP.
Qed.

Lemma cache_typed_insert_scanned h c u p :
  type_of h p = Some TScannedDocument → cache_typed h c →
  cache_typed h (set_scannedDocumentPromises <[u := p]> c).
Proof.
  intros Hp (HP & HS & HD & HA). split; [done|]. split; [|done]. simpl. intros u' p'.
  destruct (decide (u = u')) as [->|Hne].
  - rewrite lookup_insert_eq. by intros [= <-].
  - rewrite lookup_insert_ne by done. apply HS.
Qed.

Lemma cache_typed_insert_deps h c u p :
  type_of h p = Some TVoid → cache_typed h c →
  cache_typed h (set_dependenciesScanned <[u := p]> c).
Proof.
  intros Hp (HP & HS & HD & HA). split; [done|]. split; [done|]. split; [|done].
  simpl. intros u' p'.
  destruct (decide (u = u')) as [->|Hne].
  - rewrite lookup_insert_eq. by intros [= <-].
  - rewrite lookup_insert_ne by done. apply HD.
Qed.

Lemma cache_typed_insert_analyzed h c u p :
  type_of h p = Some TDocument → cache_typed h c →
  cache_typed h (set_analyzedDocumentPromises <[u := p]> c).
Proof.
  intros Hp (HP & HS & HD & HA). split; [done|]. split; [done|]. split; [done|].
  simpl. intros u' p'.
  destruct (decide (u = u')) as [->|Hne].
  - rewrite lookup_insert_eq. by intros [= <-].
  - rewrite lookup_insert_ne by done. apply HA.
Qed.

Lemma spec_parse this resolvedUrl providedContents :
  spec (_parse parse extname this resolvedUrl providedContents) TParsedDocument.
Proof.
  intros tgt h Q Hr. unfold _parse. eapply wp_this_cache; [done|].
  intros c Hc. destruct (parsedDocumentPromises (_cache c) !! resolvedUrl) as [p|] eqn:Ep.
  - eapply wp_retp; [done| |done]. destruct Hr as ([HC _] & _).
    destruct (HC _ _ Hc) as (HP & _). eauto.
  - eapply wp_call; [|done|].
    + intros tgt' h' Q' Hr'. eapply wp_yield; [done|].
      intros h1 Hs1 Hr1. eapply wp_call; [apply spec_load|done|].
      intros h2 Hs2 Hr2 Hl. eapply wp_await_throw; [done|].
      intros v h3 Hv Hs3 Hr3. specialize (Hv _ Hl). destruct Hv as [text ->].
      eapply wp_do; [done| |].
      * rewrite parseContents_heap. apply block_refl.
      * rewrite parseContents_heap. intros d _ _. eapply wp_ret; [done|]. by eexists.
    + intros h1 Hs1 Hr1 Hp. eapply wp_do; [done| |].
      * apply block_update_cache. intros c1 Hc1. do 3 (split; [done|]).
        by apply cache_typed_insert_parsed.
      * intros _ _ Hr2. eapply wp_retp; [done| |done].
        eapply (block_update_cache this _ h1); [|exact Hp].
        intros c1 Hc1. do 3 (split; [done|]). by apply cache_typed_insert_parsed.
Qed.

End LoadAndParse.

(** * Composite blocks *)

Lemma block_bind {A B} (m : M A) (k : A → M B) h :
  block h (m h).1 →
  (∀ a, (m h).2 = Normal a → block (m h).1 (k a (m h).1).1) →
  block h (bind m k h).1.
Proof.
  intros Hm Hk. unfold bind. destruct (m h) as [h' [a|e|]]; simpl in *; try done.
  eapply block_trans; [exact Hm|]. by apply Hk.
Qed.

Lemma block_modify_same_core f h : same_core h (f h) → block h (modify f h).1.
Proof. intros H. simpl. by apply same_core_block. Qed.

Lemma block_get_feature f h : block h (get_feature f h).1.
Proof. unfold get_feature. destruct (features h !! f); apply block_refl. Qed.

Lemma block_get_scannedDoc sd h : block h (get_scannedDoc sd h).1.
Proof. unfold get_scannedDoc. destruct (scannedDocs h !! sd); apply block_refl. Qed.

Lemma block_this_cache this h : block h (this_cache this h).1.
Proof.
  unfold this_cache, bind, this_context, ret. destruct (contexts h !! this); apply block_refl.
Qed.

Lemma block_this_context this h : block h (this_context this h).1.
Proof. unfold this_context. destruct (contexts h !! this); apply block_refl. Qed.

Lemma this_cache_Normal this h a :
  (this_cache this h).2 = Normal a →
  (this_cache this h).1 = h ∧ ∃ c, contexts h !! this = Some c ∧ a = _cache c.
Proof.
  unfold this_cache, bind, this_context, ret.
  destruct (contexts h !! this) as [c|]; [|done]. simpl. intros [= <-]. eauto.
Qed.

Lemma this_context_Normal this h a :
  (this_context this h).2 = Normal a →
  (this_context this h).1 = h ∧ contexts h !! this = Some a.
Proof.
  unfold this_context.
  destruct (contexts h !! this) as [c|]; [|done]. simpl. by intros [= <-].
Qed.

Lemma get_scannedDoc_Normal sd h a :
  (get_scannedDoc sd h).2 = Normal a →
  (get_scannedDoc sd h).1 = h ∧ scannedDocs h !! sd = Some a.
Proof.
  unfold get_scannedDoc.
  destruct (scannedDocs h !! sd) as [c|]; [|done]. simpl. by intros [= <-].
Qed.

Lemma get_feature_Normal f h a :
  (get_feature f h).2 = Normal a →
  (get_feature f h).1 = h ∧ features h !! f = Some a.
Proof.
  unfold get_feature.
  destruct (features h !! f) as [c|]; [|done]. simpl. by intros [= <-].
Qed.

(** Recording a scanned document under a URL that has no entry. *)
Lemma block_record_scannedDocument this u sd h :
  (∀ c, contexts h !! this = Some c → scannedDocuments (_cache c) !! u = None) →
  block h (update_cache this (set_scannedDocuments <[u := sd]>) h).1.
Proof.
  intros Hn. apply block_update_cache. intros c Hc. split; [done|]. split; [done|].
  split; [|done]. simpl. apply insert_subseteq. by apply Hn.
Qed.

Lemma block_set_deps this u p h :
  type_of h p = Some TVoid →
  block h (update_cache this (set_dependenciesScanned <[u := p]>) h).1.
Proof.
  intros Hp. apply block_update_cache. intros c Hc. do 3 (split; [done|]).
  by apply cache_typed_insert_deps.
Qed.

Lemma block_set_scanned this u p h :
  type_of h p = Some TScannedDocument →
  block h (update_cache this (set_scannedDocumentPromises <[u := p]>) h).1.
Proof.
  intros Hp. apply block_update_cache. intros c Hc. do 3 (split; [done|]).
  by apply cache_typed_insert_scanned.
Qed.

Section ScanDocument.

Variable parse : Parser → string → string → option InlineDocInfo → ParsedDocument + exn.
Variable scan : ParsedDocument → list Scanner → list ScannedFeature + exn.
Variable extname : string → string.

Lemma spec_getScannedFeatures this document :
  spec (_getScannedFeatures scan this document) TFeatures.
Proof.
  intros tgt h Q Hr. unfold _getScannedFeatures. eapply wp_this_context; [done|].
  intros c Hc. destruct (_scanners c !! pd_type document) as [scanners|].
  - eapply wp_call; [apply spec_scan_call|done|].
    intros h1 Hs1 Hr1 Hp. eapply wp_retp; [done|exact Hp|done].
  - eapply wp_ret; [done|]. by eexists.
Qed.

Lemma spec_scanDocument this document maybeAttachedComment :
  spec (_scanDocument scan this document maybeAttachedComment) TScannedDocument.
Proof.
  intros tgt h Q Hr. unfold _scanDocument.
  eapply wp_do; [done|by apply same_core_block|].
  intros warnings _ Hr1. eapply wp_call; [apply spec_getScannedFeatures|done|].
  intros h2 Hs2 Hr2 Hp. eapply wp_await_throw; [done|].
  intros v h3 Hv Hs3 Hr3. destruct (Hv _ Hp) as [fs ->].
  eapply wp_do; [done| |].
  - apply block_bind.
    + destruct fs as [|f fs']; [apply block_refl|].
      apply block_bind; [apply block_get_feature|].
      intros x Hx. apply get_feature_Normal in Hx as [-> _].
      destruct (is_ScannedElement x); [by apply same_core_block|apply block_refl].
    + intros _ _. apply block_bind; [apply block_new_ScannedDocument|].
      intros sd _. apply block_bind; [|intros; apply block_refl].
      destruct (negb (pd_isInline document)); [|apply block_refl].
      apply block_bind; [apply block_this_cache|].
      intros cache Hc. apply this_cache_Normal in Hc as [-> (c & Hc & ->)].
      destruct (decide _) as [|Hn]; [apply block_refl|].
      apply block_record_scannedDocument. intros c' Hc'. rewrite Hc in Hc'.
      inversion Hc'; subst. destruct (scannedDocuments _ !! _) eqn:E; [|done].
      exfalso. apply Hn. by eexists.
  - intros sd _ Hr4. eapply wp_ret; [done|]. by eexists.
Qed.
End ScanDocument.

Lemma wp_then p cbok cberr k τ tgt h Q :
  ready h tgt τ Q →
  (∀ v h', may_yield (alloc_heap TAny h) p v → heap_step h h' →
           ready h' (length (promises h)) TAny (TURN h') →
           WP (cbok v) (length (promises h)) h' (TURN h')) →
  (∀ e h', heap_step h h' → ready h' (length (promises h)) TAny (TURN h') →
           WP (cberr e) (length (promises h)) h' (TURN h')) →
  (∀ h1, heap_step h h1 → ready h1 tgt τ Q → WP k tgt h1 Q) →
  WP (Then p cbok cberr k) tgt h Q.
Proof.
  intros Hr Hok Herr Hk. simpl.
  assert (Hs : heap_step h (alloc_heap TAny h)) by apply heap_step_alloc.
  assert (Hd : ∀ h', heap_step (alloc_heap TAny h) h' → heap_inv h' →
               ready h' (length (promises h)) TAny (TURN h')).
  { intros h' Hs' Hi'. split; [done|]. split; [|apply frame_turn].
    eapply heap_step_types; [exact Hs'|]. apply type_of_alloc_heap_new. }
  split; [|split].
  - intros v h' Hv Hs' Hi'. apply Hok; auto. by eapply heap_step_trans.
  - intros e h' Hs' Hi'. apply Herr; auto. by eapply heap_step_trans.
  - apply Hk; [done|]. eapply ready_block; [done|apply block_alloc].
Qed.

Lemma wp_resolve p v k τ' τ tgt h Q :
  ready h tgt τ Q → type_of h p = Some τ' → has_type τ' v →
  (∀ h1, heap_step h h1 → ready h1 tgt τ Q → WP k tgt h1 Q) →
  WP (Resolve p v k) tgt h Q.
Proof.
  intros Hr Hp Hv Hk. simpl. split; [by exists τ'|].
  apply Hk; [apply heap_step_settle|].
  eapply ready_step; [done|apply heap_step_settle|apply heap_inv_settle, Hr].
Qed.

Lemma wp_reject p e k τ tgt h Q :
  ready h tgt τ Q →
  (∀ h1, heap_step h h1 → ready h1 tgt τ Q → WP k tgt h1 Q) →
  WP (Reject p e k) tgt h Q.
Proof.
  intros Hr Hk. simpl.
  apply Hk; [apply heap_step_settle|].
  eapply ready_step; [done|apply heap_step_settle|apply heap_inv_settle, Hr].
Qed.

Lemma wp_map_async bodies : ∀ k τ tgt h Q,
  Forall (λ b, spec b TAny) bodies → ready h tgt τ Q →
  (∀ ps h1, heap_step h h1 → ready h1 tgt τ Q → WP (k ps) tgt h1 Q) →
  WP (map_async bodies k) tgt h Q.
Proof.
  induction bodies as [|b bs IH]; intros k τ tgt h Q Hb Hr Hk.
  - simpl. apply Hk; [apply heap_step_refl|done].
  - inversion Hb; subst. cbn [map_async]. eapply wp_call; [done|done|].
    intros h1 Hs1 Hr1 _. eapply IH; [done|done|].
    intros ps h2 Hs2 Hr2. apply Hk; [by eapply heap_step_trans|done].
Qed.

Lemma wp_Promise_all_each result c n ps : ∀ k τ tgt h Q,
  ready h tgt τ Q → type_of h result = Some TArray →
  (∀ h1, heap_step h h1 → ready h1 tgt τ Q → WP k tgt h1 Q) →
  WP (Promise_all_each result c n ps k) tgt h Q.
Proof.
  induction ps as [|p ps IH]; intros k τ tgt h Q Hr Hres Hk.
  - simpl. apply Hk; [apply heap_step_refl|done].
  - cbn [Promise_all_each]. eapply wp_then; [done| | |].
    + intros _ h' _ Hs' Hr'. eapply wp_do; [done| |].
      * unfold cell_countdown. destruct (allCells h' !! c); [by apply same_core_block|apply block_refl].
      * intros remaining _ Hr''.
        assert (Hres' : type_of (cell_countdown c h').1 result = Some TArray).
        { unfold cell_countdown. destruct (allCells h' !! c); simpl;
            by eapply heap_step_types. }
        destruct (decide (remaining = 0)).
        -- eapply wp_resolve; [done|exact Hres'|by eexists|].
           intros h1 Hs1 Hr1. by eapply wp_ret.
        -- by eapply wp_ret.
    + intros e h' Hs' Hr'. eapply wp_reject; [done|].
      intros h1 Hs1 Hr1. by eapply wp_ret.
    + intros h1 Hs1 Hr1. eapply IH; [done|by eapply heap_step_types|].
      intros h2 Hs2 Hr2. apply Hk; [by eapply heap_step_trans|done].
Qed.

Lemma wp_Promise_all ps k τ tgt h Q :
  ready h tgt τ Q →
  (∀ h1, heap_step h h1 → ready h1 tgt τ Q →
         type_of h1 (length (promises h)) = Some TArray →
         WP (k (length (promises h))) tgt h1 Q) →
  WP (Promise_all ps k) tgt h Q.
Proof.
  intros Hr Hk. unfold Promise_all. eapply wp_do; [done|apply block_new_promise|].
  intros result Hres Hr1. simpl in Hres. inversion Hres; subst result.
  pose proof (type_of_alloc_heap_new TArray h) as Hty.
  eapply wp_do; [done|by apply same_core_block|].
  intros c _ Hr2. simpl in *.
  set (h2 := set_allCells _ _) in *.
  assert (Hs2 : heap_step h h2).
  { eapply heap_step_trans; [apply (heap_step_alloc TArray)|]. by apply same_core_step. }
  assert (Hty2 : type_of h2 (length (promises h)) = Some TArray) by done.
  destruct ps as [|p ps'].
  - eapply wp_resolve; [done|exact Hty2|by eexists|].
    intros h3 Hs3 Hr3. apply Hk; [by eapply heap_step_trans|done|by eapply heap_step_types].
  - eapply wp_Promise_all_each; [done|exact Hty2|].
    intros h3 Hs3 Hr3. apply Hk; [by eapply heap_step_trans|done|by eapply heap_step_types].
Qed.

Section ScanDependencies.

Variable parse : Parser → string → string → option InlineDocInfo → ParsedDocument + exn.
Variable scan : ParsedDocument → list Scanner → list ScannedFeature + exn.
Variable extname : string → string.

Section OpenRecursion.

Variable scan_rec : ctxid → string → option string → option vid → task.
Variable deps_rec : ctxid → sdid → vid → task.
Hypothesis spec_scan_rec :
  ∀ this url contents visited, spec (scan_rec this url contents visited) (scan_result visited).
Hypothesis spec_deps_rec :
  ∀ this sd visited, spec (deps_rec this sd visited) TVoid.

Lemma spec_scanInlineSource this type contents url visited inlineInfo attachedComment :
  spec (_scanInlineSource parse scan deps_rec this type contents url visited inlineInfo
          attachedComment) TScannedDocument.
Proof.
  intros tgt h Q Hr. unfold _scanInlineSource. eapply wp_this_context; [done|].
  intros c Hc. eapply wp_do; [done| |].
  { rewrite parseContents_heap. apply block_refl. }
  rewrite parseContents_heap. intros parsedDoc _ _.
  eapply wp_call; [apply spec_scanDocument|done|].
  intros h1 Hs1 Hr1 Hp. eapply wp_await_throw; [done|].
  intros v h2 Hv Hs2 Hr2. destruct (Hv _ Hp) as [sd ->].
  eapply wp_call; [apply spec_deps_rec|done|].
  intros h3 Hs3 Hr3 Hq. eapply wp_await_throw; [done|].
  intros _ h4 _ Hs4 Hr4. eapply wp_ret; [done|]. by eexists.
Qed.

Lemma spec_scanInlineDocument this inlineDoc containingDocument warnings visited :
  spec (_scanInlineDocument parse scan deps_rec this inlineDoc containingDocument
          warnings visited) TScannedDocumentOrNull.
Proof.
  intros tgt h Q Hr. unfold _scanInlineDocument.
  eapply wp_do; [done|apply block_get_feature|].
  intros f Hf Hr1. apply get_feature_Normal in Hf as [Hh Hf]. rewrite Hh in *.
  destruct f as [d| | |]; try by eapply wp_stuck.
  eapply wp_call; [apply spec_scanInlineSource|done|].
  intros h1 Hs1 Hr2 Hp. eapply wp_await; [done| |].
  - intros v h2 Hv Hs2 Hr3. destruct (Hv _ Hp) as [sd ->].
    eapply wp_do; [done|by apply same_core_block|].
    intros _ _ Hr4. eapply wp_ret; [done|]. right. by eexists.
  - intros err h2 Hs2 Hr3. destruct (is_WarningCarryingException err) as [w|].
    + eapply wp_do; [done|by apply same_core_block|].
      intros _ _ Hr4. eapply wp_ret; [done|]. by left.
    + by eapply wp_throw.
Qed.

Lemma spec_scanImport this scannedImport warnings visited :
  spec (_scanImport scan_rec this scannedImport warnings visited) TNull.
Proof.
  intros tgt h Q Hr. unfold _scanImport.
  eapply wp_do; [done|apply block_get_feature|].
  intros f Hf Hr1. apply get_feature_Normal in Hf as [Hh Hf]. rewrite Hh in *.
  destruct f as [|i| |]; try by eapply wp_stuck.
  eapply wp_this_context; [done|]. intros c Hc.
  eapply wp_call; [apply spec_scan_rec|done|].
  intros h1 Hs1 Hr2 Hp. eapply wp_await; [done| |].
  - intros _ h2 _ Hs2 Hr3. eapply wp_this_cache; [done|]. intros c2 Hc2.
    destruct (scannedDocumentPromises (_cache c2) !! _) as [q|] eqn:Eq;
      [|by eapply wp_throw].
    assert (Hq : type_of h2 q = Some TScannedDocument).
    { destruct Hr3 as ([HC _] & _). destruct (HC _ _ Hc2) as (_ & HS & _). eauto. }
    eapply wp_then; [done| | |].
    + intros v h3 Hv Hs3 Hr4.
      destruct (Hv TScannedDocument) as [sd ->]; [by apply type_of_alloc_heap|].
      eapply wp_do; [done|by apply same_core_block|].
      intros _ _ Hr5. by eapply wp_ret.
    + intros e h3 Hs3 Hr4. by eapply wp_throw.
    + intros h3 Hs3 Hr4. by eapply wp_ret.
  - intros error h2 Hs2 Hr3. destruct (is_NoKnownParserError error).
    + by eapply wp_ret.
    + eapply wp_do; [done|by apply same_core_block|].
      intros _ _ Hr4. by eapply wp_ret.
Qed.

Lemma spec_scanDependency this sd visited h0 scannedDependency :
  spec (scanDependency parse scan scan_rec deps_rec this sd visited h0 scannedDependency) TAny.
Proof.
  intros tgt h Q Hr. unfold scanDependency.
  destruct (features h0 !! scannedDependency) as [[d|i|e|k]|]; try by eapply wp_throw.
  - eapply wp_call; [apply spec_scanInlineDocument|done|].
    intros h1 Hs1 Hr1 Hp. eapply wp_retp; [done|exact Hp|done].
  - destruct (decide _).
    + eapply wp_call; [apply spec_scanImport|done|].
      intros h1 Hs1 Hr1 Hp. eapply wp_retp; [done|exact Hp|done].
    + by eapply wp_ret.
Qed.

Lemma spec_scanDependencies_body this scannedDocument visited :
  spec (_scanDependencies_body parse scan scan_rec deps_rec this scannedDocument visited) TVoid.
Proof.
  intros tgt h Q Hr. unfold _scanDependencies_body.
  eapply wp_do; [done|apply block_get_scannedDoc|].
  intros sd Hsd Hr1. apply get_scannedDoc_Normal in Hsd as [Hh Hsd]. rewrite Hh in *.
  eapply wp_do; [done|apply block_refl|].
  intros h' [= <-] _. simpl.
  eapply wp_map_async; [|done|].
  - apply Forall_forall. intros b Hb. apply list_elem_of_fmap in Hb as (f & -> & _).
    apply spec_scanDependency.
  - intros ps h1 Hs1 Hr2. eapply wp_Promise_all; [done|].
    intros h2 Hs2 Hr3 Hall. eapply wp_await_throw; [done|].
    intros _ h3 _ Hs3 Hr4. by eapply wp_ret.
Qed.

Lemma spec_scanDependenciesOfToplevelDoc this scannedDocument visited :
  spec (_scanDependenciesOfToplevelDoc deps_rec this scannedDocument visited) TVoid.
Proof.
  intros tgt h Q Hr. unfold _scanDependenciesOfToplevelDoc.
  eapply wp_do; [done|apply block_get_scannedDoc|].
  intros sd Hsd Hr1. apply get_scannedDoc_Normal in Hsd as [Hh Hsd]. rewrite Hh in *.
  eapply wp_this_cache; [done|]. intros c Hc.
  destruct (dependenciesScanned (_cache c) !! sd_url sd) as [p|] eqn:Ep.
  - assert (Hp : type_of h p = Some TVoid).
    { destruct Hr as ([HC _] & _). destruct (HC _ _ Hc) as (_ & _ & HD & _). eauto. }
    eapply wp_do; [done|by apply block_set_deps|].
    intros _ _ Hr2. eapply wp_await_throw; [done|].
    intros _ h2 _ Hs2 Hr3. eapply wp_retp; [done| |done].
    eapply heap_step_types; [exact Hs2|]. by eapply (block_set_deps this).
  - eapply wp_call; [apply spec_deps_rec|done|].
    intros h1 Hs1 Hr2 Hp. eapply wp_do; [done|by apply block_set_deps|].
    intros _ _ Hr3. eapply wp_await_throw; [done|].
    intros _ h2 _ Hs2 Hr4. eapply wp_retp; [done| |done].
    eapply heap_step_types; [exact Hs2|]. by eapply (block_set_deps this).
Qed.

Lemma scan_result_scanned visited v :
  has_type TScannedDocument v → has_type (scan_result visited) v.
Proof. destruct visited; simpl; auto. Qed.

Lemma spec_scan_body this resolvedUrl contents visited :
  spec (_scan_body parse scan extname deps_rec this resolvedUrl contents visited)
       (scan_result visited).
Proof.
  intros tgt h Q Hr. unfold _scan_body.
  eapply wp_do; [done| |].
  { destruct visited as [v|]; [|apply block_refl].
    unfold Set_has. destruct (visitedSets h !! v); apply block_refl. }
  intros seen Hseen Hr1.
  assert (Hh : (match visited with Some v => Set_has v resolvedUrl | None => ret false end h).1 = h).
  { destruct visited as [v|]; [|done]. unfold Set_has. by destruct (visitedSets h !! v). }
  rewrite Hh in *. destruct seen.
  { destruct visited as [v|]; [|done]. eapply wp_ret; [done|]. by left. }
  eapply wp_do; [done| |].
  { destruct visited as [v|]; [apply block_refl|by apply same_core_block]. }
  intros actualVisited _ Hr2.
  eapply wp_do; [done|by apply same_core_block|].
  intros _ _ Hr3. eapply wp_this_cache; [done|]. intros c Hc.
  match goal with |- WP _ _ ?hh _ => set (h3 := hh) in * end.
  destruct (scannedDocumentPromises (_cache c) !! resolvedUrl) as [cachedResult|] eqn:Ec.
  - assert (Hp : type_of h3 cachedResult = Some TScannedDocument).
    { destruct Hr3 as ([HC _] & _). destruct (HC _ _ Hc) as (_ & HS & _). eauto. }
    eapply wp_await_throw; [done|].
    intros v h4 Hv Hs4 Hr4. destruct (Hv _ Hp) as [sd ->].
    eapply wp_call; [apply spec_scanDependenciesOfToplevelDoc|done|].
    intros h5 Hs5 Hr5 Hd. eapply wp_await_throw; [done|].
    intros _ h6 _ Hs6 Hr6. eapply wp_retp; [done| |apply scan_result_scanned].
    eapply heap_step_types; [exact Hs6|]. eapply heap_step_types; [exact Hs5|].
    by eapply heap_step_types.
  - eapply wp_call; [|done|].
    + intros tgt' h' Q' Hr'. eapply wp_yield; [done|].
      intros h4 Hs4 Hr4. eapply wp_call; [apply spec_parse|done|].
      intros h5 Hs5 Hr5 Hpp. eapply wp_await_throw; [done|].
      intros v h6 Hv Hs6 Hr6. destruct (Hv _ Hpp) as [document ->].
      eapply wp_call; [apply spec_scanDocument|done|].
      intros h7 Hs7 Hr7 Hps. eapply wp_retp; [done|exact Hps|done].
    + intros h4 Hs4 Hr4 Hp. eapply wp_do; [done|by apply block_set_scanned|].
      intros _ _ Hr5. eapply wp_await_throw; [done|].
      intros v h6 Hv Hs6 Hr6.
      destruct (Hv TScannedDocument) as [sd ->].
      { by eapply (block_set_scanned this). }
      eapply wp_call; [apply spec_scanDependenciesOfToplevelDoc|done|].
      intros h7 Hs7 Hr7 Hd. eapply wp_await_throw; [done|].
      intros _ h8 _ Hs8 Hr8. eapply wp_ret; [done|]. apply scan_result_scanned. by eexists.
Qed.

End OpenRecursion.

Lemma spec_scan_deps fuel :
  (∀ this url contents visited,
     spec (_scan parse scan extname fuel this url contents visited) (scan_result visited)) ∧
  (∀ this sd visited,
     spec (_scanDependencies parse scan extname fuel this sd visited) TVoid).
Proof.
  induction fuel as [|n [IHs IHd]].
  - split; intros; apply spec_stuck.
  - split; intros; simpl.
    + by apply spec_scan_body.
    + by apply spec_scanDependencies_body.
Qed.

End ScanDependencies.

(** * Constructing documents *)

Lemma block_alter_document f i h :
  (∀ d, doc_base (f d) = doc_base d ∧ doc_analyzer (f d) = doc_analyzer d) →
  block h (set_documents (alter f i) h).
Proof.
  intros Hf. split; [|split; [done|split; [|done]]].
  - split; [done|]. split; [done|]. split; [|split; [done|]].
    + intros j c Hc. exists c. split; [done|]. split; [apply same_settings_refl|done].
    + intros j d Hd. simpl. destruct (decide (i = j)) as [->|Hne].
      * rewrite list_lookup_alter_eq, Hd. simpl. eexists. split; [done|]. apply Hf.
      * rewrite list_lookup_alter_ne by done. by exists d.
  - intros [HC HD]. split; [done|]. intros j d Hd. simpl in Hd.
    destruct (decide (i = j)) as [->|Hne].
    + rewrite list_lookup_alter_eq in Hd. destruct (documents h !! j) as [d0|] eqn:E; [|done].
      simpl in Hd. inversion Hd; subst. destruct (HD _ _ E) as (c & sd & H1 & H2 & H3).
      destruct (Hf d0) as [Hb Ha]. exists c, sd. simpl. by rewrite Hb, Ha.
    + rewrite list_lookup_alter_ne in Hd by done. destruct (HD _ _ Hd) as (c & sd & H1 & H2 & H3).
      by exists c, sd.
Qed.


Lemma block_register_document this sd sdoc c h :
  scannedDocs h !! sd = Some sdoc → contexts h !! this = Some c →
  analyzedDocuments (_cache c) !! sd_url sdoc = None →
  block h (register_document this sd (sd_url sdoc) h).
Proof.
  intros Hsd Hc Hn. split; [|split; [done|split; [|done]]].
  - split; [done|]. split; [done|]. split; [|split; [done|]].
    + intros j c' Hc'. simpl. destruct (decide (this = j)) as [->|Hne].
      * rewrite list_lookup_alter_eq, Hc'. simpl. eexists. split; [done|].
        split; [by repeat split|]. split; [done|]. split; [|done]. simpl.
        apply insert_subseteq. congruence.
      * rewrite list_lookup_alter_ne by done. exists c'. split; [done|].
        split; [apply same_settings_refl|done].
    + intros j d Hd. exists d. simpl. split; [by apply lookup_app_l_Some|done].
  - intros [HC HD]. split.
    + intros j c' Hc'. simpl in Hc'. destruct (decide (this = j)) as [->|Hne].
      * rewrite list_lookup_alter_eq, Hc in Hc'. simpl in Hc'. inversion Hc'; subst.
        by eapply (HC j c).
      * rewrite list_lookup_alter_ne in Hc' by done. by eapply HC.
    + intros j d Hd. simpl in Hd. apply lookup_app_Some in Hd as [Hd|[Hlen Hd]].
      * destruct (HD _ _ Hd) as (c' & sd' & H1 & H2 & H3). unfold registered. simpl.
        destruct (decide (this = doc_analyzer d)) as [Heq|Hne].
        -- rewrite <- Heq in *. rewrite Hc in H1. inversion H1; subst c'.
           exists (set_cache (set_analyzedDocuments <[sd_url sdoc := length (documents h)]>) c), sd'.
           rewrite list_lookup_alter_eq, Hc. simpl. split; [done|]. split; [done|].
           rewrite lookup_insert_ne; [done|]. intros Heq'. rewrite Heq' in Hn. congruence.
        -- exists c', sd'. by rewrite list_lookup_alter_ne.
      * apply list_lookup_singleton_Some in Hd as [Hj <-]. unfold registered. simpl.
        exists (set_cache (set_analyzedDocuments <[sd_url sdoc := length (documents h)]>) c), sdoc.
        rewrite list_lookup_alter_eq, Hc. simpl. split; [done|]. split; [done|].
        assert (j = length (documents h)) as -> by lia. by rewrite lookup_insert_eq.
Qed.

Lemma block_forEach {A} (l : list A) (f : A → M unit) h :
  (∀ a h', block h' (f a h').1) → block h (forEach l f h).1.
Proof.
  intros Hf. revert h. induction l as [|a l IH]; intros h; [apply block_refl|].
  cbn [forEach]. apply block_bind; [apply Hf|]. intros _ _. apply IH.
Qed.

Section MakeDocument.

Variable parse : Parser → string → string → option InlineDocInfo → ParsedDocument + exn.
Variable scan : ParsedDocument → list Scanner → list ScannedFeature + exn.
Variable extname : string → string.

Lemma block_getDocument_body make this url h :
  (∀ this sd h, block h (make this sd h).1) →
  block h (_getDocument_body make this url h).1.
Proof.
  intros Hm. unfold _getDocument_body. apply block_bind; [apply block_this_context|].
  intros c Hc. apply this_context_Normal in Hc as [-> Hc].
  destruct (analyzedDocuments _ !! _); [apply block_refl|].
  destruct (scannedDocuments _ !! _); [|apply block_refl].
  apply block_bind; [apply Hm|]. intros; apply block_refl.
Qed.

Lemma block_Document_resolve getDoc document h :
  (∀ this url h, block h (getDoc this url h).1) →
  block h (Document_resolve getDoc document h).1.
Proof.
  intros Hg. unfold Document_resolve. apply block_bind; [apply block_refl|].
  intros h' [= <-]. simpl. destruct (documents h !! document) as [d|]; [|apply block_refl].
  destruct (doc_begunResolving d); [apply block_refl|].
  apply block_bind; [by apply block_alter_document|].
  intros _ _. apply block_bind.
  - apply block_forEach. intros url h'. apply block_bind; [apply Hg|].
    intros; apply block_refl.
  - intros _ _. by apply block_alter_document.
Qed.

Lemma block_makeDocument fuel : ∀ this sd h, block h (_makeDocument fuel this sd h).1.
Proof.
  induction fuel as [|n IH]; intros this sd h; [apply block_refl|].
  cbn [_makeDocument]. apply block_bind; [apply block_get_scannedDoc|].
  intros sdoc Hsd. apply get_scannedDoc_Normal in Hsd as [-> Hsd].
  apply block_bind; [apply block_this_cache|].
  intros cache Hc. apply this_cache_Normal in Hc as [-> (c & Hc & ->)].
  destruct (decide (is_Some (analyzedDocuments (_cache c) !! sd_url sdoc))) as [|Hn];
    [apply block_refl|].
  assert (Hnone : analyzedDocuments (_cache c) !! sd_url sdoc = None).
  { destruct (analyzedDocuments _ !! _) eqn:E; [|done]. exfalso. apply Hn. by eexists. }
  (* the promise of the document first, the document and its entry second *)
  set (adp := λ h : heap,
         if decide (is_Some (analyzedDocumentPromises (_cache c) !! sd_url sdoc)) then h
         else (update_cache this
                 (set_analyzedDocumentPromises <[sd_url sdoc := length (promises h)]>)
                 (Promise_resolve TDocument (VDocument (length (documents h))) h).1).1).
  assert (Ha : block h (adp h)).
  { subst adp. simpl. destruct (decide _) as [|Hna]; [apply block_refl|].
    eapply block_trans; [by apply (block_Promise_resolve TDocument); eexists|].
    apply block_update_cache. intros c' Hc'. simpl in Hc'. rewrite Hc in Hc'.
    inversion Hc'; subst c'. split; [|split; [done|split; [done|]]].
    - simpl. apply insert_subseteq.
      destruct (analyzedDocumentPromises _ !! _) eqn:E; [|done]. exfalso. apply Hna. by eexists.
    - apply cache_typed_insert_analyzed. apply type_of_Promise_resolve. }
  assert (Hb : block (adp h) (register_document this sd (sd_url sdoc) (adp h))).
  { subst adp. simpl. destruct (decide _) as [|Hna].
    - by eapply block_register_document.
    - eapply block_register_document; simpl; [done| |].
      + by rewrite list_lookup_alter_eq, Hc.
      + done. }
  pose proof (block_trans _ _ _ Ha Hb) as Hab.
  assert (Hres : ∀ h3, block h3 (Document_resolve (_getDocument_body (_makeDocument n))
                                   (length (documents h)) h3).1).
  { intros h3. apply block_Document_resolve. intros this' url h'.
    by apply block_getDocument_body. }
  subst adp. simpl in Hab. unfold register_document in Hab.
  unfold bind, new_Document, ret, update_cache, modify, Promise_resolve. simpl.
  destruct (decide (is_Some (analyzedDocumentPromises (_cache c) !! sd_url sdoc))); simpl in *.
  - match goal with |- context [Document_resolve ?g ?d ?h3] =>
      specialize (Hres h3); destruct (Document_resolve g d h3) as [h4 [[]| |]] end;
      simpl in *; by eapply block_trans.
  - match goal with |- context [Document_resolve ?g ?d ?h3] =>
      specialize (Hres h3); destruct (Document_resolve g d h3) as [h4 [[]| |]] end;
      simpl in *; by eapply block_trans.
Qed.
End MakeDocument.

(** [await Promise.resolve()] when what follows the call in the caller
    depends on the exact heap. *)
Lemma wp_yield_exact k τ tgt h Q :
  heap_inv h → type_of h tgt = Some τ →
  Q (Promise_resolve TVoid VUndefined h).1 →
  (∀ h', heap_step h h' → ready h' tgt τ (TURN h') → WP k tgt h' (TURN h')) →
  WP (Yield k) tgt h Q.
Proof.
  intros Hi Ht HQ Hk. unfold Yield, Do. simpl.
  destruct (block_Promise_resolve TVoid VUndefined h eq_refl) as (Hs & Hty & Hin & Htp).
  simpl in *. split; [done|]. split; [done|]. split; [done|]. split.
  - intros _ h' _ Hs' Hi'. apply Hk; [by eapply heap_step_trans|].
    split; [done|]. split; [|apply frame_turn].
    eapply heap_step_types; [exact Hs'|]. by apply Htp.
  - intros e h' Hs' Hi'. simpl. split; [by apply heap_inv_settle|apply heap_step_settle].
Qed.

(** * Forking a context *)

Lemma cache_typed_onPathChanged h c u ds :
  cache_typed h c → cache_typed h (onPathChanged c u ds).
Proof.
  intros (HP & HS & HD & HA). unfold onPathChanged. repeat split; simpl;
    intros u' p Hp; apply map_lookup_filter_Some in Hp as [Hp _]; eauto.
Qed.

Lemma cache_typed_new h : cache_typed h new_AnalysisCache.
Proof. repeat split; intros u p; simpl; by rewrite lookup_empty. Qed.

Lemma block_new_context c h : cache_typed h (_cache c) → block h (new_context c h).1.
Proof.
  intros Hc. simpl. split; [|split; [done|split; [|done]]].
  - split; [done|]. split; [done|]. split; [|split; [done|]].
    + intros i c' Hi. exists c'. simpl. split; [by apply lookup_app_l_Some|].
      split; [apply same_settings_refl|done].
    + intros i d Hd. by exists d.
  - intros [HC HD]. split.
    + intros i c' Hi. simpl in Hi. apply lookup_app_Some in Hi as [Hi|[_ Hi]]; [by eapply HC|].
      apply list_lookup_singleton_Some in Hi as [_ <-]. done.
    + intros i d Hd. destruct (HD _ _ Hd) as (c' & sd & H1 & H2 & H3). exists c', sd.
      simpl. split; [by apply lookup_app_l_Some|done].
Qed.

Lemma block_fork this cache h :
  cache_typed h cache → block h (_fork this cache h).1.
Proof.
  intros Hc. unfold _fork. apply block_bind; [apply block_this_context|].
  intros c Hcc. apply this_context_Normal in Hcc as [-> Hcc]. by apply block_new_context.
Qed.

Lemma block_clearCaches this h : block h (clearCaches this h).1.
Proof. apply block_fork, cache_typed_new. Qed.

Lemma block_fileChanged this url h : heap_inv h → block h (fileChanged this url h).1.
Proof.
  intros [HC _]. unfold fileChanged. apply block_bind; [apply block_this_context|].
  intros c Hc. apply this_context_Normal in Hc as [-> Hc].
  apply block_bind; [apply block_refl|]. intros h' [= <-]. simpl.
  apply block_fork. apply cache_typed_onPathChanged. by eapply HC.
Qed.

Section Invariant.

Variable parse : Parser → string → string → option InlineDocInfo → ParsedDocument + exn.
Variable scan : ParsedDocument → list Scanner → list ScannedFeature + exn.
Variable extname : string → string.

Lemma spec_analyze fuel this url contents :
  spec (analyze parse scan extname fuel this url contents) TDocument.
Proof.
  intros tgt h Q Hr. unfold analyze. eapply wp_this_context; [done|].
  intros c Hc.
  destruct (analyzedDocumentPromises (_cache c) !! _resolveUrl c url) as [cached|] eqn:Ea.
  - eapply wp_retp; [done| |done]. destruct Hr as ([HC _] & _).
    destruct (HC _ _ Hc) as (_ & _ & _ & HA). eauto.
  - cbn [wp]. set (p := length (promises h)).
    pose proof (type_of_alloc_heap_new TDocument h) as Hp. fold p in Hp.
    pose proof (ready_block _ _ _ _ _ Hr (block_alloc TDocument h)) as Hr1.
    apply (wp_yield_exact _ TDocument); [apply Hr1|done| |].
    + pose proof (ready_block _ _ _ _ _ Hr1
                    (block_Promise_resolve TVoid VUndefined _ eq_refl)) as Hr2.
      assert (Hp2 : type_of (Promise_resolve TVoid VUndefined (alloc_heap TDocument h)).1 p
                    = Some TDocument).
      { by apply (block_Promise_resolve TVoid VUndefined). }
      eapply wp_do; [done| |].
      * apply block_update_cache. intros c' Hc'. simpl in Hc'. rewrite Hc in Hc'.
        inversion Hc'; subst c'. split; [|split; [done|split; [done|]]].
        -- simpl. by apply insert_subseteq.
        -- by apply cache_typed_insert_analyzed.
      * intros _ _ Hr3. eapply wp_retp; [done| |done]. done.
    + intros h1 Hs1 Hr'. eapply wp_call; [apply spec_scan_deps|done|].
      intros h2 Hs2 Hr2 Hsp. eapply wp_await_throw; [done|].
      intros v h3 Hv Hs3 Hr3. destruct (Hv _ Hsp) as [sd ->].
      eapply wp_yield; [done|].
      intros h4 Hs4 Hr4. eapply wp_do; [done|apply block_makeDocument|].
      intros document _ Hr5. eapply wp_ret; [done|]. by eexists.
Qed.

Lemma spec_Analyzer_analyze fuel url contents :
  spec (Analyzer_analyze parse scan extname fuel url contents) TDocument.
Proof.
  intros tgt h Q Hr. unfold Analyzer_analyze. eapply wp_do; [done| |].
  { destruct contents; [|apply block_refl].
    apply block_bind; [apply block_refl|]. intros h' [= <-]. simpl.
    apply block_bind; [apply block_fileChanged, Hr|].
    intros c _. by apply same_core_block. }
  intros _ _ Hr1. eapply wp_do; [done|apply block_refl|].
  intros h' _ Hr2. eapply wp_call; [apply spec_analyze|exact Hr2|].
  intros h2 Hs2 Hr3 Hp. eapply wp_retp; [done|exact Hp|done].
Qed.

Lemma spec_Analyzer_load url contents : spec (Analyzer_load url contents) TString.
Proof.
  intros tgt h Q Hr. unfold Analyzer_load. eapply wp_do; [done|apply block_refl|].
  intros h' _ Hr2. eapply wp_call; [apply spec_load|exact Hr2|].
  intros h2 Hs2 Hr3 Hp. eapply wp_retp; [done|exact Hp|done].
Qed.

Lemma block_Analyzer_clearCaches h : block h (Analyzer_clearCaches h).1.
Proof.
  unfold Analyzer_clearCaches. apply block_bind; [apply block_refl|].
  intros h' [= <-]. simpl. apply block_bind; [apply block_clearCaches|].
  intros c _. by apply same_core_block.
Qed.

Lemma block_getDocument fuel this url h : block h (_getDocument fuel this url h).1.
Proof. apply block_getDocument_body. apply block_makeDocument. Qed.

(** * Every transition keeps the invariant *)

Lemma inv_block s h' : INV s → block (s_heap s) h' → INV (with_heap h' s).
Proof.
  intros [Hfl HI Ht Hq Hr Hio] (Hs & Hty & Hin & Htp). split; simpl; auto.
  - eapply Forall_impl; [exact Hq|]. intros j. apply good_task_mono; [apply heap_step_trans|done].
  - eapply Forall_impl; [exact Hr|]. intros r.
    apply good_reaction_mono; [apply heap_step_trans| |done].
    intros. by eapply heap_step_types.
  - eapply Forall_impl; [exact Hio|]. intros r. unfold good_io. apply Htp.
Qed.

Lemma inv_call body τ s :
  spec body τ → INV s →
  INV (call τ body s).2 ∧ heap_step (s_heap s) (s_heap (call τ body s).2).
Proof.
  intros Hb Hinv. unfold call. simpl.
  pose proof (inv_block s _ Hinv (block_alloc τ (s_heap s))) as [Hfl HI Ht Hq Hr Hio].
  change (with_heap (alloc_heap τ (s_heap s)) s) with (alloc τ s) in *.
  destruct (exec_turn body (fresh s) (alloc τ s) (TURN (s_heap (alloc τ s))))
    as ([HI' HR] & _ & Ht' & (Hq' & Hr' & Hio') & Hf); try done.
  - apply Hb. split; [done|]. split; [apply type_of_alloc_heap_new|apply frame_turn].
  - split; [split; try done; by rewrite Hf|].
    eapply heap_step_trans; [apply (heap_step_alloc τ)|exact HR].
Qed.

Lemma transition_inv s s' :
  INV s → transition parse scan extname s s' → INV s' ∧ heap_step (s_heap s) (s_heap s').
Proof.
  intros Hinv Ht. destruct Ht.
  - by apply step_inv.
  - apply inv_call; [apply spec_Analyzer_analyze|done].
  - split; [apply inv_block; [done|apply block_Analyzer_clearCaches]|].
    apply block_Analyzer_clearCaches.
  - apply inv_call; [apply spec_Analyzer_load|done].
  - split; [apply inv_block; [done|apply block_getDocument]|]. apply block_getDocument.
Qed.

Lemma initial_inv options : INV (initial_sched (Analyzer_new options)).
Proof.
  split; simpl; try by constructor.
  - split.
    + intros i c Hc. simpl in Hc. apply list_lookup_singleton_Some in Hc as [_ <-].
      apply cache_typed_new.
    + intros i d Hd. done.
  - intros p pr v Hp. done.
Qed.

Lemma reachable_from_inv s s' :
  INV s → reachable_from parse scan extname s s' →
  INV s' ∧ heap_step (s_heap s) (s_heap s').
Proof.
  intros Hinv Hr. induction Hr as [s|s1 s2 s3 Ht Hr IH].
  - split; [done|apply heap_step_refl].
  - destruct (transition_inv _ _ Hinv Ht) as [Hinv2 Hs]. destruct (IH Hinv2) as [Hinv3 Hs'].
    split; [done|]. by eapply heap_step_trans.
Qed.

Lemma reachable_inv s : reachable parse scan extname s → INV s.
Proof. intros [options Hr]. by eapply reachable_from_inv; [apply initial_inv|]. Qed.

End Invariant.

Lemma exec_Do {A} (m : M A) (k : A → task) tgt s :
  exec (Do m k) tgt s =
  match m (s_heap s) with
  | (h', Normal a) => exec (k a) tgt (with_heap h' s)
  | (h', Thrown e) => settle tgt (Rejected e) (with_heap h' s)
  | (h', Diverged) => with_heap h' s
  end.
Proof. unfold Do. simpl. destruct (m (s_heap s)) as [h' [a|e|]]; reflexivity. Qed.

Lemma exec_this_context {c} (k : AnalyzerCacheContext → task) this tgt s :
  contexts (s_heap s) !! this = Some c →
  exec (Do (this_context this) k) tgt s = exec (k c) tgt s.
Proof.
  intros H. rewrite exec_Do. unfold this_context. rewrite H. by rewrite with_heap_same.
Qed.

Section Claims.

Variable parse : Parser → string → string → option InlineDocInfo → ParsedDocument + exn.
Variable scan : ParsedDocument → list Scanner → list ScannedFeature + exn.
Variable extname : string → string.

Lemma run_reachable_from n : ∀ s, reachable_from parse scan extname s (run n s).
Proof.
  induction n as [|n IH]; intros s; [apply rtc_refl|]. simpl.
  destruct (step s) as [s'|] eqn:E; [|apply rtc_refl].
  eapply rtc_l; [by apply turn|apply IH].
Qed.

Lemma same_settings_resolveUrl c c' url :
  same_settings c c' → _resolveUrl c' url = _resolveUrl c url.
Proof. intros (_&_&_&_&Hr&_). unfold _resolveUrl. by rewrite Hr. Qed.

(** C1: a Document is constructed at most once per context (cache
    generation) and URL. In every state a run of the analyzer reaches:
    two Documents of the same context and URL are one object; an [analyze]
    of a URL that has no entry in [analyzedDocumentPromises] stores a new,
    pending promise under the resolved URL and constructs no Document on
    the spot; whatever happens afterwards, every later [analyze] of that
    URL on that context returns the stored promise and runs nothing else;
    and a promise fulfilled with a Document holds that Document for good. *)
Theorem document_constructed_once (s : sched) :
  reachable parse scan extname s →
  (∀ i j d d' sd sd',
     documents (s_heap s) !! i = Some d → documents (s_heap s) !! j = Some d' →
     scannedDocs (s_heap s) !! doc_base d = Some sd →
     scannedDocs (s_heap s) !! doc_base d' = Some sd' →
     doc_analyzer d = doc_analyzer d' → sd_url sd = sd_url sd' → i = j) ∧
  (∀ fuel this c url contents tgt,
     contexts (s_heap s) !! this = Some c →
     analyzedDocumentPromises (_cache c) !! _resolveUrl c url = None →
     let s' := exec (analyze parse scan extname fuel this url contents) tgt s in
     (∃ c', contexts (s_heap s') !! this = Some c' ∧
            analyzedDocumentPromises (_cache c') !! _resolveUrl c url = Some (fresh s)) ∧
     state_of (s_heap s') (fresh s) = Some Pending ∧
     documents (s_heap s') = documents (s_heap s)) ∧
  (∀ s' this c url p,
     reachable_from parse scan extname s s' →
     contexts (s_heap s) !! this = Some c →
     analyzedDocumentPromises (_cache c) !! _resolveUrl c url = Some p →
     ∀ fuel contents tgt,
       exec (analyze parse scan extname fuel this url contents) tgt s'
       = enqueue [ {| j_task := Await p Ret Throw; j_target := tgt |} ] s') ∧
  (∀ s' p d,
     reachable_from parse scan extname s s' →
     state_of (s_heap s) p = Some (Fulfilled (VDocument d)) →
     state_of (s_heap s') p = Some (Fulfilled (VDocument d))).
Proof.
  intros Hreach. pose proof (reachable_inv _ _ _ _ Hreach) as Hinv.
  split; [|split; [|split]].
  - destruct Hinv as [_ [_ HD] _ _ _ _].
    intros i j d d' sd sd' Hi Hj Hsd Hsd' Ha Hu.
    destruct (HD _ _ Hi) as (c & x & H1 & H2 & H3).
    destruct (HD _ _ Hj) as (c' & x' & H1' & H2' & H3').
    rewrite Hsd in H2. rewrite Hsd' in H2'. inversion H2; inversion H2'; subst x x'.
    rewrite Ha in H1. rewrite H1 in H1'. inversion H1'; subst c'.
    rewrite Hu in H3. rewrite H3 in H3'. by inversion H3'.
  - intros fuel this c url contents tgt Hc Hn s'. subst s'.
    unfold analyze. rewrite (exec_this_context _ _ _ _ Hc). rewrite Hn.
    cbn [exec]. rewrite exec_Do.
    set (s1 := exec (Yield _) _ _).
    assert (H1 : s_heap s1 = set_promises (λ ps, ps ++ [ {| p_type := TVoid; p_state := Fulfilled VUndefined |} ])
                               (alloc_heap TDocument (s_heap s))).
    { subst s1. unfold Yield. rewrite exec_Do. cbn [Promise_resolve]. cbn [exec].
      by rewrite subscribe_heap. }
    unfold update_cache, modify. rewrite H1. cbn [exec enqueue s_heap with_heap].
    unfold fresh. split; [|split].
    + eexists. split; [simpl; by rewrite list_lookup_alter_eq, Hc|]. simpl.
      by rewrite lookup_insert_eq.
    + unfold state_of. simpl.
      rewrite lookup_app_l; [|rewrite length_app; simpl; lia].
      rewrite lookup_app_r by lia. by rewrite Nat.sub_diag.
    + done.
  - intros s' this c url p Hr Hc Hp fuel contents tgt.
    destruct (reachable_from_inv _ _ _ _ _ Hinv Hr) as [_ (_ & _ & HC & _)].
    destruct (HC _ _ Hc) as (c' & Hc' & Hs & Ha & _).
    unfold analyze. rewrite (exec_this_context _ _ _ _ Hc').
    rewrite (same_settings_resolveUrl _ _ _ Hs).
    by rewrite (lookup_weaken _ _ _ _ Hp Ha).
  - intros s' p d Hr Hp.
    destruct (reachable_from_inv _ _ _ _ _ Hinv Hr) as [_ (_ & HS & _)].
    by apply HS.
Qed.


(** C6: one ScannedDocument and one Document per URL and generation. From
    every reachable state on, an entry of [scannedDocuments] or of
    [analyzedDocuments] of a context is never replaced or removed, and the
    generation of a context does not change; every Document is the entry of
    its URL in the [analyzedDocuments] of its context; [_makeDocument] for a
    URL that has an entry in [analyzedDocuments] throws and leaves the heap
    as it is; and [_scanDocument] of a document that is not inline, resumed
    with the features when its URL has an entry in [scannedDocuments],
    rejects with the error and leaves every cache as it is. *)
Theorem one_entry_per_url (s : sched) :
  reachable parse scan extname s →
  (∀ s' this c,
     reachable_from parse scan extname s s' →
     contexts (s_heap s) !! this = Some c →
     ∃ c', contexts (s_heap s') !! this = Some c' ∧
           _generation c' = _generation c ∧
           (∀ u sd, scannedDocuments (_cache c) !! u = Some sd →
                    scannedDocuments (_cache c') !! u = Some sd) ∧
           (∀ u d, analyzedDocuments (_cache c) !! u = Some d →
                   analyzedDocuments (_cache c') !! u = Some d)) ∧
  (∀ i d, documents (s_heap s) !! i = Some d → registered (s_heap s) i d) ∧
  (∀ fuel this c scannedDocument sd existing h,
     contexts h !! this = Some c →
     scannedDocs h !! scannedDocument = Some sd →
     analyzedDocuments (_cache c) !! sd_url sd = Some existing →
     _makeDocument (S fuel) this scannedDocument h
     = (h, Thrown (Error ("Internal error: document " +:+ sd_url sd +:+ " already exists")))) ∧
  (∀ this document comment tgt s0,
     ∃ r, exec (_scanDocument scan this document comment) tgt s0
          = subscribe (fresh s0) r
              (exec (_getScannedFeatures scan this document) (fresh s0)
                 (alloc TFeatures (with_heap (new_warnings (s_heap s0)).1 s0))) ∧
          ∀ fs s2 c existing,
            contexts (s_heap s2) !! this = Some c →
            pd_isInline document = false →
            scannedDocuments (_cache c) !! pd_url document = Some existing →
            match fs with f :: _ => is_Some (features (s_heap s2) !! f) | [] => True end →
            ∃ h', exec (on_ok r (VFeatures fs)) tgt s2
                  = settle tgt
                      (Rejected (Error "Scanned document already in cache. This should never happen."))
                      (with_heap h' s2) ∧
                  contexts h' = contexts (s_heap s2)).
Proof.
  intros Hreach. pose proof (reachable_inv _ _ _ _ Hreach) as Hinv.
  split; [|split; [|split]].
  - intros s' this c Hr Hc.
    destruct (reachable_from_inv _ _ _ _ _ Hinv Hr) as [_ (_ & _ & HC & _)].
    destruct (HC _ _ Hc) as (c' & Hc' & Hs & _ & Ha & Hsd).
    exists c'. split; [done|]. split; [apply Hs|]. split.
    + intros u sd Hu. by apply (lookup_weaken _ _ _ _ Hu Hsd).
    + intros u d Hu. by apply (lookup_weaken _ _ _ _ Hu Ha).
  - by destruct Hinv as [_ [_ HD] _ _ _ _].
  - intros fuel this c scannedDocument sd existing h Hc Hsd He.
    simpl. cbv [bind get_scannedDoc this_cache this_context ret]. rewrite Hsd, Hc.
    rewrite He. by rewrite decide_True by by eexists.
  - intros this document comment tgt s0. eexists. split.
    + unfold _scanDocument. rewrite exec_Do. unfold new_warnings at 1. cbn [exec].
      reflexivity.
    + intros fs s2 c existing Hc Hi He Hf. cbn [on_ok]. rewrite exec_Do.
      rewrite Hi. cbn [negb].
      destruct fs as [|f fs'].
      * cbv [bind ret new_ScannedDocument this_cache this_context throw]. simpl.
        rewrite Hc, He. rewrite decide_True by by eexists.
        eexists. split; [reflexivity|]. done.
      * destruct Hf as [x Hx].
        cbv [bind ret get_feature new_ScannedDocument this_cache this_context throw modify].
        rewrite Hx. destruct (is_ScannedElement x); simpl;
          rewrite Hc, He; (rewrite decide_True by by eexists);
          (eexists; split; [reflexivity|]; done).
Qed.

Lemma settle_failed_eq p st s : s_failed (settle p st s) = s_failed s.
Proof. unfold settle. destruct (state_of (s_heap s) p) as [[]|]; reflexivity. Qed.

Lemma subscribe_failed_eq p r s : s_failed (subscribe p r s) = s_failed s.
Proof. unfold subscribe. destruct (state_of (s_heap s) p) as [[]|]; reflexivity. Qed.

Lemma exec_failed_sticky t : ∀ tgt s, s_failed s = true → s_failed (exec t tgt s) = true.
Proof.
  induction t using task_sres_ind
    with (P0 := λ r, ∀ tgt s h, r = r → s_failed s = true →
                 s_failed (match r with SRes h' t' => exec t' tgt (with_heap h' s) end) = true);
    intros; simpl;
    repeat first
      [ done
      | rewrite settle_failed_eq
      | rewrite subscribe_failed_eq
      | match goal with
        | IH : ∀ tgt s, s_failed s = true → s_failed (exec ?t tgt s) = true
          |- s_failed (exec ?t _ _) = true => apply IH
        | IH : ∀ x tgt s, s_failed s = true → s_failed (exec (?k x) tgt s) = true
          |- s_failed (exec (?k _) _ _) = true => apply IH
        | IH : ∀ h tgt s h', _ → s_failed s = true → _ |- _ =>
            by apply (IH (s_heap s) tgt s (s_heap s))
        end ].
Qed.

(** C10: a [_scan] called without a visited set never yields the sentinel.
    In every reachable state no [Impossible] and no [ShouldNotHappen] branch
    has been run (running the branch of [analyze] that receives the sentinel
    would raise the flag for good), and no promise of the type [analyze]
    gives to its call of [_scan] is fulfilled with the sentinel; a [_scan]
    that is given a visited set holding the resolved URL returns the
    sentinel at once. *)
Theorem top_level_scan_never_visited (s : sched) :
  reachable parse scan extname s →
  s_failed s = false ∧
  (∀ k tgt s0, s_failed (exec (ShouldNotHappen k) tgt s0) = true) ∧
  (∀ p pr, promises (s_heap s) !! p = Some pr → p_type pr = scan_result None →
           p_state pr ≠ Fulfilled VVisited) ∧
  (∀ fuel this resolvedUrl contents visited seen tgt s0,
     visitedSets (s_heap s0) !! visited = Some seen → resolvedUrl ∈ seen →
     exec (_scan parse scan extname (S fuel) this resolvedUrl contents (Some visited)) tgt s0
     = settle tgt (Fulfilled VVisited) s0).
Proof.
  intros Hreach. pose proof (reachable_inv _ _ _ _ Hreach) as Hinv.
  split; [|split; [|split]].
  - by destruct Hinv.
  - intros k tgt s0. simpl. by apply exec_failed_sticky.
  - destruct Hinv as [_ _ Ht _ _ _]. intros p pr Hp Hτ Hst.
    specialize (Ht p pr VVisited Hp Hst). rewrite Hτ in Ht. simpl in Ht.
    by destruct Ht.
  - intros fuel this resolvedUrl contents visited seen tgt s0 Hv Hin.
    cbn [_scan]. unfold _scan_body. rewrite exec_Do. unfold Set_has. rewrite Hv.
    rewrite bool_decide_eq_true_2 by done. by rewrite with_heap_same.
Qed.

End Claims.

Lemma keep_lookup_gone {V} (gone : gset string) (m : gmap string V) v :
  v ∈ gone → filter (λ kv : string * V, kv.1 ∉ gone) m !! v = None.
Proof.
  intros Hv. apply map_lookup_filter_None. right. intros x _ Hn. by apply Hn.
Qed.

Lemma keep_lookup_kept {V} (gone : gset string) (m : gmap string V) v :
  v ∉ gone → filter (λ kv : string * V, kv.1 ∉ gone) m !! v = m !! v.
Proof.
  intros Hv. destruct (m !! v) as [x|] eqn:E.
  - by apply map_lookup_filter_Some.
  - apply map_lookup_filter_None. by left.
Qed.

Lemma fileChanged_eq (this : ctxid) (url : string) (h : heap) (c : AnalyzerCacheContext) :
  contexts h !! this = Some c →
  fileChanged this url h
  = (set_contexts
       (λ l, l ++ [ {| _parsers := _parsers c; _lazyEdges := _lazyEdges c;
                       _scanners := _scanners c; _loader := _loader c;
                       _resolver := _resolver c;
                       _cache := onPathChanged (_cache c) (_resolveUrl c url)
                                   (dependants h c (_resolveUrl c url));
                       _generation := _generation c + 1 |} ]) h,
     Normal (length (contexts h))).
Proof.
  intros Hc. unfold fileChanged, _fork. cbv [bind this_context get new_context ret].
  rewrite Hc. cbv beta iota. rewrite Hc. reflexivity.
Qed.

(** C4: [fileChanged(url)] adds a context, one generation on, whose cache
    has no entry in any map for the resolved URL or for any of its
    dependants, and has for every other URL the very entries (the same
    promise and object identifiers) of the old cache; nothing else of the
    heap changes. *)
Theorem fileChanged_invalidates (this : ctxid) (url : string) (h : heap)
    (c : AnalyzerCacheContext) :
  contexts h !! this = Some c →
  let resolvedUrl := _resolveUrl c url in
  let gone : gset string := {[resolvedUrl]} ∪ dependants h c resolvedUrl in
  ∃ c', fileChanged this url h
        = (set_contexts (λ l, l ++ [c']) h, Normal (length (contexts h))) ∧
        _generation c' = _generation c + 1 ∧
        (∀ v, v ∈ gone →
           parsedDocumentPromises (_cache c') !! v = None ∧
           scannedDocumentPromises (_cache c') !! v = None ∧
           dependenciesScanned (_cache c') !! v = None ∧
           analyzedDocumentPromises (_cache c') !! v = None ∧
           scannedDocuments (_cache c') !! v = None ∧
           analyzedDocuments (_cache c') !! v = None) ∧
        (∀ v, v ∉ gone →
           parsedDocumentPromises (_cache c') !! v = parsedDocumentPromises (_cache c) !! v ∧
           scannedDocumentPromises (_cache c') !! v = scannedDocumentPromises (_cache c) !! v ∧
           dependenciesScanned (_cache c') !! v = dependenciesScanned (_cache c) !! v ∧
           analyzedDocumentPromises (_cache c') !! v = analyzedDocumentPromises (_cache c) !! v ∧
           scannedDocuments (_cache c') !! v = scannedDocuments (_cache c) !! v ∧
           analyzedDocuments (_cache c') !! v = analyzedDocuments (_cache c) !! v).
Proof.
  intros Hc resolvedUrl gone. eexists. split; [|split; [|split]].
  - by apply fileChanged_eq.
  - reflexivity.
  - intros v Hv. cbn [_cache onPathChanged parsedDocumentPromises scannedDocumentPromises
      dependenciesScanned analyzedDocumentPromises scannedDocuments analyzedDocuments].
    repeat split; by apply keep_lookup_gone.
  - intros v Hv. cbn [_cache onPathChanged parsedDocumentPromises scannedDocumentPromises
      dependenciesScanned analyzedDocumentPromises scannedDocuments analyzedDocuments].
    repeat split; by apply keep_lookup_kept.
Qed.

Section Parsing.

Variable parse : Parser → string → string → option InlineDocInfo → ParsedDocument + exn.
Variable scan : ParsedDocument → list Scanner → list ScannedFeature + exn.
Variable extname : string → string.

Lemma default_parsers_lookup (type : string) :
  is_Some (default_parsers !! type) ↔ type ∈ ["html"; "js"; "css"; "json"].
Proof.
  split.
  - intros [x Hx]. unfold default_parsers in Hx.
    repeat (apply lookup_insert_Some in Hx as [[<- _]|[_ Hx]]; [by repeat constructor|]).
    apply lookup_singleton_Some in Hx as [<- _]. by repeat constructor.
  - rewrite !elem_of_cons, elem_of_nil. intros [->|[->|[->|[->|[]]]]]; by eexists.
Qed.

Lemma default_scanners_lookup lazyEdges (type : string) :
  is_Some (_getDefaultScanners lazyEdges !! type) ↔ type ∈ ["html"; "js"].
Proof.
  split.
  - intros [x Hx]. unfold _getDefaultScanners in Hx.
    apply lookup_insert_Some in Hx as [[<- _]|[_ Hx]]; [by repeat constructor|].
    apply lookup_singleton_Some in Hx as [<- _]. by repeat constructor.
  - rewrite !elem_of_cons, elem_of_nil. intros [->|[->|[]]]; by eexists.
Qed.

(** C7, amended: with no parsers and no scanners in the options, the
    context has parsers for exactly html, js, css and json and scanners for
    exactly html and js, and parsing a document of type typescript throws
    [NoKnownParserError]. *)
Theorem default_registries (options : Options) :
  parsers options = None → scanners options = None →
  let c := AnalyzerCacheContext_new options in
  (∀ type, is_Some (_parsers c !! type) ↔ type ∈ ["html"; "js"; "css"; "json"]) ∧
  (∀ type, is_Some (_scanners c !! type) ↔ type ∈ ["html"; "js"]) ∧
  (∀ contents url inlineInfo,
     _parseContents parse 0 "typescript" contents url inlineInfo (Analyzer_new options)
     = (Analyzer_new options,
        Thrown (NoKnownParserError "No parser for for file type typescript"))).
Proof.
  intros Hp Hs c. subst c. unfold AnalyzerCacheContext_new. rewrite Hp, Hs. simpl.
  split; [apply default_parsers_lookup|]. split; [apply default_scanners_lookup|].
  intros contents url inlineInfo.
  unfold _parseContents, Analyzer_new, AnalyzerCacheContext_new.
  cbv [bind this_context]. rewrite Hp. reflexivity.
Qed.

End Parsing.

Lemma default_registries_witness :
  parsers Fixture.options = None ∧ scanners Fixture.options = None ∧
  ∀ type, is_Some (_parsers (AnalyzerCacheContext_new Fixture.options) !! type)
          ↔ type ∈ ["html"; "js"; "css"; "json"].
Proof.
  split; [reflexivity|]. split; [reflexivity|].
  apply (default_registries Fixture.parse Fixture.options); reflexivity.
Defined.

(** C7 as stated fails: the default configuration does not parse a
    document of type typescript, it throws [NoKnownParserError]. *)
Lemma typescript_not_parsed :
  (_parseContents Fixture.parse 0 "typescript" "let x: number = 1;" "x.ts" None
     (Analyzer_new Fixture.options)).2
  = Thrown (NoKnownParserError "No parser for for file type typescript").
Proof. reflexivity. Qed.

Section Contents.

Variable parse : Parser → string → string → option InlineDocInfo → ParsedDocument + exn.
Variable scan : ParsedDocument → list Scanner → list ScannedFeature + exn.
Variable extname : string → string.

Lemma settle_fresh_state τ st s :
  st ≠ Pending →
  state_of (s_heap (settle (fresh s) st (alloc τ s))) (fresh s) = Some st.
Proof.
  intros Hst. rewrite settle_heap_eq. unfold settle_heap, alloc, state_of, fresh. simpl.
  rewrite lookup_app_r by lia. rewrite Nat.sub_diag. simpl.
  rewrite list_lookup_alter_eq. rewrite lookup_app_r by lia. by rewrite Nat.sub_diag.
Qed.




End Contents.

Lemma newlineIndexes_from_sorted contents :
  ∀ i, StronglySorted lt (newlineIndexes_from i contents) ∧
       Forall (λ x, i ≤ x) (newlineIndexes_from i contents).
Proof.
  induction contents as [|c rest IH]; intros i; simpl.
  - split; constructor.
  - destruct (IH (S i)) as [Hs Hf]. destruct (decide (c = newline)).
    + split.
      * constructor; [done|]. eapply Forall_impl; [exact Hf|]. simpl. lia.
      * constructor; [lia|]. eapply Forall_impl; [exact Hf|]. simpl. lia.
    + split; [done|]. eapply Forall_impl; [exact Hf|]. simpl. lia.
Qed.

Lemma StronglySorted_lookup_lt (nl : list nat) :
  StronglySorted lt nl →
  ∀ j k a b, j < k → nl !! j = Some a → nl !! k = Some b → a < b.
Proof.
  induction 1 as [|x l Hs IH Hx]; intros j k a b Hjk Ha Hb; [done|].
  destruct k as [|k]; [lia|]. simpl in Hb. destruct j as [|j].
  - simpl in Ha. inversion Ha; subst.
    rewrite Forall_forall in Hx. apply Hx. by eapply list_elem_of_lookup_2.
  - simpl in Ha. eapply IH; [|done..]. lia.
Qed.

Lemma linesLess_cons_lt x nl o : x < o → linesLess (x :: nl) o = S (linesLess nl o).
Proof. intros H. unfold linesLess. rewrite filter_cons. by rewrite decide_True. Qed.

Lemma linesLess_cons_ge x nl o : o ≤ x → linesLess (x :: nl) o = linesLess nl o.
Proof. intros H. unfold linesLess. rewrite filter_cons. rewrite decide_False by lia. done. Qed.

(** [linesLess] is the index that splits the newlines before [o] from the
    others, provided the list conforms to such a split. *)
Lemma linesLess_char (nl : list nat) (o : nat) :
  ∀ L, L ≤ length nl →
       (∀ j a, j < L → nl !! j = Some a → a < o) →
       (∀ j a, L ≤ j → nl !! j = Some a → o ≤ a) →
       linesLess nl o = L.
Proof.
  induction nl as [|x l IH]; intros L HL Hlt Hge.
  - simpl in HL. unfold linesLess. simpl. lia.
  - destruct L as [|L].
    + rewrite linesLess_cons_ge by (apply (Hge 0); [lia|done]).
      apply IH; [lia|intros; lia|]. intros j a _ Ha. apply (Hge (S j)); [lia|done].
    + rewrite linesLess_cons_lt by (apply (Hlt 0); [lia|done]).
      f_equal. apply IH; [simpl in HL; lia| |].
      * intros j a Hj Ha. apply (Hlt (S j)); [lia|done].
      * intros j a Hj Ha. apply (Hge (S j)); [lia|done].
Qed.

Lemma linesLess_spec (nl : list nat) (o : nat) :
  StronglySorted lt nl →
  linesLess nl o ≤ length nl ∧
  (∀ j a, j < linesLess nl o → nl !! j = Some a → a < o) ∧
  (∀ j a, linesLess nl o ≤ j → nl !! j = Some a → o ≤ a).
Proof.
  induction 1 as [|x l Hs IH Hx].
  - unfold linesLess. simpl. split; [lia|]. split; intros; done.
  - destruct IH as (IH1 & IH2 & IH3). destruct (decide (x < o)) as [Hlt|Hge].
    + rewrite linesLess_cons_lt by done. split; [simpl; lia|]. split.
      * intros [|j] a Hj Ha; simpl in Ha; [by inversion Ha; subst|].
        apply (IH2 j); [lia|done].
      * intros [|j] a Hj Ha; [lia|]. simpl in Ha. apply (IH3 j); [lia|done].
    + rewrite linesLess_cons_ge by lia.
      assert (linesLess l o = 0) as ->.
      { destruct (linesLess l o) as [|n] eqn:E; [done|]. exfalso.
        destruct l as [|y l2]; [simpl in IH1; lia|].
        assert (y < o) by (apply (IH2 0); [lia|done]).
        apply Forall_cons in Hx as [Hxy _]. lia. }
      split; [lia|]. split; [intros; lia|].
      intros [|j] a _ Ha; simpl in Ha; [inversion Ha; subst; lia|].
      rewrite Forall_forall in Hx. apply list_elem_of_lookup_2 in Ha.
      specialize (Hx _ Ha). lia.
Qed.

Lemma newlineIndexes_sorted (d : ParsedDocument) : StronglySorted lt (newlineIndexes d).
Proof. apply newlineIndexes_from_sorted. Qed.

Lemma lineStart_linesLess (nl : list nat) (o : nat) :
  StronglySorted lt nl → lineStart nl (linesLess nl o) ≤ o.
Proof.
  intros Hs. destruct (linesLess_spec nl o Hs) as (H1 & H2 & _).
  destruct (linesLess nl o) as [|l] eqn:E; simpl; [lia|].
  destruct (nl !! l) as [i|] eqn:Ei; [|lia].
  specialize (H2 l i ltac:(lia) Ei). lia.
Qed.

(** C9: the two conversions are inverse to each other: an offset into the
    contents is recovered from its position, and a valid position from its
    offset. *)
Theorem position_offset_round_trip (d : ParsedDocument) :
  (∀ offset, valid_offset d offset →
     sourcePositionToOffset d (offsetToSourcePosition d offset) = offset) ∧
  (∀ position, valid_position d position →
     offsetToSourcePosition d (sourcePositionToOffset d position) = position).
Proof.
  pose proof (newlineIndexes_sorted d) as Hs. split.
  - intros offset _. unfold sourcePositionToOffset, offsetToSourcePosition. simpl.
    pose proof (lineStart_linesLess (newlineIndexes d) offset Hs).
    replace (linesLess (newlineIndexes d) offset + offset_line d - offset_line d)
      with (linesLess (newlineIndexes d) offset) by lia.
    lia.
  - intros [line col] (Hl & Hc & HL & Hend). simpl in *.
    unfold sourcePositionToOffset, offsetToSourcePosition. simpl.
    set (L := line - offset_line d) in *. set (C := col - offset_col d) in *.
    set (nl := newlineIndexes d) in *.
    assert (HLL : linesLess nl (lineStart nl L + C) = L).
    { apply linesLess_char; [done| |].
      - intros j a Hj Ha. destruct L as [|L']; [lia|]. simpl.
        destruct (nl !! L') as [i|] eqn:Ei.
        + destruct (decide (j = L')) as [->|Hne].
          * rewrite Ei in Ha. inversion Ha; subst. lia.
          * assert (a < i) by (eapply (StronglySorted_lookup_lt nl Hs j L'); [lia|done..]).
            lia.
        + apply lookup_ge_None in Ei. lia.
      - intros j a Hj Ha. unfold lineEnd in Hend. fold nl in Hend.
        destruct (nl !! L) as [i|] eqn:Ei.
        + destruct (decide (j = L)) as [->|Hne].
          * rewrite Ei in Ha. inversion Ha; subst. lia.
          * assert (i < a) by (eapply (StronglySorted_lookup_lt nl Hs L j); [lia|done..]).
            lia.
        + apply lookup_ge_None in Ei. apply lookup_lt_Some in Ha. lia. }
    rewrite HLL. f_equal; lia.
Qed.

Lemma exec_get_feature {x} (k : ScannedFeature → task) f tgt s :
  features (s_heap s) !! f = Some x →
  exec (Do (get_feature f) k) tgt s = exec (k x) tgt s.
Proof.
  intros H. rewrite exec_Do. unfold get_feature. rewrite H. by rewrite with_heap_same.
Qed.

Section Imports.

Variable parse : Parser → string → string → option InlineDocInfo → ParsedDocument + exn.
Variable scan : ParsedDocument → list Scanner → list ScannedFeature + exn.
Variable extname : string → string.
Variable scan_rec : ctxid → string → option string → option vid → task.
Variable deps_rec : ctxid → sdid → vid → task.

Lemma exec_scanImport (this : ctxid) (c : AnalyzerCacheContext) (scannedImport : fid)
    (i : ScannedImport) (warnings : wid) (visited : vid) (tgt : pid) (s : sched) :
  contexts (s_heap s) !! this = Some c →
  features (s_heap s) !! scannedImport = Some (FImport i) →
  ∃ r : reaction,
    exec (_scanImport scan_rec this scannedImport warnings visited) tgt s
      = subscribe (fresh s) r
          (exec (scan_rec this (_resolveUrl c (si_url i)) None (Some visited)) (fresh s)
             (alloc (scan_result (Some visited)) s)) ∧
    r_target r = tgt ∧
    (∀ msg s', exec (on_err r (NoKnownParserError msg)) tgt s'
               = settle tgt (Fulfilled VNull) s') ∧
    (∀ e s', is_NoKnownParserError e = false →
       exec (on_err r e) tgt s'
       = settle tgt (Fulfilled VNull)
           (with_heap (set_warningArrays
                         (alter (λ ws, ws ++ [could_not_load e i]) warnings) (s_heap s')) s')).
Proof.
  intros Hc Hf. eexists. split; [|split; [|split]].
  - unfold _scanImport. rewrite (exec_get_feature _ _ _ _ Hf).
    rewrite (exec_this_context _ _ _ _ Hc). simpl. reflexivity.
  - reflexivity.
  - intros msg s'. reflexivity.
  - intros e s' He. simpl. rewrite He.
    rewrite exec_Do. unfold warnings_push, modify. simpl. done.
Qed.

(** C3: the failures of the scan of an import. [_scanImport] calls [_scan]
    on the resolved URL and waits. If the scan fails with
    [NoKnownParserError], [_scanImport] returns null and touches nothing;
    on any other failure it appends one warning to the warnings it was
    given, with code could-not-load, severity ERROR and the import's
    [urlSourceRange], or its [sourceRange] if that is missing, and returns
    null as well, so the scan of the importing document goes on. The
    warnings it is given by [_scanDependencies] are those of the importing
    document. *)
Theorem scanImport_failure_handling (this : ctxid) (c : AnalyzerCacheContext)
    (scannedImport : fid) (i : ScannedImport) (warnings : wid) (visited : vid)
    (tgt : pid) (s : sched) :
  contexts (s_heap s) !! this = Some c →
  features (s_heap s) !! scannedImport = Some (FImport i) →
  ∃ r : reaction,
    exec (_scanImport scan_rec this scannedImport warnings visited) tgt s
      = subscribe (fresh s) r
          (exec (scan_rec this (_resolveUrl c (si_url i)) None (Some visited)) (fresh s)
             (alloc (scan_result (Some visited)) s)) ∧
    r_target r = tgt ∧
    (∀ msg s', exec (on_err r (NoKnownParserError msg)) tgt s'
               = settle tgt (Fulfilled VNull) s') ∧
    (∀ e s', is_NoKnownParserError e = false →
       ∃ w, exec (on_err r e) tgt s'
            = settle tgt (Fulfilled VNull)
                (with_heap (set_warningArrays (alter (λ ws, ws ++ [w]) warnings)
                              (s_heap s')) s') ∧
            w_code w = "could-not-load" ∧ w_severity w = ERROR ∧
            w_sourceRange w = match si_urlSourceRange i with
                              | Some r => Some r
                              | None => si_sourceRange i
                              end) ∧
    (∀ sd h, features h !! scannedImport = Some (FImport i) →
             si_type i ≠ "lazy-html-import" →
             scanDependency parse scan scan_rec deps_rec this sd visited h scannedImport
             = Async TNull (_scanImport scan_rec this scannedImport (sd_warnings sd) visited)
                 RetP).
Proof.
  intros Hc Hf.
  destruct (exec_scanImport this c scannedImport i warnings visited tgt s Hc Hf)
    as (r & H1 & H2 & H3 & H4).
  exists r. split; [done|]. split; [done|]. split; [done|]. split.
  - intros e s' He. exists (could_not_load e i). by rewrite H4.
  - intros sd h Hh Hl. unfold scanDependency. rewrite Hh. by rewrite decide_True.
Qed.


End Imports.

(** C8 does not hold of the code. In the project of [Fixture], a.html
    imports b.html and c.html, b.html imports c.html, and c.html is the
    last to load. When only the load of c.html is outstanding, the
    [_scanImport] of b.html's import of c.html has returned (its nested
    [_scan] gave the sentinel, c.html being in the visited set), the
    dependencies of b.html count as scanned, and the import's
    [scannedDocument] is still empty. An [analyze] of b.html issued at that
    point is answered with a resolved Document while the slot is empty and
    c.html is not scanned. *)
Theorem scanImport_completes_before_assignment :
  let s := Fixture.race_before in
  s_queue s = [] ∧ map io_promise (s_io s) = [39] ∧
  Fixture.scanned_urls s = ["a.html"; "b.html"] ∧
  Fixture.import_urls s = [Some "b.html"; Some "c.html"; Some "c.html"] ∧
  Fixture.scanImport_promises s = [(18, Fulfilled VNull); (23, Pending); (46, Fulfilled VNull)] ∧
  Fixture.slots s = [Some 1; None; None] ∧
  Fixture.cached_state dependenciesScanned "b.html" s = Some (Fulfilled VUndefined) ∧
  Fixture.cached_state scannedDocumentPromises "c.html" s = Some Pending ∧
  let r := Fixture.race_after in
  state_of (s_heap r.2) r.1 = Some (Fulfilled (VDocument 0)) ∧
  documents (s_heap r.2)
  = [ {| doc_base := 1; doc_analyzer := 0; doc_begunResolving := true;
         doc_doneResolving := true |} ] ∧
  Fixture.slots r.2 = [Some 1; None; None] ∧
  Fixture.cached_state scannedDocumentPromises "c.html" r.2 = Some Pending.
Proof. vm_compute. repeat split. Qed.

(** * The project of [Fixture], analyzed to the end *)

Lemma missing_import_is_a_warning :
  let r := Fixture.finished "p.html" None in
  state_of (s_heap r.2) r.1 = Some (Fulfilled (VDocument 0)) ∧
  Fixture.scanned_urls r.2 = ["p.html"] ∧
  map (map (λ w, (w_code w, w_severity w))) (warningArrays (s_heap r.2))
  = [[("could-not-load", ERROR)]].
Proof. vm_compute. repeat split. Qed.

Lemma lazy_import_is_not_fetched :
  let r := Fixture.finished "l.html" None in
  state_of (s_heap r.2) r.1 = Some (Fulfilled (VDocument 0)) ∧
  Fixture.import_urls r.2 = [Some "d.html"] ∧
  loaderCalls (s_heap r.2) = ["l.html"] ∧ Fixture.scanned_urls r.2 = ["l.html"].
Proof. vm_compute. repeat split. Qed.

Lemma provided_contents_are_parsed :
  let r := Fixture.finished "d.html" (Some "Z") in
  state_of (s_heap r.2) r.1 = Some (Fulfilled (VDocument 0)) ∧
  loaderCalls (s_heap r.2) = [] ∧
  map (λ d, (sd_url d, pd_contents (sd_document d))) (scannedDocs (s_heap r.2))
  = [("d.html", "Z")] ∧
  map _generation (contexts (s_heap r.2)) = [0; 1] ∧
  analyzer_cacheContext (s_heap r.2) = 1.
Proof. vm_compute. repeat split. Qed.

Lemma diamond_is_analyzed :
  let r := Fixture.finished "a.html" None in
  state_of (s_heap r.2) r.1 = Some (Fulfilled (VDocument 0)) ∧
  loaderCalls (s_heap r.2) = ["a.html"; "b.html"; "c.html"] ∧
  Fixture.slots r.2 = [Some 1; Some 2; Some 2] ∧
  length (documents (s_heap r.2)) = 3.
Proof. vm_compute. repeat split. Qed.

Lemma analyze_twice_same_document :
  let r := Fixture.finished "a.html" None in
  let r' := Fixture.analyze_call "a.html" None r.2 in
  let s' := run 300 r'.2 in
  r'.1 ≠ r.1 ∧
  state_of (s_heap s') r.1 = Some (Fulfilled (VDocument 0)) ∧
  state_of (s_heap s') r'.1 = Some (Fulfilled (VDocument 0)) ∧
  documents (s_heap s') = documents (s_heap r.2) ∧
  loaderCalls (s_heap s') = ["a.html"; "b.html"; "c.html"].
Proof. vm_compute. repeat split. lia. Qed.

Lemma cycle_is_analyzed :
  let r := Fixture.finished "x.html" None in
  state_of (s_heap r.2) r.1 = Some (Fulfilled (VDocument 0)) ∧
  loaderCalls (s_heap r.2) = ["x.html"; "y.html"] ∧
  Fixture.slots r.2 = [Some 1; Some 0] ∧
  length (documents (s_heap r.2)) = 2.
Proof. vm_compute. repeat split. Qed.


Lemma run_microtasks_reachable_from n :
  ∀ s, Freachable_from s (Fixture.run_microtasks n s).
Proof.
  induction n as [|n IH]; intros s; [apply rtc_refl|]. simpl.
  destruct (s_queue s); [apply rtc_refl|].
  destruct (step s) as [s'|] eqn:E; [|apply rtc_refl].
  eapply rtc_l; [by apply turn|apply IH].
Qed.

Lemma analyze_call_reachable_from url contents s :
  Freachable_from s (Fixture.analyze_call url contents s).2.
Proof. apply rtc_once. apply call_analyze. Qed.

Lemma race_before_reachable : Freachable Fixture.race_before.
Proof.
  exists Fixture.options. unfold Fixture.race_before.
  eapply rtc_trans; [apply (analyze_call_reachable_from "a.html" None)|].
  eapply rtc_trans; [apply run_reachable_from|].
  apply run_microtasks_reachable_from.
Qed.

Lemma race_after_reachable : Freachable Fixture.race_after.2.
Proof.
  destruct race_before_reachable as [o Ho]. exists o.
  eapply rtc_trans; [exact Ho|]. unfold Fixture.race_after. cbn [snd].
  eapply rtc_trans; [apply (analyze_call_reachable_from "b.html" None)|].
  apply run_microtasks_reachable_from.
Qed.

Lemma document_constructed_once_witness :
  Freachable Fixture.race_after.2 ∧
  ∀ s' p d, Freachable_from Fixture.race_after.2 s' →
            state_of (s_heap Fixture.race_after.2) p = Some (Fulfilled (VDocument d)) →
            state_of (s_heap s') p = Some (Fulfilled (VDocument d)).
Proof.
  split; [exact race_after_reachable|].
  apply (document_constructed_once Fixture.parse Fixture.scan Fixture.extname
           Fixture.race_after.2 race_after_reachable).
Defined.

Lemma one_entry_per_url_witness :
  Freachable Fixture.race_after.2 ∧
  ∀ i d, documents (s_heap Fixture.race_after.2) !! i = Some d →
         registered (s_heap Fixture.race_after.2) i d.
Proof.
  split; [exact race_after_reachable|].
  apply (one_entry_per_url Fixture.parse Fixture.scan Fixture.extname
           Fixture.race_after.2 race_after_reachable).
Defined.

Lemma top_level_scan_never_visited_witness :
  Freachable Fixture.race_before ∧ s_failed Fixture.race_before = false.
Proof.
  split; [exact race_before_reachable|].
  exact (proj1 (top_level_scan_never_visited Fixture.parse Fixture.scan Fixture.extname
                  Fixture.race_before race_before_reachable)).
Defined.



Lemma scanImport_failure_handling_witness :
  features (s_heap Fixture.one_import) !! 0
  = Some (FImport (Fixture.scanned_import "html-import" "missing.html")) ∧
  ∃ r : reaction,
    r_target r = 7 ∧
    ∀ msg s', exec (on_err r (NoKnownParserError msg)) 7 s' = settle 7 (Fulfilled VNull) s'.
Proof.
  split; [reflexivity|].
  destruct (scanImport_failure_handling Fixture.parse Fixture.scan
              (_scan Fixture.parse Fixture.scan Fixture.extname Fixture.fuel)
              (_scanDependencies Fixture.parse Fixture.scan Fixture.extname Fixture.fuel)
              0 (AnalyzerCacheContext_new Fixture.options) 0
              (Fixture.scanned_import "html-import" "missing.html") 0 0 7 Fixture.one_import
              eq_refl eq_refl) as (r & _ & H2 & H3 & _).
  exists r. by split.
Defined.



Lemma fileChanged_invalidates_witness :
  let h := s_heap (Fixture.finished "a.html" None).2 in
  ∃ c, contexts h !! 0 = Some c ∧
       elements (dependants h c "c.html") = ["a.html"; "b.html"] ∧
       ∃ c', fileChanged 0 "c.html" h
             = (set_contexts (λ l, l ++ [c']) h, Normal 1) ∧
             _generation c' = 1 ∧
             scannedDocuments (_cache c') !! "a.html" = None.
Proof.
  intros h.
  destruct (contexts h !! 0) as [c|] eqn:Hc; [|by vm_compute in Hc].
  exists c. split; [done|].
  split; [vm_compute in Hc; injection Hc as <-; by vm_compute|].
  destruct (fileChanged_invalidates 0 "c.html" h c Hc) as (c' & H1 & H2 & H3 & _).
  exists c'. split; [exact H1|]. split.
  - rewrite H2. vm_compute in Hc. injection Hc as <-. reflexivity.
  - apply H3. vm_compute in Hc. injection Hc as <-. by vm_compute.
Defined.


Lemma position_offset_round_trip_witness :
  valid_offset Fixture.two_lines 4 ∧
  sourcePositionToOffset Fixture.two_lines (offsetToSourcePosition Fixture.two_lines 4) = 4 ∧
  valid_position Fixture.two_lines {| sp_line := 4; sp_column := 3 |} ∧
  offsetToSourcePosition Fixture.two_lines
    (sourcePositionToOffset Fixture.two_lines {| sp_line := 4; sp_column := 3 |})
  = {| sp_line := 4; sp_column := 3 |}.
Proof.
  assert (H1 : valid_offset Fixture.two_lines 4) by (vm_compute; lia).
  assert (H2 : valid_position Fixture.two_lines {| sp_line := 4; sp_column := 3 |})
    by (vm_compute; repeat split; lia).
  split; [exact H1|]. split; [|split; [exact H2|]].
  - by apply (position_offset_round_trip Fixture.two_lines).
  - by apply (position_offset_round_trip Fixture.two_lines).
Defined.

(** * More of the engine *)

(** * Promises of the event loop *)

Lemma state_of_alloc_fresh τ h :
  state_of (alloc_heap τ h) (length (promises h)) = Some Pending.
Proof.
  unfold state_of, alloc_heap. simpl. rewrite lookup_app_r by done.
  by rewrite Nat.sub_diag.
Qed.

Lemma length_promises_alloc τ h :
  length (promises (alloc_heap τ h)) = S (length (promises h)).
Proof. unfold alloc_heap. simpl. rewrite length_app. simpl. lia. Qed.

Lemma state_of_settle_heap_eq p st h :
  state_of h p = Some Pending → state_of (settle_heap p st h) p = Some st.
Proof.
  intros Hp. unfold settle_heap. rewrite Hp. unfold state_of in *. simpl.
  rewrite list_lookup_alter_eq. destruct (promises h !! p); [|done]. done.
Qed.

Lemma state_of_settle_heap_ne p q st h :
  p ≠ q → state_of (settle_heap p st h) q = state_of h q.
Proof.
  intros Hne. unfold settle_heap. destruct (state_of h p) as [[]|]; try done.
  unfold state_of. simpl. by rewrite list_lookup_alter_ne.
Qed.

Lemma state_of_log f h p : state_of (set_loaderCalls f h) p = state_of h p.
Proof. done. Qed.

Lemma loaderCalls_alloc τ h : loaderCalls (alloc_heap τ h) = loaderCalls h.
Proof. done. Qed.

Lemma loaderCalls_settle p st h : loaderCalls (settle_heap p st h) = loaderCalls h.
Proof. unfold settle_heap. by destruct (state_of h p) as [[]|]. Qed.

Lemma subscribe_pending p r s :
  state_of (s_heap s) p = Some Pending →
  subscribe p r s = with_reactions (s_reactions s ++ [(p, r)]) s.
Proof. intros H. unfold subscribe. by rewrite H. Qed.

Lemma subscribe_settled p r st s :
  state_of (s_heap s) p = Some st → st ≠ Pending →
  subscribe p r s = enqueue (reaction_job st r) s.
Proof. intros H Hne. unfold subscribe. rewrite H. by destruct st. Qed.

Lemma settle_pending p st s :
  state_of (s_heap s) p = Some Pending →
  settle p st s
  = with_heap (settle_heap p st (s_heap s))
      (with_reactions (filter (λ pr, pr.1 ≠ p) (s_reactions s))
         (enqueue (flat_map (λ pr, reaction_job st pr.2)
                     (filter (λ pr, pr.1 = p) (s_reactions s))) s)).
Proof. intros H. unfold settle. by rewrite H. Qed.

Lemma run_idle n s : s_queue s = [] → s_io s = [] → run n s = s.
Proof. intros Hq Hio. destruct n; [done|]. simpl. unfold step. by rewrite Hq, Hio. Qed.


Lemma run_S n s : run (S n) s = match step s with Some s' => run n s' | None => s end.
Proof. reflexivity. Qed.

Lemma step_job j q s :
  s_queue s = j :: q → step s = Some (exec (j_task j) (j_target j) (with_queue q s)).
Proof. intros H. unfold step. by rewrite H. Qed.

Lemma step_io r s :
  s_queue s = [] → earliest (s_io s) = Some r →
  step s = Some (settle (io_promise r) (io_state r)
                   (with_io (filter (λ r', io_promise r' ≠ io_promise r) (s_io s))
                      (max (s_clock s) (io_deadline r)) s)).
Proof. intros Hq Hr. unfold step. by rewrite Hq, Hr. Qed.

Lemma step_idle s : s_queue s = [] → s_io s = [] → step s = None.
Proof. intros Hq Hio. unfold step. by rewrite Hq, Hio. Qed.

(** A settled promise travels along a chain of two adoptions: the promise
    [p2] of a load, awaited by the function whose promise is [p1], awaited in
    turn for [p0]. *)
Lemma run_load_chain (h : heap) (p0 p1 p2 : pid) (req : io_request) (clock : nat)
    (fl : bool) (k : nat) :
  p0 ≠ p1 → p1 ≠ p2 → p0 ≠ p2 →
  state_of h p0 = Some Pending → state_of h p1 = Some Pending →
  state_of h p2 = Some Pending → io_promise req = p2 →
  let st := io_state req in
  run (S (S (S (S k))))
    {| s_heap := h;
       s_reactions := [(p2, {| on_ok := λ content, Ret content; on_err := Throw;
                               r_target := p1 |})];
       s_queue := [ {| j_task := Await p1 Ret Throw; j_target := p0 |} ];
       s_io := [req]; s_clock := clock; s_failed := fl |}
  = {| s_heap := settle_heap p0 st (settle_heap p1 st (settle_heap p2 st h));
       s_reactions := []; s_queue := []; s_io := [];
       s_clock := max clock (io_deadline req); s_failed := fl |}.
Proof.
  intros H01 H12 H02 H0 H1 H2 Hreq st.
  (* first turn: [p0] waits for [p1] *)
  rewrite run_S. erewrite step_job by reflexivity. sched_simpl. cbn [exec].
  rewrite subscribe_pending by exact H1. sched_simpl.
  (* second turn: the load completes *)
  rewrite run_S. rewrite (step_io req) by reflexivity. sched_simpl. rewrite Hreq.
  rewrite filter_cons, decide_False by (rewrite Hreq; intros H; by apply H).
  rewrite filter_nil.
  rewrite settle_pending by exact H2. sched_simpl.
  rewrite !filter_cons. sched_simpl.
  rewrite (decide_True (P := p2 = p2)) by done.
  rewrite (decide_False (P := p1 = p2)) by done.
  rewrite (decide_False (P := p2 ≠ p2)) by (intros H; by apply H).
  rewrite (decide_True (P := p1 ≠ p2)) by done.
  rewrite !filter_nil. sched_simpl. fold st.
  assert (H1' : state_of (settle_heap p2 st h) p1 = Some Pending)
    by (by rewrite state_of_settle_heap_ne).
  assert (H0' : state_of (settle_heap p1 st (settle_heap p2 st h)) p0 = Some Pending)
    by (by rewrite !state_of_settle_heap_ne).
  (* third and fourth turn: the outcome travels to [p0] *)
  assert (Hst : (∃ v, st = Fulfilled v) ∨ (∃ e, st = Rejected e)).
  { subst st. unfold io_state. destruct (io_result req); [left|right]; by eexists. }
  clearbody st. destruct Hst as [[v ->]|[e ->]]; sched_simpl.
  - rewrite run_S. erewrite step_job by reflexivity. sched_simpl. cbn [exec].
    rewrite settle_pending by exact H1'. sched_simpl.
    rewrite !filter_cons. sched_simpl.
    rewrite (decide_True (P := p1 = p1)) by done.
    rewrite (decide_False (P := p1 ≠ p1)) by (intros H; by apply H).
    rewrite !filter_nil. sched_simpl.
    rewrite run_S. erewrite step_job by reflexivity. sched_simpl. cbn [exec].
    rewrite settle_pending by exact H0'. sched_simpl.
    rewrite !filter_nil. sched_simpl.
    by rewrite run_idle.
  - rewrite run_S. erewrite step_job by reflexivity. sched_simpl. cbn [exec].
    rewrite settle_pending by exact H1'. sched_simpl.
    rewrite !filter_cons. sched_simpl.
    rewrite (decide_True (P := p1 = p1)) by done.
    rewrite (decide_False (P := p1 ≠ p1)) by (intros H; by apply H).
    rewrite !filter_nil. sched_simpl.
    rewrite run_S. erewrite step_job by reflexivity. sched_simpl. cbn [exec].
    rewrite settle_pending by exact H0'. sched_simpl.
    rewrite !filter_nil. sched_simpl.
    by rewrite run_idle.
Qed.

(** The promise [p1] of a function that has thrown, awaited for [p0]. *)
Lemma run_rejected_chain (h : heap) (p0 p1 : pid) (e : exn) (clock : nat) (fl : bool)
    (k : nat) :
  state_of h p0 = Some Pending → state_of h p1 = Some (Rejected e) →
  run (S (S k))
    {| s_heap := h; s_reactions := [];
       s_queue := [ {| j_task := Await p1 Ret Throw; j_target := p0 |} ];
       s_io := []; s_clock := clock; s_failed := fl |}
  = {| s_heap := settle_heap p0 (Rejected e) h;
       s_reactions := []; s_queue := []; s_io := []; s_clock := clock; s_failed := fl |}.
Proof.
  intros H0 H1.
  rewrite run_S. erewrite step_job by reflexivity. sched_simpl. cbn [exec].
  rewrite (subscribe_settled _ _ (Rejected e)) by done. sched_simpl.
  rewrite run_S. erewrite step_job by reflexivity. sched_simpl. cbn [exec].
  rewrite settle_pending by exact H0. sched_simpl. rewrite !filter_nil. sched_simpl.
  by rewrite run_idle.
Qed.

Section Load.
Variable parse : Parser → string → string → option InlineDocInfo → ParsedDocument + exn.
Variable scan : ParsedDocument → list Scanner → list ScannedFeature + exn.
Variable extname : string → string.

Lemma call_load_asked (url : string) (h0 : heap) (clock : nat) (fl : bool)
    (c : AnalyzerCacheContext) :
  contexts h0 !! analyzer_cacheContext h0 = Some c →
  ul_canLoad (_loader c) url = true →
  let n := length (promises h0) in
  call TString (Analyzer_load url None)
    {| s_heap := h0; s_reactions := []; s_queue := []; s_io := []; s_clock := clock;
       s_failed := fl |}
  = (n, {| s_heap := set_loaderCalls (λ ls, ls ++ [url])
                       (alloc_heap TString (alloc_heap TString (alloc_heap TString h0)));
           s_reactions := [(S (S n), {| on_ok := λ content, Ret content; on_err := Throw;
                                        r_target := S n |})];
           s_queue := [ {| j_task := Await (S n) Ret Throw; j_target := n |} ];
           s_io := [ {| io_deadline := clock + ul_latency (_loader c) url;
                        io_promise := S (S n);
                        io_result := ul_load (_loader c) url |} ];
           s_clock := clock; s_failed := fl |}).
Proof.
  intros Hc Hl n.
  unfold call, Analyzer_load. f_equal. rewrite exec_Do. cbv [get]. cbv beta iota.
  cbn [exec]. unfold load at 1. rewrite (exec_this_context (c:=c)) by done.
  rewrite Hl. cbn [negb]. cbn [exec].
  unfold alloc, fresh, add_io. sched_simpl.
  rewrite !length_promises_alloc. fold n.
  rewrite subscribe_pending.
  2:{ sched_simpl. rewrite state_of_log.
      replace (S (S n)) with (length (promises (alloc_heap TString (alloc_heap TString h0))))
        by (subst n; by rewrite !length_promises_alloc).
      apply state_of_alloc_fresh. }
  reflexivity.
Qed.

Lemma call_load_refused (url : string) (h0 : heap) (clock : nat) (fl : bool)
    (c : AnalyzerCacheContext) :
  contexts h0 !! analyzer_cacheContext h0 = Some c →
  ul_canLoad (_loader c) url = false →
  let n := length (promises h0) in
  call TString (Analyzer_load url None)
    {| s_heap := h0; s_reactions := []; s_queue := []; s_io := []; s_clock := clock;
       s_failed := fl |}
  = (n, {| s_heap := settle_heap (S n) (Rejected (Error ("Can't load URL: " +:+ url)))
                       (alloc_heap TString (alloc_heap TString h0));
           s_reactions := [];
           s_queue := [ {| j_task := Await (S n) Ret Throw; j_target := n |} ];
           s_io := []; s_clock := clock; s_failed := fl |}).
Proof.
  intros Hc Hl n.
  unfold call, Analyzer_load. f_equal. rewrite exec_Do. cbv [get]. cbv beta iota.
  cbn [exec]. unfold load at 1. rewrite (exec_this_context (c:=c)) by done.
  rewrite Hl. cbn [negb]. cbn [exec].
  unfold alloc, fresh. sched_simpl.
  rewrite !length_promises_alloc. fold n.
  rewrite settle_pending.
  2:{ sched_simpl. subst n. rewrite <- (length_promises_alloc TString h0).
      apply state_of_alloc_fresh. }
  sched_simpl. rewrite !filter_nil. reflexivity.
Qed.

(** X11: [Analyzer.load] on an analyzer with nothing in flight settles
    within four turns of the event loop and leaves nothing behind.  If the
    loader can load the URL, the loader is asked exactly once and the
    promise is fulfilled with the text it gives or rejected with its
    error; if it cannot, the loader is not asked and the promise is
    rejected with ["Can't load URL: "] followed by the URL as given. *)
Theorem load_on_idle_analyzer (url : string) (s : sched) (c : AnalyzerCacheContext) :
  contexts (s_heap s) !! analyzer_cacheContext (s_heap s) = Some c →
  s_queue s = [] → s_io s = [] → s_reactions s = [] →
  let r := call TString (Analyzer_load url None) s in
  ∀ n, 4 ≤ n →
    let s' := run n r.2 in
    s_queue s' = [] ∧ s_io s' = [] ∧ s_reactions s' = [] ∧
    (if ul_canLoad (_loader c) url
     then loaderCalls (s_heap s') = loaderCalls (s_heap s) ++ [url] ∧
          state_of (s_heap s') r.1
          = Some (match ul_load (_loader c) url with
                  | inl text => Fulfilled (VString text)
                  | inr e => Rejected e
                  end)
     else loaderCalls (s_heap s') = loaderCalls (s_heap s) ∧
          state_of (s_heap s') r.1
          = Some (Rejected (Error ("Can't load URL: " +:+ url)))).
Proof.
  intros Hc Hq Hio Hr r k Hk s'. subst s' r.
  destruct s as [h0 rs q io clock fl]. cbn [s_heap s_queue s_io s_reactions] in Hc, Hq, Hio, Hr.
  subst rs q io. cbn [s_heap].
  do 4 (destruct k as [|k]; [lia|]). clear Hk.
  set (n := length (promises h0)).
  assert (Hn0 : state_of (alloc_heap TString (alloc_heap TString h0)) n = Some Pending).
  { apply state_of_alloc_heap. apply state_of_alloc_fresh. }
  assert (Hn1 : state_of (alloc_heap TString (alloc_heap TString h0)) (S n) = Some Pending).
  { subst n. rewrite <- (length_promises_alloc TString h0). apply state_of_alloc_fresh. }
  destruct (ul_canLoad (_loader c) url) eqn:Hl.
  - rewrite (call_load_asked url h0 clock fl c Hc Hl). fold n. cbn [fst snd].
    rewrite run_load_chain; [| lia | lia | lia | | | | reflexivity ].
    + sched_simpl. split; [done|]. split; [done|]. split; [done|]. split.
      * by rewrite !loaderCalls_settle.
      * rewrite state_of_settle_heap_eq; [done|].
        rewrite !state_of_settle_heap_ne by lia. rewrite state_of_log.
        by apply state_of_alloc_heap.
    + rewrite state_of_log. by apply state_of_alloc_heap.
    + rewrite state_of_log. by apply state_of_alloc_heap.
    + rewrite state_of_log.
      replace (S (S n)) with (length (promises (alloc_heap TString (alloc_heap TString h0))))
        by (subst n; by rewrite !length_promises_alloc).
      apply state_of_alloc_fresh.
  - rewrite (call_load_refused url h0 clock fl c Hc Hl). fold n. cbn [fst snd].
    rewrite (run_rejected_chain _ n (S n) (Error ("Can't load URL: " +:+ url)) clock fl
               (S (S k))).
    + sched_simpl. split; [done|]. split; [done|]. split; [done|]. split.
      * by rewrite !loaderCalls_settle.
      * rewrite state_of_settle_heap_eq; [done|].
        by rewrite state_of_settle_heap_ne by lia.
    + by rewrite state_of_settle_heap_ne by lia.
    + by apply state_of_settle_heap_eq.
Qed.
End Load.

Section MoreOfTheEngine.

Variable parse : Parser → string → string → option InlineDocInfo → ParsedDocument + exn.
Variable scan : ParsedDocument → list Scanner → list ScannedFeature + exn.
Variable extname : string → string.

(** X1: in every state a run of the event loop reaches, a fulfilled promise
    stored in one of the promise caches holds a value of the kind of that
    cache: a ParsedDocument in [parsedDocumentPromises], a ScannedDocument
    in [scannedDocumentPromises] (never the ['visited'] sentinel or null),
    [undefined] in [dependenciesScanned], a Document in
    [analyzedDocumentPromises]. *)
Theorem cached_promises_hold_their_kind (s : sched) :
  reachable parse scan extname s →
  ∀ this c u p v,
    contexts (s_heap s) !! this = Some c →
    state_of (s_heap s) p = Some (Fulfilled v) →
    (parsedDocumentPromises (_cache c) !! u = Some p → ∃ d, v = VParsed d) ∧
    (scannedDocumentPromises (_cache c) !! u = Some p → ∃ sd, v = VScanned sd) ∧
    (dependenciesScanned (_cache c) !! u = Some p → v = VUndefined) ∧
    (analyzedDocumentPromises (_cache c) !! u = Some p → ∃ d, v = VDocument d).
Proof.
  intros Hreach this c u p v Hc Hst.
  destruct (reachable_inv _ _ _ _ Hreach) as [_ [HC _] Ht _ _ _].
  destruct (HC _ _ Hc) as (H1 & H2 & H3 & H4).
  unfold state_of in Hst. destruct (promises (s_heap s) !! p) as [pr|] eqn:Hp; [|done].
  simpl in Hst. injection Hst as Hst.
  pose proof (Ht p pr v Hp Hst) as Hv.
  assert (Hτ : type_of (s_heap s) p = Some (p_type pr)) by (unfold type_of; by rewrite Hp).
  repeat split; intros Hu.
  - apply H1 in Hu. rewrite Hu in Hτ. injection Hτ as Hτ. by rewrite <- Hτ in Hv.
  - apply H2 in Hu. rewrite Hu in Hτ. injection Hτ as Hτ. by rewrite <- Hτ in Hv.
  - apply H3 in Hu. rewrite Hu in Hτ. injection Hτ as Hτ. by rewrite <- Hτ in Hv.
  - apply H4 in Hu. rewrite Hu in Hτ. injection Hτ as Hτ. by rewrite <- Hτ in Hv.
Qed.

(** X2: a failed analysis is cached like a successful one.  Once the
    promise stored in [analyzedDocumentPromises] for a URL is rejected, it
    stays rejected with the same error whatever the event loop and later
    calls do, and every later [analyze] of that URL on that context, with
    or without contents, only awaits that promise: nothing is loaded,
    parsed or scanned again. *)
Theorem failed_analysis_is_cached (s : sched) :
  reachable parse scan extname s →
  ∀ this c url p e,
    contexts (s_heap s) !! this = Some c →
    analyzedDocumentPromises (_cache c) !! _resolveUrl c url = Some p →
    state_of (s_heap s) p = Some (Rejected e) →
    ∀ s', reachable_from parse scan extname s s' →
      state_of (s_heap s') p = Some (Rejected e) ∧
      ∀ fuel contents tgt,
        exec (analyze parse scan extname fuel this url contents) tgt s'
        = enqueue [ {| j_task := Await p Ret Throw; j_target := tgt |} ] s'.
Proof.
  intros Hreach this c url p e Hc Hp Hst s' Hr.
  pose proof (reachable_inv _ _ _ _ Hreach) as Hinv.
  destruct (reachable_from_inv _ _ _ _ _ Hinv Hr) as [_ (_ & HS & HC & _)].
  split; [by apply HS|].
  intros fuel contents tgt.
  destruct (HC _ _ Hc) as (c' & Hc' & Hs & Ha & _).
  unfold analyze. rewrite (exec_this_context _ _ _ _ Hc').
  rewrite (same_settings_resolveUrl _ _ _ Hs).
  by rewrite (lookup_weaken _ _ _ _ Hp Ha).
Qed.


Section OpenCalls.

Variable scan_rec : ctxid → string → option string → option vid → task.
Variable deps_rec : ctxid → sdid → vid → task.

(** X3: [_scanInlineDocument] scans the contents of the inline document
    under the URL of the containing document, with the location offset of
    the inline document and the containing URL as its file name.  When that
    scan succeeds the ScannedDocument is stored in the [scannedDocument]
    slot of the inline document and returned; a WarningCarryingException is
    turned into a warning pushed onto the warnings of the containing
    document and [null] is returned; any other error is thrown again. *)
Theorem scanInlineDocument_outcomes (this : ctxid) (inlineDoc : fid)
    (d : ScannedInlineDocument) (containingDocument : ParsedDocument)
    (warnings : wid) (visited : vid) (tgt : pid) (s : sched) :
  features (s_heap s) !! inlineDoc = Some (FInlineDocument d) →
  ∃ r : reaction,
    exec (_scanInlineDocument parse scan deps_rec this inlineDoc containingDocument
            warnings visited) tgt s
    = subscribe (fresh s) r
        (exec (_scanInlineSource parse scan deps_rec this (sid_type d) (sid_contents d)
                 (pd_url containingDocument) visited
                 (Some {| idi_locationOffset :=
                            Some {| lo_line := lo_line (sid_locationOffset d);
                                    lo_col := lo_col (sid_locationOffset d);
                                    lo_filename := Some (pd_url containingDocument) |};
                          idi_astNode := sid_astNode d |})
                 (sid_attachedComment d))
           (fresh s) (alloc TScannedDocument s)) ∧
    r_target r = tgt ∧
    (∀ sd s', exec (on_ok r (VScanned sd)) tgt s'
              = settle tgt (Fulfilled (VScanned sd))
                  (with_heap (set_features (alter (set_scannedDocument_slot sd) inlineDoc)
                                (s_heap s')) s')) ∧
    (∀ w s', exec (on_err r (WarningCarryingException w)) tgt s'
             = settle tgt (Fulfilled VNull)
                 (with_heap (set_warningArrays (alter (λ ws, ws ++ [w]) warnings)
                               (s_heap s')) s')) ∧
    (∀ e s', is_WarningCarryingException e = None →
             exec (on_err r e) tgt s' = settle tgt (Rejected e) s').
Proof.
  intros Hf. eexists. split; [|split; [|split; [|split]]].
  - unfold _scanInlineDocument. rewrite (exec_get_feature _ _ _ _ Hf). cbn [exec].
    reflexivity.
  - reflexivity.
  - intros sd s'. cbn [on_ok]. rewrite exec_Do. reflexivity.
  - intros w s'. cbn [on_err is_WarningCarryingException]. rewrite exec_Do. reflexivity.
  - intros e s' He. cbn [on_err]. rewrite He. reflexivity.
Qed.

Lemma set_cache_id (f : AnalysisCache → AnalysisCache) (c : AnalyzerCacheContext) :
  f (_cache c) = _cache c → set_cache f c = c.
Proof. intros H. unfold set_cache. rewrite H. by destruct c. Qed.

Lemma set_contexts_id (f : list AnalyzerCacheContext → list AnalyzerCacheContext) (h : heap) :
  f (contexts h) = contexts h → set_contexts f h = h.
Proof. intros H. unfold set_contexts. rewrite H. by destruct h. Qed.

Lemma alter_id_at {A} (f : A → A) (l : list A) (i : nat) (x : A) :
  l !! i = Some x → f x = x → alter f i l = l.
Proof.
  intros Hx Hf. apply list_eq. intros j. destruct (decide (i = j)) as [<-|Hne].
  - rewrite list_lookup_alter_eq, Hx. simpl. by rewrite Hf.
  - by rewrite list_lookup_alter_ne.
Qed.

(** X4: the dependencies of a top level document are scanned at most once
    per context.  If [dependenciesScanned] holds a promise for the URL of
    the document, [_scanDependenciesOfToplevelDoc] only awaits it and never
    calls [_scanDependencies]; otherwise it calls [_scanDependencies] once
    and records the promise of that call under the URL in the same
    synchronous run. *)
Theorem dependencies_scanned_once (this : ctxid) (c : AnalyzerCacheContext)
    (scannedDocument : sdid) (sd : ScannedDocument) (visited : vid) (tgt : pid)
    (s : sched) :
  contexts (s_heap s) !! this = Some c →
  scannedDocs (s_heap s) !! scannedDocument = Some sd →
  (∀ q, dependenciesScanned (_cache c) !! sd_url sd = Some q →
        exec (_scanDependenciesOfToplevelDoc deps_rec this scannedDocument visited) tgt s
        = subscribe q {| on_ok := λ _, RetP q; on_err := Throw; r_target := tgt |} s) ∧
  (dependenciesScanned (_cache c) !! sd_url sd = None →
     let s1 := exec (deps_rec this scannedDocument visited) (fresh s) (alloc TVoid s) in
     exec (_scanDependenciesOfToplevelDoc deps_rec this scannedDocument visited) tgt s
     = subscribe (fresh s)
         {| on_ok := λ _, RetP (fresh s); on_err := Throw; r_target := tgt |}
         (with_heap
            (set_contexts
               (alter (set_cache (set_dependenciesScanned <[sd_url sd := fresh s]>)) this)
               (s_heap s1)) s1)).
Proof.
  intros Hc Hsd. split.
  - intros q Hq. unfold _scanDependenciesOfToplevelDoc.
    rewrite exec_Do. unfold get_scannedDoc. rewrite Hsd. rewrite with_heap_same.
    rewrite exec_Do. unfold this_cache. cbv [bind this_context ret]. rewrite Hc.
    cbv beta iota. rewrite with_heap_same. rewrite Hq.
    rewrite exec_Do. unfold update_cache, modify.
    rewrite set_contexts_id; [by rewrite with_heap_same|].
    eapply alter_id_at; [exact Hc|]. apply set_cache_id.
    unfold set_dependenciesScanned. rewrite insert_id by done. by destruct (_cache c).
  - intros Hn s1. unfold _scanDependenciesOfToplevelDoc.
    rewrite exec_Do. unfold get_scannedDoc. rewrite Hsd. rewrite with_heap_same.
    rewrite exec_Do. unfold this_cache. cbv [bind this_context ret]. rewrite Hc.
    cbv beta iota. rewrite with_heap_same. rewrite Hn.
    cbn [exec]. rewrite exec_Do. unfold update_cache, modify. cbn [exec]. reflexivity.
Qed.

End OpenCalls.

(** X5: [_scan] of a URL whose scan is already cached ignores the
    contents it is given: it behaves as without contents, creates no
    promise, changes no cache, asks the loader nothing and starts no load;
    while the cached promise is pending it schedules nothing either. *)
Theorem scan_of_cached_url (fuel : nat) (this : ctxid) (c : AnalyzerCacheContext)
    (resolvedUrl : string) (contents : option string) (p : pid) (tgt : pid) (s : sched) :
  contexts (s_heap s) !! this = Some c →
  scannedDocumentPromises (_cache c) !! resolvedUrl = Some p →
  let s' := exec (_scan parse scan extname (S fuel) this resolvedUrl contents None) tgt s in
  s' = exec (_scan parse scan extname (S fuel) this resolvedUrl None None) tgt s ∧
  promises (s_heap s') = promises (s_heap s) ∧
  contexts (s_heap s') = contexts (s_heap s) ∧
  loaderCalls (s_heap s') = loaderCalls (s_heap s) ∧
  s_io s' = s_io s ∧
  (state_of (s_heap s) p = Some Pending → s_queue s' = s_queue s).
Proof.
  intros Hc Hp s'. subst s'. cbn [_scan]. unfold _scan_body.
  rewrite !exec_Do. cbv [ret]. cbv beta iota. rewrite !exec_Do.
  unfold new_Set. cbv beta iota. rewrite !exec_Do. unfold Set_add, modify. cbv beta iota.
  rewrite !exec_Do. unfold this_cache. cbv [bind this_context ret].
  cbn [s_heap with_heap contexts set_visitedSets]. rewrite Hc. cbv beta iota.
  rewrite Hp. cbn [exec]. split; [done|].
  rewrite !subscribe_heap. cbn [s_heap with_heap]. repeat split.
  - unfold subscribe. cbn [s_heap with_heap].
    by destruct (state_of _ p) as [[]|].
  - intros Hpend. unfold subscribe. cbn [s_heap with_heap].
    unfold state_of in *. cbn [promises set_visitedSets].
    destruct (promises (s_heap s) !! p) as [pr|]; [|done]. simpl in *.
    injection Hpend as ->. done.
Qed.


Lemma exec_Yield (k : task) (tgt : pid) (s : sched) :
  exec (Yield k) tgt s
  = enqueue [ {| j_task := k; j_target := tgt |} ]
      (with_heap (set_promises (λ ps, ps ++ [ {| p_type := TVoid;
                                                  p_state := Fulfilled VUndefined |} ])
                    (s_heap s)) s).
Proof.
  unfold Yield. rewrite exec_Do. cbn [Promise_resolve]. cbn [exec].
  unfold subscribe, state_of. cbn [s_heap with_heap promises set_promises].
  rewrite lookup_app_r by lia. rewrite Nat.sub_diag. reflexivity.
Qed.

(** What a first [analyze] of a URL leaves behind: two promises, the entry,
    and two jobs. *)
Lemma exec_analyze_uncached fuel this c url contents tgt s :
  contexts (s_heap s) !! this = Some c →
  analyzedDocumentPromises (_cache c) !! _resolveUrl c url = None →
  ∃ j1 j2,
    exec (analyze parse scan extname fuel this url contents) tgt s
    = enqueue [j2]
        (with_heap
           (set_contexts
              (alter (set_cache (set_analyzedDocumentPromises
                                   <[_resolveUrl c url := fresh s]>)) this)
              (set_promises (λ ps, ps ++ [ {| p_type := TVoid;
                                              p_state := Fulfilled VUndefined |} ])
                 (alloc_heap TDocument (s_heap s))))
           (enqueue [j1] s)) ∧
    j_target j1 = fresh s ∧ j2 = {| j_task := Await (fresh s) Ret Throw; j_target := tgt |}.
Proof.
  intros Hc Hn. eexists _, _. split; [|split; [|reflexivity]].
  - unfold analyze. rewrite (exec_this_context _ _ _ _ Hc). rewrite Hn.
    cbn [exec]. rewrite exec_Yield. rewrite exec_Do. unfold update_cache, modify.
    cbn [exec]. reflexivity.
  - reflexivity.
Qed.

(** X6: [Analyzer.clearCaches] replaces the context of the analyzer by a
    new one with the same parsers, scanners, loader, resolver and lazy
    edges, an empty cache and the next generation.  An [analyze] that
    follows stores a promise that did not exist before in the new context
    and leaves it pending; the old context is still in the store
    unchanged. *)
Theorem clearCaches_forces_reanalysis (fuel : nat) (url : string) (tgt : pid) (s : sched)
    (c : AnalyzerCacheContext) :
  contexts (s_heap s) !! analyzer_cacheContext (s_heap s) = Some c →
  let old := analyzer_cacheContext (s_heap s) in
  let new := length (contexts (s_heap s)) in
  let h1 := (Analyzer_clearCaches (s_heap s)).1 in
  h1 = set_analyzer_cacheContext new
         (set_contexts
            (λ l, l ++ [ {| _parsers := _parsers c; _lazyEdges := _lazyEdges c;
                            _scanners := _scanners c; _loader := _loader c;
                            _resolver := _resolver c; _cache := new_AnalysisCache;
                            _generation := _generation c + 1 |} ]) (s_heap s)) ∧
  let s2 := exec (Analyzer_analyze parse scan extname fuel url None) tgt (with_heap h1 s) in
  analyzer_cacheContext (s_heap s2) = new ∧
  contexts (s_heap s2) !! old = Some c ∧
  (∃ c2, contexts (s_heap s2) !! new = Some c2 ∧
         analyzedDocumentPromises (_cache c2) !! _resolveUrl c url = Some (S (fresh s))) ∧
  promises (s_heap s) !! S (fresh s) = None ∧
  state_of (s_heap s2) (S (fresh s)) = Some Pending.
Proof.
  intros Hc old new h1.
  assert (Hold : old < length (contexts (s_heap s))) by (by eapply lookup_lt_Some).
  assert (H1 : h1 = set_analyzer_cacheContext new
         (set_contexts
            (λ l, l ++ [ {| _parsers := _parsers c; _lazyEdges := _lazyEdges c;
                            _scanners := _scanners c; _loader := _loader c;
                            _resolver := _resolver c; _cache := new_AnalysisCache;
                            _generation := _generation c + 1 |} ]) (s_heap s))).
  { subst h1. unfold Analyzer_clearCaches, clearCaches, _fork.
    cbv [bind get this_context new_context ret modify]. rewrite Hc.
    cbv beta iota. reflexivity. }
  split; [exact H1|]. intros s2.
  set (c1 := {| _parsers := _parsers c; _lazyEdges := _lazyEdges c;
                _scanners := _scanners c; _loader := _loader c;
                _resolver := _resolver c; _cache := new_AnalysisCache;
                _generation := _generation c + 1 |}) in *.
  assert (Hc1 : contexts (s_heap (alloc TDocument (with_heap h1 s))) !! new = Some c1).
  { rewrite H1. simpl. rewrite lookup_app_r by done. by rewrite Nat.sub_diag. }
  destruct (exec_analyze_uncached fuel new c1 url None (fresh (with_heap h1 s))
              (alloc TDocument (with_heap h1 s)) Hc1) as (j1 & j2 & He & _); [done|].
  assert (Hs2 : s2 = enqueue [ {| j_task := Await (fresh (with_heap h1 s)) Ret Throw;
                                  j_target := tgt |} ]
                       (exec (analyze parse scan extname fuel new url None)
                          (fresh (with_heap h1 s)) (alloc TDocument (with_heap h1 s)))).
  { subst s2. unfold Analyzer_analyze. rewrite exec_Do. cbv [ret]. cbv beta iota.
    rewrite exec_Do. cbv [get]. cbv beta iota. cbn [exec].
    rewrite H1. reflexivity. }
  rewrite Hs2, He. clear Hs2 He.
  assert (Hfr : fresh (alloc TDocument (with_heap h1 s)) = S (fresh s)).
  { rewrite H1. unfold fresh. simpl. rewrite length_app. simpl. lia. }
  rewrite Hfr. rewrite H1. cbn [s_heap enqueue with_heap with_queue]. simpl.
  split; [done|]. split; [|split; [|split]].
  - rewrite list_lookup_alter_ne by (unfold new; lia).
    by rewrite lookup_app_l.
  - eexists. split.
    + rewrite list_lookup_alter_eq. rewrite lookup_app_r by done.
      rewrite Nat.sub_diag. reflexivity.
    + simpl. unfold c1, _resolveUrl. simpl. by rewrite lookup_insert_eq.
  - apply lookup_ge_None. unfold fresh. lia.
  - unfold state_of. simpl. unfold fresh.
    rewrite lookup_app_l by (rewrite !length_app; simpl; lia).
    rewrite lookup_app_r by (rewrite !length_app; simpl; lia).
    rewrite length_app. simpl.
    replace (S (length (promises (s_heap s))) - (length (promises (s_heap s)) + 1)) with 0 by lia.
    reflexivity.
Qed.


(** X7: [Analyzer.analyze] does no work in the turn in which it is
    called, with or without contents: the loader is not asked, no load is
    started, no reaction is registered, no feature, ScannedDocument or
    Document is created, no existing promise changes its state, and every
    context other than the one the analyzer ends up with is untouched. *)
Theorem analyze_defers_all_work (fuel : nat) (url : string) (contents : option string)
    (tgt : pid) (s : sched) (c : AnalyzerCacheContext) :
  contexts (s_heap s) !! analyzer_cacheContext (s_heap s) = Some c →
  let s' := exec (Analyzer_analyze parse scan extname fuel url contents) tgt s in
  loaderCalls (s_heap s') = loaderCalls (s_heap s) ∧
  s_io s' = s_io s ∧
  s_reactions s' = s_reactions s ∧
  features (s_heap s') = features (s_heap s) ∧
  scannedDocs (s_heap s') = scannedDocs (s_heap s) ∧
  documents (s_heap s') = documents (s_heap s) ∧
  (∀ p st, state_of (s_heap s) p = Some st → state_of (s_heap s') p = Some st) ∧
  (∀ i c0, contexts (s_heap s) !! i = Some c0 →
           i ≠ analyzer_cacheContext (s_heap s') → contexts (s_heap s') !! i = Some c0).
Proof.
  intros Hc s'.
  assert (Hold : analyzer_cacheContext (s_heap s) < length (contexts (s_heap s)))
    by (by eapply lookup_lt_Some).
  (* the heap and the context the analysis starts on *)
  assert (∃ h1 c1,
            s' = enqueue [ {| j_task := Await (fresh (with_heap h1 s)) Ret Throw;
                              j_target := tgt |} ]
                   (exec (analyze parse scan extname fuel (analyzer_cacheContext h1) url
                            contents)
                      (fresh (with_heap h1 s)) (alloc TDocument (with_heap h1 s))) ∧
            contexts h1 !! analyzer_cacheContext h1 = Some c1 ∧
            promises h1 = promises (s_heap s) ∧ loaderCalls h1 = loaderCalls (s_heap s) ∧
            features h1 = features (s_heap s) ∧ scannedDocs h1 = scannedDocs (s_heap s) ∧
            documents h1 = documents (s_heap s) ∧
            (∀ i c0, contexts (s_heap s) !! i = Some c0 → contexts h1 !! i = Some c0))
    as (h1 & c1 & Hs' & Hc1 & Hp & Hl & Hf & Hsd & Hd & Hcs).
  { destruct contents as [text|].
    - eexists _, _. split; [|split].
      + subst s'. unfold Analyzer_analyze. rewrite exec_Do. cbv [bind get modify].
        rewrite (fileChanged_eq _ url _ _ Hc). cbv beta iota. rewrite exec_Do. cbv [get].
        cbv beta iota. cbn [exec]. reflexivity.
      + simpl. rewrite lookup_app_r by done. rewrite Nat.sub_diag. reflexivity.
      + simpl. repeat split; try done. intros i c0 Hi. by apply lookup_app_l_Some.
    - exists (s_heap s), c. split; [|by repeat split].
      subst s'. unfold Analyzer_analyze. rewrite exec_Do. cbv [ret]. cbv beta iota.
      rewrite exec_Do. cbv [get]. cbv beta iota. cbn [exec]. by rewrite !with_heap_same. }
  rewrite Hs'. clear Hs'.
  destruct (analyzedDocumentPromises (_cache c1) !! _resolveUrl c1 url) as [p|] eqn:Ha.
  - unfold analyze.
    rewrite (exec_this_context (c := c1)) by done. rewrite Ha. cbn [exec].
    cbn [enqueue with_queue s_heap s_io s_reactions alloc with_heap alloc_heap
         set_promises loaderCalls features scannedDocs documents contexts
         analyzer_cacheContext].
    rewrite Hl, Hf, Hsd, Hd. repeat split; try done.
    + intros q st Hq. unfold state_of in *.
      cbn [promises alloc_heap set_promises set_contexts]. rewrite Hp.
      destruct (promises (s_heap s) !! q) as [pr|] eqn:E; [|done].
      by rewrite (lookup_app_l_Some _ _ _ _ E).
    + intros i c0 Hi _. by apply Hcs.
  - destruct (exec_analyze_uncached fuel (analyzer_cacheContext h1) c1 url contents
                (fresh (with_heap h1 s)) (alloc TDocument (with_heap h1 s)))
      as (j1 & j2 & He & _); [done|done|].
    rewrite He. clear He.
    cbn [enqueue with_queue s_heap s_io s_reactions alloc with_heap alloc_heap
         set_promises set_contexts loaderCalls features scannedDocs documents contexts
         analyzer_cacheContext].
    rewrite Hl, Hf, Hsd, Hd. repeat split; try done.
    + intros q st Hq. unfold state_of in *.
      cbn [promises alloc_heap set_promises set_contexts]. rewrite Hp.
      destruct (promises (s_heap s) !! q) as [pr|] eqn:E; [|done].
      rewrite <- !app_assoc. by rewrite (lookup_app_l_Some _ _ _ _ E).
    + intros i c0 Hi Hne. rewrite list_lookup_alter_ne by done. by apply Hcs.
Qed.

(** X8: [_scanDocument] creates the warnings array, asks
    [_getScannedFeatures] for the features and, when they arrive, creates
    one ScannedDocument with the document, these features, that warnings
    array and the inline flag of the document.  The ScannedDocument is
    registered in [scannedDocuments] under the URL of the document exactly
    when the document is not inline; for an inline document no cache
    changes. *)
Theorem scanDocument_caches_toplevel_documents (this : ctxid) (document : ParsedDocument)
    (comment : option string) (tgt : pid) (s : sched) :
  ∃ r : reaction,
    exec (_scanDocument scan this document comment) tgt s
    = subscribe (fresh s) r
        (exec (_getScannedFeatures scan this document) (fresh s)
           (alloc TFeatures (with_heap (new_warnings (s_heap s)).1 s))) ∧
    ∀ fs s2 c,
      contexts (s_heap s2) !! this = Some c →
      match fs with f :: _ => is_Some (features (s_heap s2) !! f) | [] => True end →
      (pd_isInline document = false →
       scannedDocuments (_cache c) !! pd_url document = None) →
      let sd := length (scannedDocs (s_heap s2)) in
      ∃ h', exec (on_ok r (VFeatures fs)) tgt s2
            = settle tgt (Fulfilled (VScanned sd)) (with_heap h' s2) ∧
            scannedDocs h'
            = scannedDocs (s_heap s2)
              ++ [ {| sd_document := document; sd_features := fs;
                      sd_warnings := length (warningArrays (s_heap s));
                      sd_isInline := pd_isInline document |} ] ∧
            contexts h'
            = (if pd_isInline document then contexts (s_heap s2)
               else alter (set_cache (set_scannedDocuments <[pd_url document := sd]>))
                      this (contexts (s_heap s2))).
Proof.
  eexists. split.
  - unfold _scanDocument. rewrite exec_Do. unfold new_warnings at 1. cbn [exec].
    reflexivity.
  - intros fs s2 c Hc Hf Hnew sd. cbn [on_ok]. rewrite exec_Do.
    destruct (pd_isInline document) eqn:Hi; cbn [negb].
    + destruct fs as [|f fs'].
      * cbv [bind ret new_ScannedDocument]. rewrite Hi. cbn [exec].
        eexists. split; [reflexivity|]. done.
      * destruct Hf as [x Hx].
        cbv [bind ret get_feature new_ScannedDocument modify]. rewrite Hx, Hi.
        destruct (is_ScannedElement x); cbn [exec];
          (eexists; split; [reflexivity|]; done).
    + specialize (Hnew eq_refl).
      assert (Hno : ¬ is_Some (scannedDocuments (_cache c) !! pd_url document))
        by (rewrite Hnew; by intros [? ?]).
      destruct fs as [|f fs'].
      * cbv [bind ret new_ScannedDocument this_cache this_context update_cache modify].
        simpl. rewrite Hc, Hi. rewrite decide_False by done. cbn [exec].
        eexists. split; [reflexivity|]. done.
      * destruct Hf as [x Hx].
        cbv [bind ret get_feature new_ScannedDocument this_cache this_context
             update_cache modify].
        rewrite Hx. destruct (is_ScannedElement x); simpl; rewrite Hc, Hi;
          (rewrite decide_False by done); cbn [exec];
          (eexists; split; [reflexivity|]; done).
Qed.





End MoreOfTheEngine.

Lemma settle_queue p st s : ∃ js, s_queue (settle p st s) = s_queue s ++ js.
Proof.
  unfold settle. destruct (state_of (s_heap s) p) as [[]|].
  - eexists. reflexivity.
  - exists []. by rewrite app_nil_r.
  - exists []. by rewrite app_nil_r.
  - exists []. by rewrite app_nil_r.
Qed.

Lemma settle_features p st s : features (s_heap (settle p st s)) = features (s_heap s).
Proof.
  rewrite settle_heap_eq. unfold settle_heap. by destruct (state_of (s_heap s) p) as [[]|].
Qed.

Section ImportsAndInlineDocuments.

Variable parse : Parser → string → string → option InlineDocInfo → ParsedDocument + exn.
Variable scan : ParsedDocument → list Scanner → list ScannedFeature + exn.
Variable extname : string → string.
Variable scan_rec : ctxid → string → option string → option vid → task.
Variable deps_rec : ctxid → sdid → vid → task.

(** X12: when the nested scan of [_scanImport] has finished, the
    callback reads the promise cached in [scannedDocumentPromises] for the
    resolved URL, not the result of the nested scan.  If that promise is
    already fulfilled, the assignment of the [scannedDocument] slot is put
    at the end of the job queue and [_scanImport] resolves with [null]
    before the assignment has run; if it is still pending, the callback is
    only registered on it, the slot stays as it is and [_scanImport]
    resolves with [null] all the same. *)
Theorem scanImport_assignment (this : ctxid) (c : AnalyzerCacheContext)
    (scannedImport : fid) (i : ScannedImport) (warnings : wid) (visited : vid)
    (tgt : pid) (s : sched) :
  contexts (s_heap s) !! this = Some c →
  features (s_heap s) !! scannedImport = Some (FImport i) →
  let url := _resolveUrl c (si_url i) in
  ∃ r : reaction,
    exec (_scanImport scan_rec this scannedImport warnings visited) tgt s
    = subscribe (fresh s) r
        (exec (scan_rec this url None (Some visited)) (fresh s)
           (alloc (scan_result (Some visited)) s)) ∧
    ∀ v s' c' q,
      contexts (s_heap s') !! this = Some c' →
      scannedDocumentPromises (_cache c') !! url = Some q →
      let assign sd :=
        {| j_task := Do (assign_scannedDocument scannedImport sd) (λ _, Ret VUndefined);
           j_target := fresh s' |} in
      (∀ sd, state_of (s_heap s') q = Some (Fulfilled (VScanned sd)) →
             exec (on_ok r v) tgt s'
             = settle tgt (Fulfilled VNull) (enqueue [assign sd] (alloc TAny s')) ∧
             (∃ js, s_queue (exec (on_ok r v) tgt s') = s_queue s' ++ assign sd :: js) ∧
             ∀ s2, exec (j_task (assign sd)) (fresh s') s2
                   = settle (fresh s') (Fulfilled VUndefined)
                       (with_heap (set_features
                                     (alter (set_scannedDocument_slot sd) scannedImport)
                                     (s_heap s2)) s2)) ∧
      (state_of (s_heap s') q = Some Pending →
       features (s_heap (exec (on_ok r v) tgt s')) = features (s_heap s') ∧
       ∃ callback,
         exec (on_ok r v) tgt s'
         = settle tgt (Fulfilled VNull)
             (with_reactions (s_reactions s' ++ [(q, callback)]) (alloc TAny s')) ∧
         r_target callback = fresh s').
Proof.
  intros Hc Hf url. eexists. split.
  - unfold _scanImport. rewrite (exec_get_feature _ _ _ _ Hf).
    rewrite (exec_this_context _ _ _ _ Hc). cbn [exec]. reflexivity.
  - intros v s' c' q Hc' Hq assign. cbn [on_ok].
    rewrite exec_Do. unfold this_cache. cbv [bind this_context ret]. rewrite Hc'.
    cbv beta iota. rewrite with_heap_same. fold url. rewrite Hq. cbn [exec].
    split.
    + intros sd Hst.
      assert (Hst' : state_of (s_heap (alloc TAny s')) q = Some (Fulfilled (VScanned sd)))
        by (by apply state_of_alloc_heap).
      rewrite (subscribe_settled _ _ _ _ Hst') by done. cbn [reaction_job on_ok r_target].
      split; [reflexivity|]. split.
      * match goal with |- ∃ js, s_queue (settle ?p ?st ?x) = _ =>
          destruct (settle_queue p st x) as [js Hjs] end.
        exists js. rewrite Hjs. cbn [enqueue s_queue with_queue alloc with_heap].
        by rewrite <- app_assoc.
      * intros s2. subst assign. cbn [j_task]. rewrite exec_Do. reflexivity.
    + intros Hst.
      assert (Hst' : state_of (s_heap (alloc TAny s')) q = Some Pending)
        by (by apply state_of_alloc_heap).
      rewrite (subscribe_pending _ _ _ Hst'). split.
      * rewrite settle_features. reflexivity.
      * eexists. split; reflexivity.
Qed.





(** X14: a document of a type without scanners still gets a
    ScannedDocument.  [_scanDocument] schedules one job which creates a
    ScannedDocument with no features, the warnings array created for the
    scan and the inline flag of the document, and creates or changes no
    feature. *)
Theorem scanDocument_without_scanners (this : ctxid) (c : AnalyzerCacheContext)
    (document : ParsedDocument) (comment : option string) (tgt : pid) (s : sched) :
  contexts (s_heap s) !! this = Some c →
  _scanners c !! pd_type document = None →
  ∃ job,
    exec (_scanDocument scan this document comment) tgt s
    = enqueue [job]
        (settle (fresh s) (Fulfilled (VFeatures []))
           (alloc TFeatures (with_heap (new_warnings (s_heap s)).1 s))) ∧
    j_target job = tgt ∧
    ∀ s2 c2,
      contexts (s_heap s2) !! this = Some c2 →
      (pd_isInline document = false →
       scannedDocuments (_cache c2) !! pd_url document = None) →
      ∃ h', exec (j_task job) tgt s2
            = settle tgt (Fulfilled (VScanned (length (scannedDocs (s_heap s2)))))
                (with_heap h' s2) ∧
            scannedDocs h'
            = scannedDocs (s_heap s2)
              ++ [ {| sd_document := document; sd_features := [];
                      sd_warnings := length (warningArrays (s_heap s));
                      sd_isInline := pd_isInline document |} ] ∧
            features h' = features (s_heap s2).
Proof.
  intros Hc Hn. eexists. split; [|split].
  - unfold _scanDocument. rewrite exec_Do. unfold new_warnings at 1. cbn [exec].
    unfold _getScannedFeatures.
    rewrite (exec_this_context (c := c)) by done. rewrite Hn. cbn [exec].
    match goal with |- subscribe ?p ?r (settle ?p' ?st ?x) = _ =>
      rewrite (subscribe_settled p r st); [|apply (settle_fresh_state _ st)|]; [|done..] end.
    cbn [reaction_job on_ok r_target]. reflexivity.
  - reflexivity.
  - intros s2 c2 Hc2 Hnew. cbn [j_task]. rewrite exec_Do.
    destruct (pd_isInline document) eqn:Hi; cbn [negb].
    + cbv [bind ret new_ScannedDocument]. rewrite Hi. cbn [exec].
      eexists. split; [reflexivity|]. done.
    + specialize (Hnew eq_refl).
      cbv [bind ret new_ScannedDocument this_cache this_context update_cache modify].
      simpl. rewrite Hc2, Hi, Hnew.
      rewrite decide_False by (by intros [? ?]). cbn [exec].
      eexists. split; [reflexivity|]. done.
Qed.


(** X15: for a ScannedDocument none of whose features is an inline
    document or an import, [_scanDependencies] calls neither [_scan] nor
    itself: it builds an empty [Promise.all], which is fulfilled at once,
    and schedules its own resolution with [undefined]; no load is started
    and no reaction is registered. *)
Theorem scanDependencies_without_dependencies (this : ctxid) (scannedDocument : sdid)
    (sd : ScannedDocument) (visited : vid) (tgt : pid) (s : sched) :
  scannedDocs (s_heap s) !! scannedDocument = Some sd →
  (∀ f, f ∈ sd_features sd → is_dependency (s_heap s) f = false) →
  ∃ s1,
    exec (_scanDependencies_body parse scan scan_rec deps_rec this scannedDocument visited)
      tgt s
    = enqueue [ {| j_task := Ret VUndefined; j_target := tgt |} ]
        (settle (fresh s) (Fulfilled (VArray 0)) s1) ∧
    s_heap s1 = set_allCells (λ l, l ++ [0]) (alloc_heap TArray (s_heap s)) ∧
    s_queue s1 = s_queue s ∧ s_reactions s1 = s_reactions s ∧ s_io s1 = s_io s.
Proof.
  intros Hsd Hno.
  assert (Hf : filter (λ f, is_dependency (s_heap s) f = true) (sd_features sd) = []).
  { induction (sd_features sd) as [|f fs IH]; [done|].
    rewrite filter_cons. rewrite decide_False.
    - apply IH. intros g Hg. apply Hno. by right.
    - rewrite (Hno f) by by left. done. }
  eexists. split; [|split; [|split; [|split]]].
  - unfold _scanDependencies_body. rewrite exec_Do. unfold get_scannedDoc. rewrite Hsd.
    rewrite with_heap_same. rewrite exec_Do. cbv [get]. cbv beta iota.
    rewrite with_heap_same. rewrite Hf. cbn [map map_async].
    unfold Promise_all. rewrite exec_Do. unfold new_promise. cbv beta iota.
    rewrite exec_Do. unfold new_cell. cbv beta iota. cbn [exec].
    match goal with |- subscribe ?p ?r (settle ?p' ?st ?x) = _ =>
      rewrite (subscribe_settled p r st) end.
    + cbn [reaction_job on_ok r_target]. reflexivity.
    + rewrite settle_heap_eq. cbn [s_heap with_heap].
      apply state_of_settle_heap_eq. unfold state_of. cbn [promises set_allCells set_promises].
      rewrite lookup_app_r by done. by rewrite Nat.sub_diag.
    + done.
  - reflexivity.
  - reflexivity.
  - reflexivity.
  - reflexivity.
Qed.

End ImportsAndInlineDocuments.

Section Visited.

Variable parse : Parser → string → string → option InlineDocInfo → ParsedDocument + exn.
Variable scan : ParsedDocument → list Scanner → list ScannedFeature + exn.
Variable extname : string → string.

(** X16: [_scan] with a visited set that does not hold the URL adds the
    URL to the set and leaves a promise for it in
    [scannedDocumentPromises]; every further [_scan] of that URL with the
    same set, whatever the contents, resolves with the ['visited'] sentinel
    at once and changes nothing else. *)
Theorem scan_marks_visited (fuel : nat) (this : ctxid) (c : AnalyzerCacheContext)
    (resolvedUrl : string) (contents : option string) (visited : vid)
    (seen : gset string) (tgt : pid) (s : sched) :
  contexts (s_heap s) !! this = Some c →
  visitedSets (s_heap s) !! visited = Some seen →
  resolvedUrl ∉ seen →
  let s1 := exec (_scan parse scan extname (S fuel) this resolvedUrl contents
                    (Some visited)) tgt s in
  visitedSets (s_heap s1) !! visited = Some ({[resolvedUrl]} ∪ seen) ∧
  (∃ c1 p, contexts (s_heap s1) !! this = Some c1 ∧
           scannedDocumentPromises (_cache c1) !! resolvedUrl = Some p) ∧
  ∀ fuel' contents' tgt',
    exec (_scan parse scan extname (S fuel') this resolvedUrl contents' (Some visited))
      tgt' s1
    = settle tgt' (Fulfilled VVisited) s1.
Proof.
  intros Hc Hv Hn s1.
  assert (H1 : visitedSets (s_heap s1) !! visited = Some ({[resolvedUrl]} ∪ seen) ∧
               ∃ c1 p, contexts (s_heap s1) !! this = Some c1 ∧
                       scannedDocumentPromises (_cache c1) !! resolvedUrl = Some p).
  { subst s1. cbn [_scan]. unfold _scan_body.
    rewrite exec_Do. unfold Set_has. rewrite Hv.
    rewrite bool_decide_eq_false_2 by done. rewrite with_heap_same.
    rewrite exec_Do. cbv [ret]. cbv beta iota. rewrite with_heap_same.
    rewrite exec_Do. unfold Set_add, modify. cbv beta iota.
    rewrite exec_Do. unfold this_cache. cbv [bind this_context ret].
    cbn [s_heap with_heap contexts set_visitedSets]. rewrite Hc. cbv beta iota.
    destruct (scannedDocumentPromises (_cache c) !! resolvedUrl) as [p|] eqn:Hp.
    - cbn [exec]. rewrite subscribe_heap. cbn [s_heap with_heap visitedSets set_visitedSets
        contexts]. split.
      + rewrite list_lookup_alter_eq, Hv. done.
      + by exists c, p.
    - cbn [exec]. rewrite exec_Yield. rewrite exec_Do. unfold update_cache, modify.
      cbv beta iota. cbn [exec]. rewrite subscribe_heap.
      cbn [s_heap with_heap enqueue with_queue alloc alloc_heap visitedSets set_visitedSets
           set_promises set_contexts contexts]. split.
      + rewrite list_lookup_alter_eq, Hv. done.
      + eexists _, _. split.
        * rewrite list_lookup_alter_eq, Hc. reflexivity.
        * simpl. by rewrite lookup_insert_eq. }
  split; [apply H1|]. split; [apply H1|].
  intros fuel' contents' tgt'. destruct H1 as [Hv1 _].
  cbn [_scan]. unfold _scan_body. rewrite exec_Do. unfold Set_has. rewrite Hv1.
  rewrite bool_decide_eq_true_2 by (apply elem_of_union_l; by apply elem_of_singleton).
  by rewrite with_heap_same.
Qed.

End Visited.

Lemma finished_reachable url contents : Freachable (Fixture.finished url contents).2.
Proof.
  exists Fixture.options. unfold Fixture.finished. cbn [snd].
  eapply rtc_trans; [apply (analyze_call_reachable_from url contents)|].
  apply run_reachable_from.
Qed.

Lemma cached_promises_hold_their_kind_witness :
  Freachable Fixture.race_after.2 ∧
  ∀ this c u p v,
    contexts (s_heap Fixture.race_after.2) !! this = Some c →
    state_of (s_heap Fixture.race_after.2) p = Some (Fulfilled v) →
    scannedDocumentPromises (_cache c) !! u = Some p → ∃ sd, v = VScanned sd.
Proof.
  split; [exact race_after_reachable|]. intros this c u p v Hc Hp.
  apply (cached_promises_hold_their_kind Fixture.parse Fixture.scan Fixture.extname
           Fixture.race_after.2 race_after_reachable this c u p v Hc Hp).
Defined.

Lemma failed_analysis_is_cached_witness :
  let s := (Fixture.finished "missing.html" None).2 in
  Freachable s ∧
  state_of (s_heap s) 2 = Some (Rejected (Error "Can't load URL: missing.html")) ∧
  ∀ s', Freachable_from s s' →
        state_of (s_heap s') 2 = Some (Rejected (Error "Can't load URL: missing.html")) ∧
        ∀ fuel contents tgt,
          exec (analyze Fixture.parse Fixture.scan Fixture.extname fuel 0 "missing.html"
                  contents) tgt s'
          = enqueue [ {| j_task := Await 2 Ret Throw; j_target := tgt |} ] s'.
Proof.
  intros s. split; [apply finished_reachable|].
  split; [by vm_compute|].
  destruct (contexts (s_heap s) !! 0) as [c|] eqn:Hc; [|by vm_compute in Hc].
  apply (failed_analysis_is_cached Fixture.parse Fixture.scan Fixture.extname s
           (finished_reachable "missing.html" None) 0 c "missing.html" 2
           (Error "Can't load URL: missing.html") Hc).
  - vm_compute in Hc. injection Hc as <-. by vm_compute.
  - by vm_compute.
Defined.


Lemma scanInlineDocument_outcomes_witness :
  features (s_heap Fixture.one_inline) !! 0 = Some (FInlineDocument Fixture.inline_script) ∧
  ∃ r : reaction,
    r_target r = 7 ∧
    ∀ e s', is_WarningCarryingException e = None →
            exec (on_err r e) 7 s' = settle 7 (Rejected e) s'.
Proof.
  split; [reflexivity|].
  destruct (scanInlineDocument_outcomes Fixture.parse Fixture.scan Fdeps 0 0 Fixture.inline_script
              Fixture.host_page 0 0 7 Fixture.one_inline eq_refl) as (r & _ & H2 & _ & _ & H5).
  exists r. by split.
Defined.

Lemma dependencies_scanned_once_witness :
  let s := Fixture.race_before in
  ∃ c sd,
    contexts (s_heap s) !! 0 = Some c ∧ scannedDocs (s_heap s) !! 1 = Some sd ∧
    dependenciesScanned (_cache c) !! sd_url sd = Some 44 ∧
    ∀ tgt, exec (_scanDependenciesOfToplevelDoc Fdeps 0 1 0) tgt s
           = subscribe 44 {| on_ok := λ _, RetP 44; on_err := Throw; r_target := tgt |} s.
Proof.
  intros s.
  destruct (contexts (s_heap s) !! 0) as [c|] eqn:Hc; [|by vm_compute in Hc].
  destruct (scannedDocs (s_heap s) !! 1) as [sd|] eqn:Hsd; [|by vm_compute in Hsd].
  exists c, sd. split; [done|]. split; [done|].
  assert (Hq : dependenciesScanned (_cache c) !! sd_url sd = Some 44).
  { vm_compute in Hc. injection Hc as <-. vm_compute in Hsd. injection Hsd as <-.
    by vm_compute. }
  split; [exact Hq|]. intros tgt.
  exact (proj1 (dependencies_scanned_once Fdeps 0 c 1 sd 0 tgt s Hc Hsd) 44 Hq).
Defined.

Lemma scan_of_cached_url_witness :
  let s := Fixture.race_before in
  ∃ c, contexts (s_heap s) !! 0 = Some c ∧
       scannedDocumentPromises (_cache c) !! "a.html" = Some 5 ∧
       ∀ contents tgt,
         loaderCalls (s_heap (exec (_scan Fixture.parse Fixture.scan Fixture.extname 1 0
                                      "a.html" contents None) tgt s))
         = loaderCalls (s_heap s).
Proof.
  intros s.
  destruct (contexts (s_heap s) !! 0) as [c|] eqn:Hc; [|by vm_compute in Hc].
  exists c. split; [done|].
  assert (Hp : scannedDocumentPromises (_cache c) !! "a.html" = Some 5).
  { vm_compute in Hc. injection Hc as <-. by vm_compute. }
  split; [exact Hp|]. intros contents tgt.
  exact (proj1 (proj2 (proj2 (proj2 (scan_of_cached_url Fixture.parse Fixture.scan
           Fixture.extname 0 0 c "a.html" contents 5 tgt s Hc Hp))))).
Defined.

Lemma clearCaches_forces_reanalysis_witness :
  contexts (s_heap Fixture.start) !! analyzer_cacheContext (s_heap Fixture.start)
  = Some (AnalyzerCacheContext_new Fixture.options) ∧
  analyzer_cacheContext (Analyzer_clearCaches (s_heap Fixture.start)).1 = 1.
Proof.
  split; [reflexivity|].
  destruct (clearCaches_forces_reanalysis Fixture.parse Fixture.scan Fixture.extname
              Fixture.fuel "a.html" 0 Fixture.start
              (AnalyzerCacheContext_new Fixture.options) eq_refl) as [H _].
  rewrite H. reflexivity.
Defined.

Lemma analyze_defers_all_work_witness :
  contexts (s_heap Fixture.start) !! analyzer_cacheContext (s_heap Fixture.start)
  = Some (AnalyzerCacheContext_new Fixture.options) ∧
  s_io (exec (Analyzer_analyze Fixture.parse Fixture.scan Fixture.extname Fixture.fuel
                "a.html" None) 0 Fixture.start) = s_io Fixture.start.
Proof.
  split; [reflexivity|].
  exact (proj1 (proj2 (analyze_defers_all_work Fixture.parse Fixture.scan Fixture.extname
           Fixture.fuel "a.html" None 0 Fixture.start
           (AnalyzerCacheContext_new Fixture.options) eq_refl))).
Defined.

Lemma scanDocument_caches_toplevel_documents_witness :
  contexts (s_heap Fixture.start) !! 0 = Some (AnalyzerCacheContext_new Fixture.options) ∧
  ∃ r : reaction,
    ∃ h', exec (on_ok r (VFeatures [])) 0 Fixture.start
          = settle 0 (Fulfilled (VScanned 0)) (with_heap h' Fixture.start) ∧
          contexts h'
          = alter (set_cache (set_scannedDocuments <["s.css" := 0]>)) 0
              (contexts (s_heap Fixture.start)).
Proof.
  split; [reflexivity|].
  destruct (scanDocument_caches_toplevel_documents Fixture.scan 0 Fixture.style_sheet None 0
              Fixture.start) as (r & _ & H).
  exists r.
  destruct (H [] Fixture.start (AnalyzerCacheContext_new Fixture.options) eq_refl I
              (λ _, eq_refl)) as (h' & H1 & _ & H3).
  exists h'. split; [exact H1|exact H3].
Defined.





Lemma load_on_idle_analyzer_witness :
  s_queue Fixture.start = [] ∧ s_io Fixture.start = [] ∧ s_reactions Fixture.start = [] ∧
  let r := call TString (Analyzer_load "a.html" None) Fixture.start in
  state_of (s_heap (run 4 r.2)) r.1 = Some (Fulfilled (VString "A")).
Proof.
  split; [reflexivity|]. split; [reflexivity|]. split; [reflexivity|].
  exact (proj2 (proj2 (proj2 (proj2 (load_on_idle_analyzer "a.html" Fixture.start
           (AnalyzerCacheContext_new Fixture.options) eq_refl eq_refl eq_refl eq_refl 4
           (le_n 4)))))).
Defined.

Lemma scanImport_assignment_witness :
  features (s_heap Fixture.one_import) !! 0
  = Some (FImport (Fixture.scanned_import "html-import" "missing.html")) ∧
  ∃ r : reaction,
    exec (_scanImport Fscan 0 0 0 0) 7 Fixture.one_import
    = subscribe (fresh Fixture.one_import) r
        (exec (Fscan 0 "missing.html" None (Some 0)) (fresh Fixture.one_import)
           (alloc (scan_result (Some 0)) Fixture.one_import)).
Proof.
  split; [reflexivity|].
  destruct (scanImport_assignment Fscan 0 (AnalyzerCacheContext_new Fixture.options) 0
              (Fixture.scanned_import "html-import" "missing.html") 0 0 7
              Fixture.one_import eq_refl eq_refl) as (r & H & _).
  by exists r.
Defined.


Lemma scanDocument_without_scanners_witness :
  _scanners (AnalyzerCacheContext_new Fixture.options) !! pd_type Fixture.style_sheet = None ∧
  ∃ job, exec (_scanDocument Fixture.scan 0 Fixture.style_sheet None) 7 Fixture.start
         = enqueue [job]
             (settle (fresh Fixture.start) (Fulfilled (VFeatures []))
                (alloc TFeatures
                   (with_heap (new_warnings (s_heap Fixture.start)).1 Fixture.start))).
Proof.
  split; [reflexivity|].
  destruct (scanDocument_without_scanners Fixture.scan 0
              (AnalyzerCacheContext_new Fixture.options) Fixture.style_sheet None 7 Fixture.start
              eq_refl eq_refl) as (job & H & _).
  by exists job.
Defined.

Lemma scanDependencies_without_dependencies_witness :
  let s := (Fixture.finished "d.html" (Some "Z")).2 in
  ∃ sd, scannedDocs (s_heap s) !! 0 = Some sd ∧ sd_features sd = [] ∧
        ∃ s1, exec (_scanDependencies_body Fixture.parse Fixture.scan Fscan Fdeps 1 0 0) 7 s
              = enqueue [ {| j_task := Ret VUndefined; j_target := 7 |} ]
                  (settle (fresh s) (Fulfilled (VArray 0)) s1).
Proof.
  intros s.
  destruct (scannedDocs (s_heap s) !! 0) as [sd|] eqn:Hsd; [|by vm_compute in Hsd].
  exists sd. split; [done|].
  assert (Hf : sd_features sd = [])
    by (vm_compute in Hsd; injection Hsd as <-; reflexivity).
  split; [exact Hf|].
  destruct (scanDependencies_without_dependencies Fixture.parse Fixture.scan Fscan Fdeps
              1 0 sd 0 7 s Hsd) as (s1 & H & _).
  { intros f. rewrite Hf. by intros ?%elem_of_nil. }
  by exists s1.
Defined.

Lemma scan_marks_visited_witness :
  visitedSets (s_heap Fixture.one_set) !! 0 = Some ∅ ∧
  ∀ fuel' contents' tgt',
    let s1 := exec (_scan Fixture.parse Fixture.scan Fixture.extname 1 0 "a.html" None
                      (Some 0)) 7 Fixture.one_set in
    exec (_scan Fixture.parse Fixture.scan Fixture.extname (S fuel') 0 "a.html" contents'
            (Some 0)) tgt' s1
    = settle tgt' (Fulfilled VVisited) s1.
Proof.
  split; [reflexivity|]. intros fuel' contents' tgt'.
  exact (proj2 (proj2 (scan_marks_visited Fixture.parse Fixture.scan Fixture.extname 0 0
           (AnalyzerCacheContext_new Fixture.options) "a.html" None 0 ∅ 7 Fixture.one_set
           eq_refl eq_refl (not_elem_of_empty _))) fuel' contents' tgt').
Defined.

(** * Whole runs of the event loop *)

Lemma reactions_of_filter p rs : reactions_of p rs = filter (λ pr, pr.1 = p) rs.
Proof.
  induction rs as [|pr rs IH]; [done|]. cbn [reactions_of]. rewrite filter_cons, IH.
  destruct (Nat.eqb_spec pr.1 p); [by rewrite decide_True|by rewrite decide_False].
Qed.

Lemma reactions_but_filter p rs : reactions_but p rs = filter (λ pr, pr.1 ≠ p) rs.
Proof.
  induction rs as [|pr rs IH]; [done|]. cbn [reactions_but]. rewrite filter_cons, IH.
  destruct (Nat.eqb_spec pr.1 p); [rewrite decide_False|rewrite decide_True]; try done.
  intros H. by apply H.
Qed.

Lemma settle_b_eq p st s : settle_b p st s = settle p st s.
Proof. unfold settle_b, settle. by rewrite reactions_of_filter, reactions_but_filter. Qed.

(** One step of [exec], with what it computes handed over. *)
Lemma exec_Ret_eq v tgt s r :
  settle_b tgt (Fulfilled v) s = r → exec (Ret v) tgt s = r.
Proof. intros <-. by rewrite settle_b_eq. Qed.

Lemma exec_Throw_eq e tgt s r :
  settle_b tgt (Rejected e) s = r → exec (Throw e) tgt s = r.
Proof. intros <-. by rewrite settle_b_eq. Qed.

Lemma exec_RetP_eq p tgt s r :
  enqueue [ {| j_task := Await p Ret Throw; j_target := tgt |} ] s = r →
  exec (RetP p) tgt s = r.
Proof. by intros <-. Qed.

Lemma exec_Await_eq p kok kerr tgt s r :
  subscribe p {| on_ok := kok; on_err := kerr; r_target := tgt |} s = r →
  exec (Await p kok kerr) tgt s = r.
Proof. by intros <-. Qed.

Lemma exec_Async_eq τ body k tgt s p s' kp :
  fresh s = p → alloc τ s = s' → k p = kp →
  exec (Async τ body k) tgt s = exec kp tgt (exec body p s').
Proof. by intros <- <- <-. Qed.

Lemma exec_Then_eq p cbok cberr k tgt s s' :
  subscribe p {| on_ok := cbok; on_err := cberr; r_target := fresh s |} (alloc TAny s) = s' →
  exec (Then p cbok cberr k) tgt s = exec k tgt s'.
Proof. by intros <-. Qed.

Lemma exec_Resolve_eq p v k tgt s s' :
  settle_b p (Fulfilled v) s = s' → exec (Resolve p v k) tgt s = exec k tgt s'.
Proof. intros <-. by rewrite settle_b_eq. Qed.

Lemma exec_Reject_eq p e k tgt s s' :
  settle_b p (Rejected e) s = s' → exec (Reject p e k) tgt s = exec k tgt s'.
Proof. intros <-. by rewrite settle_b_eq. Qed.

Lemma exec_LoaderLoad_eq l url k tgt s p s' kp :
  fresh s = p →
  add_io {| io_deadline := s_clock s + ul_latency l url; io_promise := p;
            io_result := ul_load l url |}
    (with_heap (set_loaderCalls (λ ls, ls ++ [url]) (alloc_heap TString (s_heap s))) s)
  = s' →
  k p = kp →
  exec (LoaderLoad l url k) tgt s = exec kp tgt s'.
Proof. by intros <- <- <-. Qed.

Lemma exec_Do_Normal {A} (m : M A) k tgt s h' a s' ka :
  m (s_heap s) = (h', Normal a) → with_heap h' s = s' → k a = ka →
  exec (Do m k) tgt s = exec ka tgt s'.
Proof. intros Hm <- <-. by rewrite exec_Do, Hm. Qed.

Lemma exec_Do_Thrown {A} (m : M A) k tgt s h' e r :
  m (s_heap s) = (h', Thrown e) → settle_b tgt (Rejected e) (with_heap h' s) = r →
  exec (Do m k) tgt s = r.
Proof. intros Hm <-. by rewrite exec_Do, Hm, settle_b_eq. Qed.

Lemma exec_Do_stuck {A} (m : M A) k tgt s r :
  m (s_heap s) = r → exec (Do m k) tgt s = exec (Do (λ _, r) k) tgt s.
Proof. intros <-. by rewrite !exec_Do. Qed.

Lemma exec_ShouldNotHappen_eq k tgt s s' :
  failed s = s' → exec (ShouldNotHappen k) tgt s = exec k tgt s'.
Proof. by intros <-. Qed.

(** One turn of the event loop. *)
Lemma run_job n s j q t tgt s' :
  s_queue s = j :: q → j_task j = t → j_target j = tgt → with_queue q s = s' →
  run (S n) s = run n (exec t tgt s').
Proof. intros Hq <- <- <-. by rewrite run_S, (step_job j q). Qed.

Lemma run_io n s r s' :
  s_queue s = [] → s_io s = [r] →
  settle_b (io_promise r) (io_state r)
    (with_io [] (max (s_clock s) (io_deadline r)) s) = s' →
  run (S n) s = run n s'.
Proof.
  intros Hq Hio <-. rewrite settle_b_eq, run_S. erewrite (step_io r); [|done|by rewrite Hio].
  rewrite Hio. cbn [filter list_filter]. rewrite decide_False by (intros H; by apply H).
  done.
Qed.

Lemma scan_S parse scan extname n :
  _scan parse scan extname (S n)
  = _scan_body parse scan extname (_scanDependencies parse scan extname n).
Proof. reflexivity. Qed.

Lemma scanDependencies_S parse scan extname n :
  _scanDependencies parse scan extname (S n)
  = _scanDependencies_body parse scan (_scan parse scan extname n)
      (_scanDependencies parse scan extname n).
Proof. reflexivity. Qed.

Lemma makeDocument_S n :
  _makeDocument (S n)
  = λ this scannedDocument,
      (let* sd := get_scannedDoc scannedDocument in
       let resolvedUrl := sd_url sd in
       let* cache := this_cache this in
       if decide (is_Some (analyzedDocuments cache !! resolvedUrl))
       then throw (Error ("Internal error: document " +:+ resolvedUrl +:+ " already exists"))
       else
         let* document := new_Document scannedDocument this in
         (if decide (is_Some (analyzedDocumentPromises cache !! resolvedUrl))
          then ret tt
          else let* p := Promise_resolve TDocument (VDocument document) in
               update_cache this (set_analyzedDocumentPromises <[resolvedUrl := p]>));;
         update_cache this (set_analyzedDocuments <[resolvedUrl := document]>);;
         Document_resolve (_getDocument_body (_makeDocument n)) document;;
         ret document)%sync.
Proof. reflexivity. Qed.

(** Documents without dependencies. *)
Lemma leaf_is_dependency h feats :
  Forall leaf_feature feats →
  features h = alter (applyHtmlComment None) 0 feats →
  ∀ f, is_dependency h f = false.
Proof.
  intros Hl Hf f. unfold is_dependency. rewrite Hf.
  destruct (alter (applyHtmlComment None) 0 feats !! f) as [x|] eqn:E; [|done].
  destruct (decide (f = 0)) as [->|Hne].
  - rewrite list_lookup_alter_eq in E.
    destruct (feats !! 0) as [y|] eqn:Ey; [|done]. injection E as <-.
    apply (Forall_lookup_1 _ _ _ _ Hl) in Ey. by destruct y.
  - rewrite list_lookup_alter_ne in E by done.
    apply (Forall_lookup_1 _ _ _ _ Hl) in E. by destruct x.
Qed.

Lemma filter_no_dependency h (l : list fid) :
  (∀ f, is_dependency h f = false) →
  filter (λ f, is_dependency h f = true) l = [].
Proof.
  intros H. induction l as [|f l IH]; [done|].
  rewrite filter_cons, decide_False; [done|]. by rewrite H.
Qed.

Lemma filter_is_dependency h (l : list fid) :
  filter (λ f, is_dependency h f = true) l = dependencies_of h l.
Proof.
  induction l as [|f l IH]; [done|]. cbn [dependencies_of]. rewrite filter_cons, IH.
  destruct (is_dependency h f); [by rewrite decide_True|by rewrite decide_False].
Qed.

Lemma nested_imports_leaf h sd :
  (∀ f, is_dependency h f = false) → nested_imports h sd = [].
Proof.
  intros H. unfold nested_imports.
  induction (getNestedFeatures _ h sd) as [|f l IH]; [done|].
  cbn [omap list_omap]. specialize (H f). unfold is_dependency in H.
  destruct (features h !! f) as [[]|]; try done; apply IH.
Qed.

(** ** Computing a run *)

Ltac sync_cbv x :=
  eval cbv [s_heap with_heap fst snd
       contexts analyzer_cacheContext features scannedDocs warningArrays visitedSets
       documents promises allCells loaderCalls empty_heap
       set_contexts set_analyzer_cacheContext set_features set_scannedDocs
       set_warningArrays set_visitedSets set_documents set_promises set_allCells
       set_loaderCalls set_cache set_parsedDocumentPromises set_scannedDocumentPromises
       set_dependenciesScanned set_analyzedDocumentPromises set_scannedDocuments
       set_analyzedDocuments new_AnalysisCache
       parsedDocumentPromises scannedDocumentPromises dependenciesScanned
       analyzedDocumentPromises scannedDocuments analyzedDocuments
       _parsers _lazyEdges _scanners _loader _resolver _cache _generation
       bind ret get modify throw diverge this_context this_cache update_cache
       get_feature get_scannedDoc new_features new_warnings new_Set Set_has Set_add
       new_ScannedDocument new_Document new_promise Promise_resolve new_cell
       cell_countdown assign_scannedDocument set_scannedDocument_slot warnings_push
       negb sd_url sd_document sd_features sd_warnings sd_isInline
       doc_base doc_analyzer doc_begunResolving doc_doneResolving
       begin_resolving finish_resolving _parseContents Document_resolve _getDocument_body
       option_map decide is_Some_dec is_ScannedElement from_option id]
  in x.

Ltac sched_cbv x :=
  eval cbv [s_heap with_heap with_io with_queue with_reactions s_queue s_reactions s_io
       s_clock s_failed failed enqueue alloc alloc_heap fresh settle_b subscribe settle_heap
       state_of set_state add_io reaction_job io_state initial_sched
       j_task j_target io_promise io_deadline io_result on_ok on_err r_target
       p_type p_state fst snd
       contexts analyzer_cacheContext features scannedDocs warningArrays visitedSets
       documents promises allCells loaderCalls empty_heap
       set_contexts set_promises set_loaderCalls
       option_map scan_result]
  in x.

Ltac norm_cbn x :=
  eval cbn [lookup list_lookup app length alter list_alter flat_map insert list_insert
            forEach fmap option_fmap list_fmap Nat.add Nat.max Nat.eqb Nat.pred seq
            reactions_of reactions_but
            si_type si_url si_urlSourceRange si_sourceRange si_scannedDocument
            sid_type sid_contents sid_locationOffset sid_attachedComment sid_astNode
            sid_scannedDocument] in x.

Ltac norm_sync x :=
  let y := sync_cbv x in
  let z := norm_cbn y in
  lazymatch z with
  | x => z
  | _ => norm_sync z
  end.

Ltac norm x :=
  let y := sched_cbv x in
  let z := norm_cbn y in
  lazymatch z with
  | x => z
  | _ => norm z
  end.

(** Record projections applied to a record are computed; the code inside a
    continuation is left as it is. *)
Ltac subst_norm x :=
  eval cbn
       [s_heap s_queue s_reactions s_io s_clock s_failed
        contexts analyzer_cacheContext features scannedDocs warningArrays visitedSets
        documents promises allCells loaderCalls
        parsedDocumentPromises scannedDocumentPromises dependenciesScanned
        analyzedDocumentPromises scannedDocuments analyzedDocuments
        _parsers _lazyEdges _scanners _loader _resolver _cache _generation
        sd_url sd_document sd_features sd_warnings sd_isInline
        pd_type pd_url pd_contents pd_isInline pd_astNode pd_locationOffset
        doc_base doc_analyzer doc_begunResolving doc_doneResolving fst snd negb
        si_type si_url si_urlSourceRange si_sourceRange si_scannedDocument
        sid_type sid_contents sid_locationOffset sid_attachedComment sid_astNode
        sid_scannedDocument
        map map_async length Promise_all_each lookup list_lookup
        is_NoKnownParserError is_WarningCarryingException] in x.

Ltac head_of t :=
  lazymatch t with
  | ?f _ => head_of f
  | _ => t
  end.

Ltac unfold_head t :=
  let h := head_of t in
  let body := eval unfold h in h in
  let rec rebuild x :=
    lazymatch x with
    | ?f ?a => let f' := rebuild f in constr:(f' a)
    | _ => body
    end in
  let t1 := rebuild t in
  eval cbv beta in t1.

Ltac is_state s :=
  lazymatch s with
  | Build_sched _ _ _ _ _ _ => idtac
  end.

(** One step of [exec] on a state that has been computed. *)
Ltac exec_step :=
  match goal with
  | |- context [exec ?t ?tgt ?s] =>
      is_state s;
      let t' := subst_norm t in
      lazymatch t' with
      | Ret ?v =>
          let r := norm (settle_b tgt (Fulfilled v) s) in
          change (exec t tgt s) with (exec t' tgt s);
          rewrite (exec_Ret_eq v tgt s r eq_refl)
      | Throw ?e =>
          let r := norm (settle_b tgt (Rejected e) s) in
          change (exec t tgt s) with (exec t' tgt s);
          rewrite (exec_Throw_eq e tgt s r eq_refl)
      | RetP ?p =>
          let r := norm (enqueue [ {| j_task := Await p Ret Throw; j_target := tgt |} ] s) in
          change (exec t tgt s) with (exec t' tgt s);
          rewrite (exec_RetP_eq p tgt s r eq_refl)
      | Await ?p ?kok ?kerr =>
          let r := norm (subscribe p {| on_ok := kok; on_err := kerr; r_target := tgt |} s) in
          change (exec t tgt s) with (exec t' tgt s);
          rewrite (exec_Await_eq p kok kerr tgt s r eq_refl)
      | Async ?τ ?body ?k =>
          let p := norm (fresh s) in
          let s' := norm (alloc τ s) in
          let kp := subst_norm (k p) in
          change (exec t tgt s) with (exec t' tgt s);
          rewrite (exec_Async_eq τ body k tgt s p s' kp eq_refl eq_refl eq_refl)
      | Then ?p ?cbok ?cberr ?k =>
          let s' := norm (subscribe p {| on_ok := cbok; on_err := cberr; r_target := fresh s |}
                            (alloc TAny s)) in
          change (exec t tgt s) with (exec t' tgt s);
          rewrite (exec_Then_eq p cbok cberr k tgt s s' eq_refl)
      | Resolve ?p ?v ?k =>
          let s' := norm (settle_b p (Fulfilled v) s) in
          change (exec t tgt s) with (exec t' tgt s);
          rewrite (exec_Resolve_eq p v k tgt s s' eq_refl)
      | Reject ?p ?e ?k =>
          let s' := norm (settle_b p (Rejected e) s) in
          change (exec t tgt s) with (exec t' tgt s);
          rewrite (exec_Reject_eq p e k tgt s s' eq_refl)
      | ShouldNotHappen ?k =>
          let s' := norm (failed s) in
          change (exec t tgt s) with (exec t' tgt s);
          rewrite (exec_ShouldNotHappen_eq k tgt s s' eq_refl)
      | LoaderLoad ?l ?url ?k =>
          let p := norm (fresh s) in
          let s' := norm (add_io {| io_deadline := s_clock s + ul_latency l url;
                                   io_promise := p; io_result := ul_load l url |}
                            (with_heap (set_loaderCalls (λ ls, ls ++ [url])
                                          (alloc_heap TString (s_heap s))) s)) in
          let kp := subst_norm (k p) in
          change (exec t tgt s) with (exec t' tgt s);
          rewrite (exec_LoaderLoad_eq l url k tgt s p s' kp eq_refl eq_refl eq_refl)
      | Do ?m ?k =>
          let r := norm_sync (m (s_heap s)) in
          lazymatch r with
          | (?h', Normal ?a) =>
              let s' := norm (with_heap h' s) in
              let ka := subst_norm (k a) in
              change (exec t tgt s) with (exec t' tgt s);
              rewrite (exec_Do_Normal m k tgt s h' a s' ka eq_refl eq_refl eq_refl)
          | (?h', Thrown ?e) =>
              let r' := norm (settle_b tgt (Rejected e) (with_heap h' s)) in
              change (exec t tgt s) with (exec t' tgt s);
              rewrite (exec_Do_Thrown m k tgt s h' e r' eq_refl eq_refl)
          | _ =>
              lazymatch m with
              | (λ _, r) => fail
              | _ =>
                  change (exec t tgt s) with (exec t' tgt s);
                  rewrite (exec_Do_stuck m k tgt s r eq_refl)
              end
          end
      | _scan ?p ?sc ?e (S ?n) ?a ?b ?c ?d =>
          change (exec t tgt s)
            with (exec (_scan_body p sc e (_scanDependencies p sc e n) a b c d) tgt s)
      | _scanDependencies ?p ?sc ?e (S ?n) ?a ?b ?c =>
          change (exec t tgt s)
            with (exec (_scanDependencies_body p sc (_scan p sc e n)
                          (_scanDependencies p sc e n) a b c) tgt s)
      | _ =>
          let h := head_of t' in
          lazymatch h with
          | analyze => idtac | _scan_body => idtac | _parse => idtac | load => idtac
          | _getScannedFeatures => idtac | scan_call => idtac
          | _scanDependenciesOfToplevelDoc => idtac | Promise_all => idtac
          | _scanDependencies_body => idtac | _scanDocument => idtac | Yield => idtac
          | Analyzer_analyze => idtac | scanDependency => idtac | _scanImport => idtac
          | _scanInlineDocument => idtac | _scanInlineSource => idtac
          | _ => fail
          end;
          let t'' := unfold_head t' in
          change (exec t tgt s) with (exec t'' tgt s)
      end
  end.

(** The code to run next, with what is known put in. *)
Ltac exec_subst :=
  match goal with
  | |- context [exec ?t ?tgt ?s] =>
      is_state s;
      let t' := subst_norm t in
      lazymatch t' with
      | t => fail
      | _ => change (exec t tgt s) with (exec t' tgt s)
      end
  end.

(** The next turn of the event loop, on a state that has been computed. *)
Ltac next_turn :=
  lazymatch goal with
  | |- run (S ?n) ?s = _ =>
      is_state s;
      let q := norm (s_queue s) in
      lazymatch q with
      | ?j :: ?q' =>
          let t := norm (j_task j) in
          let tgt := norm (j_target j) in
          let s' := norm (with_queue q' s) in
          rewrite (run_job n s j q' t tgt s' eq_refl eq_refl eq_refl eq_refl)
      | [] =>
          let io := norm (s_io s) in
          lazymatch io with
          | [?r] =>
              let s' := norm (settle_b (io_promise r) (io_state r)
                                (with_io [] (max (s_clock s) (io_deadline r)) s)) in
              rewrite (run_io n s r s' eq_refl eq_refl eq_refl)
          end
      end
  end.

(** The first feature of a scanned document takes the comment. *)
Ltac first_feature :=
  match goal with
  | |- context [?M ?H] =>
      lazymatch M with
      | match seq 0 (length ?fs) with [] => _ | _ :: _ => _ end =>
          lazymatch H with
          | Build_heap ?c ?i fs ?sds ?ws ?vs ?ds ?ps ?cs ?ls =>
              let H' := constr:(Build_heap c i (alter (applyHtmlComment None) 0 fs)
                                  sds ws vs ds ps cs ls) in
              let E := fresh "E" in
              assert (E : M H = (H', Normal ()))
                by (destruct fs as [|[] ?]; reflexivity);
              rewrite E; clear E
          end
      end
  end.

(** [_makeDocument] where synchronous code waits for it. *)
Ltac make_document :=
  match goal with
  | |- context [_makeDocument (S ?n) ?a ?b ?h] =>
      lazymatch type of (makeDocument_S n) with
      | _ = ?rhs =>
          let new := eval cbv beta in (rhs a b h) in
          change (_makeDocument (S n) a b h) with new
      end
  end.

(** The dependencies and the imports of a document whose features are known. *)
Ltac known_features :=
  match goal with
  | |- context [filter (λ f, is_dependency ?H f = true) ?l] =>
      let r := eval cbn [dependencies_of is_dependency lookup list_lookup features]
               in (dependencies_of H l) in
      lazymatch r with
      | [] => idtac
      | _ :: _ => idtac
      end;
      rewrite (filter_is_dependency H l);
      change (dependencies_of H l) with r
  | |- context [nested_imports ?H ?sd] =>
      let r := eval cbn [nested_imports getNestedFeatures omap list_omap flat_map app
                         lookup list_lookup features scannedDocs sd_features length
                         sid_scannedDocument]
               in (nested_imports H sd) in
      lazymatch r with
      | [] => idtac
      | _ :: _ => idtac
      end;
      change (nested_imports H sd) with r
  end.

(** Equality tests whose two sides are known. *)
Ltac known_test :=
  match goal with
  | |- context [@decide (?a = ?b) ?d] =>
      first [ rewrite (@decide_True _ (a = b) d) by reflexivity
            | rewrite (@decide_False _ (a = b) d) by discriminate ]
  end.

(** The URL of a scanned document is the URL of its parsed document. *)
Ltac known_url :=
  match goal with
  | |- context [sd_url (Build_ScannedDocument ?d ?f ?w ?i)] =>
      change (sd_url (Build_ScannedDocument d f w i)) with (pd_url d)
  end.

Ltac engine_rule :=
  first [ known_url | rewrite lookup_empty | rewrite lookup_insert_eq
        | rewrite lookup_insert_ne by done
        | first_feature | make_document | known_features | known_test ].

Ltac go_with rw := repeat first [ exec_step | exec_subst | rw | engine_rule ].
Ltac run_with rw := go_with rw; repeat (next_turn; go_with rw).

(** The state in which a call from outside starts. *)
Ltac start_call :=
  unfold call; cbn [snd fst Nat.add];
  match goal with
  | |- context [exec ?t ?tgt ?s] =>
      let tgt' := norm tgt in
      let s' := norm s in
      change (exec t tgt s) with (exec t tgt' s')
  end.

(** [_resolveUrl] reads nothing of a context but its resolver. *)
Ltac resolve_rule Hv :=
  lazymatch type of Hv with
  | _resolveUrl ?C0 ?x = _ =>
      match goal with
      | |- context [_resolveUrl ?c x] =>
          change (_resolveUrl c x) with (_resolveUrl C0 x); rewrite Hv
      end
  end.

Ltac fork_rule :=
  match goal with
  | |- context [fileChanged ?this ?url ?H] =>
      erewrite (fileChanged_eq this url H) by reflexivity
  end.

(** The context of a new analyzer, with its settings named. *)
Ltac new_analyzer options :=
  cbv [Analyzer_new AnalyzerCacheContext_new new_AnalysisCache document_at] in *;
  cbn [_parsers _scanners _loader] in *;
  let L := fresh "L" in
  let R := fresh "R" in
  let lz := fresh "lz" in
  let P := fresh "P" in
  let SC := fresh "SC" in
  set (lz := lazyEdges options) in *;
  set (L := urlLoader options) in *;
  set (R := urlResolver options) in *;
  set (P := default default_parsers (parsers options)) in *;
  set (SC := default (_getDefaultScanners lz) (scanners options)) in *;
  clearbody L R P SC; clearbody lz.

(** The run of [n] turns, computed, is put in place of the run. *)
Ltac computed_run rw :=
  match goal with
  | |- context [run ?n ?s] =>
      let E := fresh "E" in
      eassert (E : run n s = _);
      [ start_call; run_with rw; rewrite run_idle by reflexivity; reflexivity
      | rewrite !E; clear E ]
  end.

Ltac at_least N n Hn :=
  let k := fresh "k" in
  destruct (Nat.le_exists_sub N n Hn) as (k & -> & _);
  rewrite (Nat.add_comm k N).

Ltac destruct_document Hd parser scs :=
  let Hcan := fresh "Hcan" in let Hload := fresh "Hload" in
  let Hparser := fresh "Hparser" in let Hparse := fresh "Hparse" in
  let Hurl := fresh "Hurl" in let Hinl := fresh "Hinl" in
  let Hscs := fresh "Hscs" in let Hscan := fresh "Hscan" in
  destruct Hd as (Hcan & Hload & parser & scs & Hparser & Hparse & Hurl & Hinl & Hscs & Hscan).

(** Rewrites with the facts of the collaborators that are among the
    hypotheses. *)
Ltac collaborators :=
  match goal with
  | H : ul_canLoad _ _ = _ |- _ => rewrite H
  | H : ul_load _ _ = _ |- _ => rewrite H
  | H : _ !! substring1 _ = _ |- _ => rewrite H
  | H : _ !! pd_type _ = _ |- _ => rewrite H
  | H : _ !! sid_type _ = _ |- _ => rewrite H
  | H : pd_url _ = _ |- _ => rewrite H
  | H : pd_isInline _ = _ |- _ => rewrite H
  | H : _ _ _ _ _ = inl _ |- _ => rewrite H
  | H : _ _ _ _ _ = inr _ |- _ => rewrite H
  | H : _ _ _ = inl _ |- _ => rewrite H
  | H : _ _ _ = inr _ |- _ => rewrite H
  end.

(** A document none of whose features is a dependency has nothing to follow. *)
Ltac leaf_rule feats Hleaf :=
  match goal with
  | |- context [filter (λ f, is_dependency ?H f = true) ?l] =>
      rewrite (filter_no_dependency H l)
        by (apply (leaf_is_dependency _ feats Hleaf); reflexivity)
  | |- context [nested_imports ?H ?sd] =>
      rewrite (nested_imports_leaf H sd)
        by (apply (leaf_is_dependency _ feats Hleaf); reflexivity)
  end.

(** The first conjuncts of a statement about a computed state. *)
Ltac read_off :=
  split; [reflexivity|]; split; [by repeat split|]; repeat (split; [reflexivity|]).

Lemma not_in_1 (v a : string) : v ≠ a → v ∉ ({[a]} ∪ ∅ : gset string).
Proof. rewrite elem_of_union, elem_of_singleton, elem_of_empty. by intros ? [?|[]]. Qed.

Lemma in_1 (a : string) : a ∈ ({[a]} ∪ ∅ : gset string).
Proof. rewrite elem_of_union, elem_of_singleton. by left. Qed.

Lemma onPathChanged_new x D :
  onPathChanged {| parsedDocumentPromises := ∅; scannedDocumentPromises := ∅;
                  dependenciesScanned := ∅; analyzedDocumentPromises := ∅;
                  scannedDocuments := ∅; analyzedDocuments := ∅ |} x D
  = {| parsedDocumentPromises := ∅; scannedDocumentPromises := ∅;
       dependenciesScanned := ∅; analyzedDocumentPromises := ∅;
       scannedDocuments := ∅; analyzedDocuments := ∅ |}.
Proof. unfold onPathChanged. cbn. by rewrite !map_filter_empty. Qed.

Section LeafRuns.

Variable parse : Parser → string → string → option InlineDocInfo → ParsedDocument + exn.
Variable scan : ParsedDocument → list Scanner → list ScannedFeature + exn.
Variable extname : string → string.

(** X17: the analysis of a document without dependencies, from the call to
    the end.  On a new analyzer, when the loader serves the file at the
    resolved URL, a parser is registered for its extension and the scanners
    find only features that are neither imports nor inline documents,
    [analyze] is fulfilled with a Document within 26 turns of the event
    loop and nothing is left to run.  The loader was asked once, for the
    resolved URL; there is one ScannedDocument, holding the parsed document
    and all the features, with an empty warnings array; one Document was
    made from it; and [scannedDocuments] and [analyzedDocuments] hold them
    under the resolved URL. *)
Theorem analyze_leaf_document (options : Options) (url text : string)
    (doc : ParsedDocument) (feats : list ScannedFeature) (fuel : nat) :
  let c := AnalyzerCacheContext_new options in
  let u := _resolveUrl c url in
  document_at parse scan extname c u text doc feats →
  Forall leaf_feature feats →
  let r := call TDocument (Analyzer_analyze parse scan extname (S (S fuel)) url None)
             (initial_sched (Analyzer_new options)) in
  ∀ n, 26 ≤ n →
    let s := run n r.2 in
    state_of (s_heap s) r.1 = Some (Fulfilled (VDocument 0)) ∧
    at_rest s ∧
    loaderCalls (s_heap s) = [u] ∧
    features (s_heap s) = alter (applyHtmlComment None) 0 feats ∧
    scannedDocs (s_heap s)
    = [ {| sd_document := doc; sd_features := seq 0 (length feats); sd_warnings := 0;
           sd_isInline := false |} ] ∧
    warningArrays (s_heap s) = [[]] ∧
    doc_base <$> documents (s_heap s) = [0] ∧
    ∃ c', contexts (s_heap s) = [c'] ∧
          analyzedDocuments (_cache c') !! u = Some 0 ∧
          scannedDocuments (_cache c') !! u = Some 0.
Proof.
  intros c u Hd Hleaf r n Hn s.
  assert (Hu : _resolveUrl c url = u) by reflexivity. clearbody u.
  subst s r c. new_analyzer options.
  destruct_document Hd parser scs.
  at_least 26 n Hn.
  computed_run ltac:(first [ resolve_rule Hu | collaborators | leaf_rule feats Hleaf ]).
  read_off. eexists. split; [reflexivity|]. cbn [_cache analyzedDocuments scannedDocuments].
  by rewrite !lookup_insert_eq.
Qed.

End LeafRuns.

Ltac failed_analysis :=
  read_off; do 2 eexists; split; [reflexivity|];
  cbn [_cache analyzedDocumentPromises]; rewrite lookup_insert_eq;
  split; reflexivity.

Section FailedRuns.

Variable parse : Parser → string → string → option InlineDocInfo → ParsedDocument + exn.
Variable scan : ParsedDocument → list Scanner → list ScannedFeature + exn.
Variable extname : string → string.

(** X18: [analyze] of a URL that the loader cannot load, with or without
    contents, is rejected with the error ["Can't load URL: "] followed by
    the resolved URL, within 13 turns of the event loop.  The loader is
    never asked to load, nothing is scanned, no Document is made, and the
    rejected promise stays in [analyzedDocumentPromises] of the context of
    the analyzer. *)
Theorem analyze_url_that_cannot_be_loaded (options : Options) (url : string)
    (contents : option string) (fuel : nat) :
  let c := AnalyzerCacheContext_new options in
  let u := _resolveUrl c url in
  ul_canLoad (_loader c) u = false →
  let r := call TDocument (Analyzer_analyze parse scan extname (S (S fuel)) url contents)
             (initial_sched (Analyzer_new options)) in
  ∀ n, 13 ≤ n →
    let s := run n r.2 in
    let e := Error ("Can't load URL: " +:+ u) in
    state_of (s_heap s) r.1 = Some (Rejected e) ∧
    at_rest s ∧
    loaderCalls (s_heap s) = [] ∧
    analysis_failed s u e.
Proof.
  intros c u Hcan r n Hn s e.
  assert (Hu : _resolveUrl c url = u) by reflexivity. clearbody u.
  subst e s r c. new_analyzer options.
  at_least 13 n Hn.
  destruct contents as [contents|].
  all: computed_run ltac:(first [ resolve_rule Hu | rewrite Hcan | fork_rule
                                | rewrite onPathChanged_new ]).
  all: failed_analysis.
Qed.

(** X19: when the loader fails on a URL it says it can load, [analyze] is
    rejected with the error of the loader itself, not wrapped, within 15
    turns; the loader was asked once, nothing was scanned, and the rejected
    promise stays cached. *)
Theorem analyze_load_failure (options : Options) (url : string) (e : exn) (fuel : nat) :
  let c := AnalyzerCacheContext_new options in
  let u := _resolveUrl c url in
  ul_canLoad (_loader c) u = true →
  ul_load (_loader c) u = inr e →
  let r := call TDocument (Analyzer_analyze parse scan extname (S (S fuel)) url None)
             (initial_sched (Analyzer_new options)) in
  ∀ n, 15 ≤ n →
    let s := run n r.2 in
    state_of (s_heap s) r.1 = Some (Rejected e) ∧
    at_rest s ∧
    loaderCalls (s_heap s) = [u] ∧
    analysis_failed s u e.
Proof.
  intros c u Hcan Hload r n Hn s.
  assert (Hu : _resolveUrl c url = u) by reflexivity. clearbody u.
  subst s r c. new_analyzer options.
  at_least 15 n Hn.
  computed_run ltac:(first [ resolve_rule Hu | rewrite Hcan | rewrite Hload ]).
  failed_analysis.
Qed.

(** X20: [analyze] of a file for whose extension no parser is registered
    is rejected with the NoKnownParserError
    ["No parser for for file type "] followed by the extension without its
    dot, after the file has been loaded; nothing is scanned and the
    rejected promise stays cached. *)
Theorem analyze_file_without_parser (options : Options) (url text : string) (fuel : nat) :
  let c := AnalyzerCacheContext_new options in
  let u := _resolveUrl c url in
  ul_canLoad (_loader c) u = true →
  ul_load (_loader c) u = inl text →
  _parsers c !! substring1 (extname u) = None →
  let r := call TDocument (Analyzer_analyze parse scan extname (S (S fuel)) url None)
             (initial_sched (Analyzer_new options)) in
  ∀ n, 15 ≤ n →
    let s := run n r.2 in
    let e := NoKnownParserError ("No parser for for file type " +:+ substring1 (extname u)) in
    state_of (s_heap s) r.1 = Some (Rejected e) ∧
    at_rest s ∧
    loaderCalls (s_heap s) = [u] ∧
    analysis_failed s u e.
Proof.
  intros c u Hcan Hload Hparser r n Hn s e.
  assert (Hu : _resolveUrl c url = u) by reflexivity. clearbody u.
  subst e s r c. new_analyzer options.
  at_least 15 n Hn.
  computed_run ltac:(first [ resolve_rule Hu | rewrite Hcan | rewrite Hload | rewrite Hparser ]).
  failed_analysis.
Qed.


(** X22: when the scanners fail on the parsed document, [analyze] is
    rejected with their error as it is, within 20 turns; no ScannedDocument
    and no Document exist afterwards and the rejected promise stays
    cached. *)
Theorem analyze_scan_failure (options : Options) (url text : string) (parser : Parser)
    (doc : ParsedDocument) (scanners : list Scanner) (e : exn) (fuel : nat) :
  let c := AnalyzerCacheContext_new options in
  let u := _resolveUrl c url in
  ul_canLoad (_loader c) u = true →
  ul_load (_loader c) u = inl text →
  _parsers c !! substring1 (extname u) = Some parser →
  parse parser text u None = inl doc →
  pd_url doc = u → pd_isInline doc = false →
  _scanners c !! pd_type doc = Some scanners →
  scan doc scanners = inr e →
  let r := call TDocument (Analyzer_analyze parse scan extname (S (S fuel)) url None)
             (initial_sched (Analyzer_new options)) in
  ∀ n, 20 ≤ n →
    let s := run n r.2 in
    state_of (s_heap s) r.1 = Some (Rejected e) ∧
    at_rest s ∧
    loaderCalls (s_heap s) = [u] ∧
    analysis_failed s u e.
Proof.
  intros c u Hcan Hload Hparser Hparse Hurl Hinl Hscs Hscan r n Hn s.
  assert (Hu : _resolveUrl c url = u) by reflexivity. clearbody u.
  subst s r c. new_analyzer options.
  at_least 20 n Hn.
  computed_run ltac:(first [ resolve_rule Hu | rewrite Hcan | rewrite Hload
                           | rewrite Hparser | rewrite Hparse | rewrite Hurl | rewrite Hinl
                           | rewrite Hscs | rewrite Hscan ]).
  failed_analysis.
Qed.

End FailedRuns.

Section RunsWithImports.

Variable parse : Parser → string → string → option InlineDocInfo → ParsedDocument + exn.
Variable scan : ParsedDocument → list Scanner → list ScannedFeature + exn.
Variable extname : string → string.

(** X23: an import that the loader cannot load does not fail the analysis
    of the importing document.  [analyze] is fulfilled with the Document
    within 37 turns; the warnings of the importing ScannedDocument hold
    exactly one warning, ["could-not-load"] with the message
    ["Unable to load import: Can't load URL: "] and the resolved URL of the
    import; the loader was asked for the importing document only, and the
    import feature is as the scanner made it. *)
Theorem analyze_import_that_cannot_be_loaded (options : Options) (url text : string)
    (doc : ParsedDocument) (i : ScannedImport) (fuel : nat) :
  let c := AnalyzerCacheContext_new options in
  let u := _resolveUrl c url in
  let v := _resolveUrl c (si_url i) in
  document_at parse scan extname c u text doc [FImport i] →
  si_type i ≠ "lazy-html-import" →
  v ≠ u →
  ul_canLoad (_loader c) v = false →
  let r := call TDocument (Analyzer_analyze parse scan extname (S (S (S fuel))) url None)
             (initial_sched (Analyzer_new options)) in
  ∀ n, 37 ≤ n →
    let s := run n r.2 in
    state_of (s_heap s) r.1 = Some (Fulfilled (VDocument 0)) ∧
    at_rest s ∧
    loaderCalls (s_heap s) = [u] ∧
    features (s_heap s) = [FImport i] ∧
    scannedDocs (s_heap s)
    = [ {| sd_document := doc; sd_features := [0]; sd_warnings := 0;
           sd_isInline := false |} ] ∧
    warningArrays (s_heap s)
    = [[could_not_load (Error ("Can't load URL: " +:+ v)) i]] ∧
    doc_base <$> documents (s_heap s) = [0].
Proof.
  intros c u v Hd Hlazy Hne Hcanv r n Hn s.
  assert (Hu : _resolveUrl c url = u) by reflexivity.
  assert (Hv : _resolveUrl c (si_url i) = v) by reflexivity. clearbody u v.
  subst s r c. new_analyzer options.
  destruct_document Hd parser scs.
  at_least 37 n Hn.
  computed_run
    ltac:(first [ resolve_rule Hu | resolve_rule Hv | collaborators
                | rewrite decide_True by done
                | rewrite bool_decide_eq_false_2 by (by apply not_in_1) ]).
  read_off. reflexivity.
Qed.

(** X24: a lazy import is not followed.  The analysis of a document whose
    only feature is an import of type ["lazy-html-import"] is fulfilled
    within 27 turns; the loader was asked for the document only, no
    warning was recorded, the import feature is as the scanner made it, and
    [scannedDocumentPromises] knows no URL but that of the document. *)
Theorem analyze_lazy_import (options : Options) (url text : string)
    (doc : ParsedDocument) (i : ScannedImport) (fuel : nat) :
  let c := AnalyzerCacheContext_new options in
  let u := _resolveUrl c url in
  document_at parse scan extname c u text doc [FImport i] →
  si_type i = "lazy-html-import" →
  let r := call TDocument (Analyzer_analyze parse scan extname (S (S (S fuel))) url None)
             (initial_sched (Analyzer_new options)) in
  ∀ n, 27 ≤ n →
    let s := run n r.2 in
    state_of (s_heap s) r.1 = Some (Fulfilled (VDocument 0)) ∧
    at_rest s ∧
    loaderCalls (s_heap s) = [u] ∧
    features (s_heap s) = [FImport i] ∧
    scannedDocs (s_heap s)
    = [ {| sd_document := doc; sd_features := [0]; sd_warnings := 0;
           sd_isInline := false |} ] ∧
    warningArrays (s_heap s) = [[]] ∧
    doc_base <$> documents (s_heap s) = [0] ∧
    ∃ c', contexts (s_heap s) = [c'] ∧
          dom (scannedDocumentPromises (_cache c')) = {[u]}.
Proof.
  intros c u Hd Hlazy r n Hn s.
  assert (Hu : _resolveUrl c url = u) by reflexivity.
  assert (Hv : _resolveUrl c (si_url i) = _resolveUrl c (si_url i)) by reflexivity.
  revert Hv. generalize (_resolveUrl c (si_url i)) at 2. intros v Hv. clearbody u.
  subst s r c. new_analyzer options.
  destruct_document Hd parser scs.
  at_least 27 n Hn.
  destruct (decide (v = u)) as [Heq|Hne]; [rewrite Heq in Hv|].
  all: computed_run
    ltac:(first [ resolve_rule Hu | resolve_rule Hv | collaborators
                | rewrite decide_False by (intros H; by apply H) ]).
  all: read_off.
  all: eexists.
  all: split; [reflexivity|].
  all: cbn [_cache scannedDocumentPromises].
  all: by rewrite dom_insert_L, dom_empty_L, (right_id_L ∅ (∪)).
Qed.

(** X25: a document with one import of another document.  [analyze] is
    fulfilled within 50 turns; the loader was asked for the document and
    then for the import; there are two ScannedDocuments, one for each, both
    without warnings and both in [scannedDocuments] under their resolved
    URLs; and the [scannedDocument] slot of the import feature holds the
    ScannedDocument of the imported file. *)
Theorem analyze_document_with_import (options : Options) (url text text' : string)
    (doc doc' : ParsedDocument) (i : ScannedImport) (fuel : nat) :
  let c := AnalyzerCacheContext_new options in
  let u := _resolveUrl c url in
  let v := _resolveUrl c (si_url i) in
  document_at parse scan extname c u text doc [FImport i] →
  si_type i ≠ "lazy-html-import" →
  v ≠ u →
  document_at parse scan extname c v text' doc' [] →
  let r := call TDocument (Analyzer_analyze parse scan extname (S (S (S (S fuel)))) url None)
             (initial_sched (Analyzer_new options)) in
  ∀ n, 50 ≤ n →
    let s := run n r.2 in
    state_of (s_heap s) r.1 = Some (Fulfilled (VDocument 0)) ∧
    at_rest s ∧
    loaderCalls (s_heap s) = [u; v] ∧
    features (s_heap s) = [set_scannedDocument_slot 1 (FImport i)] ∧
    scannedDocs (s_heap s)
    = [ {| sd_document := doc; sd_features := [0]; sd_warnings := 0;
           sd_isInline := false |};
        {| sd_document := doc'; sd_features := []; sd_warnings := 1;
           sd_isInline := false |} ] ∧
    warningArrays (s_heap s) = [[]; []] ∧
    doc_base <$> documents (s_heap s) !! 0 = Some 0 ∧
    ∃ c', contexts (s_heap s) = [c'] ∧
          scannedDocuments (_cache c') !! u = Some 0 ∧
          scannedDocuments (_cache c') !! v = Some 1 ∧
          analyzedDocuments (_cache c') !! u = Some 0.
Proof.
  intros c u v Hd Hlazy Hne Hd' r n Hn s.
  assert (Hu : _resolveUrl c url = u) by reflexivity.
  assert (Hv : _resolveUrl c (si_url i) = v) by reflexivity. clearbody u v.
  subst s r c. new_analyzer options.
  destruct_document Hd parser scs. destruct_document Hd' parser' scs'.
  at_least 50 n Hn.
  computed_run
    ltac:(first [ resolve_rule Hu | resolve_rule Hv | collaborators
                | rewrite decide_True by done
                | rewrite bool_decide_eq_false_2 by (by apply not_in_1) ]).
  read_off.
  eexists. split; [reflexivity|]. cbn [_cache scannedDocuments analyzedDocuments].
  repeat split; by simplify_map_eq.
Qed.

(** X26: a document that imports itself is analyzed all the same.  The
    analysis is fulfilled within 31 turns, the loader was asked once, there
    is one ScannedDocument without warnings, and the [scannedDocument] slot
    of the import holds the ScannedDocument of the document itself. *)
Theorem analyze_document_importing_itself (options : Options) (url text : string)
    (doc : ParsedDocument) (i : ScannedImport) (fuel : nat) :
  let c := AnalyzerCacheContext_new options in
  let u := _resolveUrl c url in
  document_at parse scan extname c u text doc [FImport i] →
  si_type i ≠ "lazy-html-import" →
  _resolveUrl c (si_url i) = u →
  let r := call TDocument (Analyzer_analyze parse scan extname (S (S (S fuel))) url None)
             (initial_sched (Analyzer_new options)) in
  ∀ n, 31 ≤ n →
    let s := run n r.2 in
    state_of (s_heap s) r.1 = Some (Fulfilled (VDocument 0)) ∧
    at_rest s ∧
    loaderCalls (s_heap s) = [u] ∧
    features (s_heap s) = [set_scannedDocument_slot 0 (FImport i)] ∧
    scannedDocs (s_heap s)
    = [ {| sd_document := doc; sd_features := [0]; sd_warnings := 0;
           sd_isInline := false |} ] ∧
    warningArrays (s_heap s) = [[]].
Proof.
  intros c u Hd Hlazy Hv r n Hn s.
  assert (Hu : _resolveUrl c url = u) by reflexivity. clearbody u.
  subst s r c. new_analyzer options.
  destruct_document Hd parser scs.
  at_least 31 n Hn.
  computed_run
    ltac:(first [ resolve_rule Hu | resolve_rule Hv | collaborators
                | rewrite decide_True by done
                | rewrite bool_decide_eq_true_2 by apply in_1 ]).
  read_off. reflexivity.
Qed.

(** X27: an import of a file for which no parser is registered is passed
    over in silence.  The file is loaded, its scan is rejected with the
    NoKnownParserError and that promise stays in
    [scannedDocumentPromises]; but the analysis of the importing document
    is fulfilled within 39 turns, with no warning recorded and the import
    feature as the scanner made it. *)
Theorem analyze_import_without_parser (options : Options) (url text text' : string)
    (doc : ParsedDocument) (i : ScannedImport) (fuel : nat) :
  let c := AnalyzerCacheContext_new options in
  let u := _resolveUrl c url in
  let v := _resolveUrl c (si_url i) in
  document_at parse scan extname c u text doc [FImport i] →
  si_type i ≠ "lazy-html-import" →
  v ≠ u →
  ul_canLoad (_loader c) v = true →
  ul_load (_loader c) v = inl text' →
  _parsers c !! substring1 (extname v) = None →
  let r := call TDocument (Analyzer_analyze parse scan extname (S (S (S fuel))) url None)
             (initial_sched (Analyzer_new options)) in
  ∀ n, 39 ≤ n →
    let s := run n r.2 in
    state_of (s_heap s) r.1 = Some (Fulfilled (VDocument 0)) ∧
    at_rest s ∧
    loaderCalls (s_heap s) = [u; v] ∧
    features (s_heap s) = [FImport i] ∧
    scannedDocs (s_heap s)
    = [ {| sd_document := doc; sd_features := [0]; sd_warnings := 0;
           sd_isInline := false |} ] ∧
    warningArrays (s_heap s) = [[]] ∧
    ∃ c' p, contexts (s_heap s) = [c'] ∧
            scannedDocumentPromises (_cache c') !! v = Some p ∧
            state_of (s_heap s) p
            = Some (Rejected (NoKnownParserError
                                ("No parser for for file type "
                                 +:+ substring1 (extname v)))).
Proof.
  intros c u v Hd Hlazy Hne Hcanv Hloadv Hparserv r n Hn s.
  assert (Hu : _resolveUrl c url = u) by reflexivity.
  assert (Hv : _resolveUrl c (si_url i) = v) by reflexivity. clearbody u v.
  subst s r c. new_analyzer options.
  destruct_document Hd parser scs.
  at_least 39 n Hn.
  computed_run
    ltac:(first [ resolve_rule Hu | resolve_rule Hv | collaborators
                | rewrite decide_True by done
                | rewrite bool_decide_eq_false_2 by (by apply not_in_1) ]).
  read_off. do 2 eexists. split; [reflexivity|].
  cbn [_cache scannedDocumentPromises]. rewrite lookup_insert_eq. split; reflexivity.
Qed.

End RunsWithImports.

Section RunsWithContents.

Variable parse : Parser → string → string → option InlineDocInfo → ParsedDocument + exn.
Variable scan : ParsedDocument → list Scanner → list ScannedFeature + exn.
Variable extname : string → string.

(** X28: [analyze] with contents, on a new analyzer.  The loader is asked
    whether it can load the URL but never to load it, and no time passes;
    the contents given are what is parsed.  The analysis is fulfilled
    within 24 turns with a Document that belongs to a second context, of
    generation 1, which the analyzer now uses; the first context is still
    as it was made. *)
Theorem analyze_given_contents (options : Options) (url contents : string)
    (parser : Parser) (doc : ParsedDocument) (scanners : list Scanner)
    (feats : list ScannedFeature) (fuel : nat) :
  let c := AnalyzerCacheContext_new options in
  let u := _resolveUrl c url in
  ul_canLoad (_loader c) u = true →
  _parsers c !! substring1 (extname u) = Some parser →
  parse parser contents u None = inl doc →
  pd_url doc = u → pd_isInline doc = false →
  _scanners c !! pd_type doc = Some scanners →
  scan doc scanners = inl feats →
  Forall leaf_feature feats →
  let r := call TDocument
             (Analyzer_analyze parse scan extname (S (S fuel)) url (Some contents))
             (initial_sched (Analyzer_new options)) in
  ∀ n, 24 ≤ n →
    let s := run n r.2 in
    state_of (s_heap s) r.1 = Some (Fulfilled (VDocument 0)) ∧
    at_rest s ∧
    loaderCalls (s_heap s) = [] ∧
    s_clock s = 0 ∧
    scannedDocs (s_heap s)
    = [ {| sd_document := doc; sd_features := seq 0 (length feats); sd_warnings := 0;
           sd_isInline := false |} ] ∧
    (λ d, (doc_base d, doc_analyzer d)) <$> documents (s_heap s) = [(0, 1)] ∧
    analyzer_cacheContext (s_heap s) = 1 ∧
    ∃ c', contexts (s_heap s) = [c; c'] ∧
          _generation c' = 1 ∧
          analyzedDocuments (_cache c') !! u = Some 0.
Proof.
  intros c u Hcan Hparser Hparse Hurl Hinl Hscs Hscan Hleaf r n Hn s.
  assert (Hu : _resolveUrl c url = u) by reflexivity. clearbody u.
  subst s r c. new_analyzer options.
  at_least 24 n Hn.
  computed_run
    ltac:(first [ resolve_rule Hu | collaborators | fork_rule | rewrite onPathChanged_new
                | leaf_rule feats Hleaf ]).
  read_off. eexists. split; [reflexivity|]. split; [reflexivity|].
  cbn [_cache analyzedDocuments]. by rewrite lookup_insert_eq.
Qed.

(** X29: an inline document of a type without parser fails the analysis
    of the document that contains it.  [analyze] is rejected with the
    NoKnownParserError ["No parser for for file type "] followed by the
    type, within 27 turns; no warning is recorded and no Document is made,
    although the ScannedDocument of the containing document exists and is
    in [scannedDocuments]. *)
Theorem analyze_inline_document_without_parser (options : Options) (url text : string)
    (doc : ParsedDocument) (d : ScannedInlineDocument) (fuel : nat) :
  let c := AnalyzerCacheContext_new options in
  let u := _resolveUrl c url in
  document_at parse scan extname c u text doc [FInlineDocument d] →
  _parsers c !! sid_type d = None →
  let r := call TDocument (Analyzer_analyze parse scan extname (S (S (S fuel))) url None)
             (initial_sched (Analyzer_new options)) in
  ∀ n, 27 ≤ n →
    let s := run n r.2 in
    let e := NoKnownParserError ("No parser for for file type " +:+ sid_type d) in
    state_of (s_heap s) r.1 = Some (Rejected e) ∧
    at_rest s ∧
    loaderCalls (s_heap s) = [u] ∧
    features (s_heap s) = [FInlineDocument d] ∧
    warningArrays (s_heap s) = [[]] ∧
    documents (s_heap s) = [] ∧
    ∃ c' p, contexts (s_heap s) = [c'] ∧
            analyzedDocumentPromises (_cache c') !! u = Some p ∧
            state_of (s_heap s) p = Some (Rejected e) ∧
            scannedDocuments (_cache c') !! u = Some 0.
Proof.
  intros c u Hd Hpi r n Hn s e.
  assert (Hu : _resolveUrl c url = u) by reflexivity.
  assert (Hw : _resolveUrl c u = _resolveUrl c u) by reflexivity.
  revert Hw. generalize (_resolveUrl c u) at 2. intros w Hw. clearbody u.
  subst e s r c. new_analyzer options.
  destruct_document Hd parser scs.
  at_least 27 n Hn.
  computed_run
    ltac:(first [ resolve_rule Hu | resolve_rule Hw | collaborators ]).
  read_off. do 2 eexists. split; [reflexivity|].
  cbn [_cache analyzedDocumentPromises scannedDocuments]. rewrite !lookup_insert_eq.
  repeat split; reflexivity.
Qed.

(** X30: a document with one inline document.  The contents of the
    inline document are parsed under the URL of the containing document,
    resolved once more, with the location offset of the inline document
    and the URL of the containing document as its file name.  [analyze] is
    fulfilled within 36 turns; the loader was asked once; the inline
    document has a ScannedDocument of its own, marked inline, which is put
    in its [scannedDocument] slot but in no cache. *)
Theorem analyze_document_with_inline_document (options : Options) (url text : string)
    (doc doc' : ParsedDocument) (d : ScannedInlineDocument) (parser' : Parser)
    (scanners' : list Scanner) (fuel : nat) :
  let c := AnalyzerCacheContext_new options in
  let u := _resolveUrl c url in
  let inlineInfo :=
    {| idi_locationOffset :=
         Some {| lo_line := lo_line (sid_locationOffset d);
                 lo_col := lo_col (sid_locationOffset d);
                 lo_filename := Some u |};
       idi_astNode := sid_astNode d |} in
  document_at parse scan extname c u text doc [FInlineDocument d] →
  _parsers c !! sid_type d = Some parser' →
  parse parser' (sid_contents d) (_resolveUrl c u) (Some inlineInfo) = inl doc' →
  pd_isInline doc' = true →
  _scanners c !! pd_type doc' = Some scanners' →
  scan doc' scanners' = inl [] →
  let r := call TDocument (Analyzer_analyze parse scan extname (S (S (S fuel))) url None)
             (initial_sched (Analyzer_new options)) in
  ∀ n, 36 ≤ n →
    let s := run n r.2 in
    state_of (s_heap s) r.1 = Some (Fulfilled (VDocument 0)) ∧
    at_rest s ∧
    loaderCalls (s_heap s) = [u] ∧
    features (s_heap s) = [set_scannedDocument_slot 1 (FInlineDocument d)] ∧
    scannedDocs (s_heap s)
    = [ {| sd_document := doc; sd_features := [0]; sd_warnings := 0;
           sd_isInline := false |};
        {| sd_document := doc'; sd_features := []; sd_warnings := 1;
           sd_isInline := true |} ] ∧
    warningArrays (s_heap s) = [[]; []] ∧
    doc_base <$> documents (s_heap s) = [0] ∧
    ∃ c', contexts (s_heap s) = [c'] ∧
          dom (scannedDocuments (_cache c')) = {[u]} ∧
          dom (scannedDocumentPromises (_cache c')) = {[u]}.
Proof.
  intros c u inlineInfo Hd Hpi Hparse' Hinl' Hscs' Hscan' r n Hn s.
  assert (Hu : _resolveUrl c url = u) by reflexivity.
  assert (Hw : _resolveUrl c u = _resolveUrl c u) by reflexivity.
  revert Hw Hparse'. generalize (_resolveUrl c u) at 2 3. intros w Hw Hparse'. clearbody u.
  subst inlineInfo s r c. new_analyzer options.
  destruct_document Hd parser scs.
  at_least 36 n Hn.
  computed_run
    ltac:(first [ resolve_rule Hu | resolve_rule Hw | collaborators ]).
  read_off. eexists. split; [reflexivity|].
  cbn [_cache scannedDocuments scannedDocumentPromises].
  by rewrite !dom_insert_L, !dom_empty_L, !(right_id_L ∅ (∪)).
Qed.

End RunsWithContents.

Ltac fixture_document :=
  split; [reflexivity|]; split; [reflexivity|];
  eexists _, _; repeat split; reflexivity.

Lemma analyze_leaf_document_witness :
  document_at Fixture.parse Fixture.leaf_scan Fixture.extname
    (AnalyzerCacheContext_new Fixture.options) "d.html" "D" (Fixture.page "d.html" "D")
    Fixture.leaf_features ∧
  Forall leaf_feature Fixture.leaf_features ∧
  let r := call TDocument
             (Analyzer_analyze Fixture.parse Fixture.leaf_scan Fixture.extname 2 "d.html" None)
             Fixture.start in
  state_of (s_heap (run 26 r.2)) r.1 = Some (Fulfilled (VDocument 0)).
Proof.
  assert (Hd : document_at Fixture.parse Fixture.leaf_scan Fixture.extname
                 (AnalyzerCacheContext_new Fixture.options) "d.html" "D" (Fixture.page "d.html" "D")
                 Fixture.leaf_features) by fixture_document.
  assert (Hleaf : Forall leaf_feature Fixture.leaf_features) by (repeat constructor).
  split; [exact Hd|]. split; [exact Hleaf|].
  exact (proj1 (analyze_leaf_document Fixture.parse Fixture.leaf_scan Fixture.extname
                  Fixture.options "d.html" "D" (Fixture.page "d.html" "D") Fixture.leaf_features 0
                  Hd Hleaf 26 (le_n 26))).
Defined.

Lemma analyze_url_that_cannot_be_loaded_witness :
  ul_canLoad Fixture.loader "nowhere.html" = false ∧
  let r := call TDocument
             (Analyzer_analyze Fixture.parse Fixture.scan Fixture.extname 2 "nowhere.html"
                (Some "<p>text</p>"))
             Fixture.start in
  state_of (s_heap (run 13 r.2)) r.1
  = Some (Rejected (Error "Can't load URL: nowhere.html")).
Proof.
  split; [reflexivity|].
  exact (proj1 (analyze_url_that_cannot_be_loaded Fixture.parse Fixture.scan
                  Fixture.extname Fixture.options "nowhere.html" (Some "<p>text</p>") 0
                  eq_refl 13 (le_n 13))).
Defined.

Lemma analyze_load_failure_witness :
  ul_canLoad Fixture.eager_loader "nowhere.html" = true ∧
  ul_load Fixture.eager_loader "nowhere.html" = inr (Error "not found") ∧
  let r := call TDocument
             (Analyzer_analyze Fixture.parse Fixture.scan Fixture.extname 2 "nowhere.html"
                None)
             (initial_sched (Analyzer_new Fixture.eager_options)) in
  state_of (s_heap (run 15 r.2)) r.1 = Some (Rejected (Error "not found")).
Proof.
  split; [reflexivity|]. split; [reflexivity|].
  exact (proj1 (analyze_load_failure Fixture.parse Fixture.scan Fixture.extname
                  Fixture.eager_options "nowhere.html" (Error "not found") 0 eq_refl eq_refl
                  15 (le_n 15))).
Defined.

Lemma analyze_file_without_parser_witness :
  ul_canLoad Fixture.loader "d.html" = true ∧
  ul_load Fixture.loader "d.html" = inl "D" ∧
  default_parsers !! substring1 (Fixture.text_extname "d.html") = None ∧
  let r := call TDocument
             (Analyzer_analyze Fixture.parse Fixture.scan Fixture.text_extname 2 "d.html" None)
             Fixture.start in
  state_of (s_heap (run 15 r.2)) r.1
  = Some (Rejected (NoKnownParserError "No parser for for file type txt")).
Proof.
  split; [reflexivity|]. split; [reflexivity|]. split; [reflexivity|].
  exact (proj1 (analyze_file_without_parser Fixture.parse Fixture.scan Fixture.text_extname
                  Fixture.options "d.html" "D" 0 eq_refl eq_refl eq_refl 15 (le_n 15))).
Defined.


Lemma analyze_scan_failure_witness :
  ul_canLoad Fixture.loader "d.html" = true ∧
  ul_load Fixture.loader "d.html" = inl "D" ∧
  default_parsers !! substring1 (Fixture.extname "d.html") = Some HtmlParser ∧
  Fixture.parse HtmlParser "D" "d.html" None = inl (Fixture.page "d.html" "D") ∧
  pd_url (Fixture.page "d.html" "D") = "d.html" ∧
  pd_isInline (Fixture.page "d.html" "D") = false ∧
  _getDefaultScanners None !! pd_type (Fixture.page "d.html" "D") = Some Fixture.html_scanners ∧
  Fixture.broken_scan (Fixture.page "d.html" "D") Fixture.html_scanners = inr (Error "scanner crashed") ∧
  let r := call TDocument
             (Analyzer_analyze Fixture.parse Fixture.broken_scan Fixture.extname 2 "d.html" None)
             Fixture.start in
  state_of (s_heap (run 20 r.2)) r.1 = Some (Rejected (Error "scanner crashed")).
Proof.
  do 8 (split; [reflexivity|]).
  exact (proj1 (analyze_scan_failure Fixture.parse Fixture.broken_scan Fixture.extname
                  Fixture.options "d.html" "D" HtmlParser (Fixture.page "d.html" "D") Fixture.html_scanners
                  (Error "scanner crashed") 0
                  eq_refl eq_refl eq_refl eq_refl eq_refl eq_refl eq_refl eq_refl
                  20 (le_n 20))).
Defined.

Lemma analyze_import_that_cannot_be_loaded_witness :
  document_at Fixture.parse Fixture.scan Fixture.extname
    (AnalyzerCacheContext_new Fixture.options) "p.html" "P" (Fixture.page "p.html" "P")
    [FImport (Fixture.html_import "missing.html")] ∧
  si_type (Fixture.html_import "missing.html") ≠ "lazy-html-import" ∧
  "missing.html" ≠ "p.html" ∧
  ul_canLoad Fixture.loader "missing.html" = false ∧
  let r := call TDocument
             (Analyzer_analyze Fixture.parse Fixture.scan Fixture.extname 3 "p.html" None)
             Fixture.start in
  let s := run 37 r.2 in
  state_of (s_heap s) r.1 = Some (Fulfilled (VDocument 0)) ∧
  warningArrays (s_heap s)
  = [[could_not_load (Error "Can't load URL: missing.html")
        (Fixture.html_import "missing.html")]].
Proof.
  assert (Hd : document_at Fixture.parse Fixture.scan Fixture.extname
                 (AnalyzerCacheContext_new Fixture.options) "p.html" "P" (Fixture.page "p.html" "P")
                 [FImport (Fixture.html_import "missing.html")])
    by fixture_document.
  assert (Hlazy : si_type (Fixture.html_import "missing.html") ≠ "lazy-html-import") by discriminate.
  assert (Hne : "missing.html" ≠ "p.html") by discriminate.
  split; [exact Hd|]. split; [exact Hlazy|]. split; [exact Hne|]. split; [reflexivity|].
  pose proof (analyze_import_that_cannot_be_loaded Fixture.parse Fixture.scan
                Fixture.extname Fixture.options "p.html" "P" (Fixture.page "p.html" "P")
                (Fixture.html_import "missing.html") 0
                Hd Hlazy Hne eq_refl 37 (le_n 37)) as H.
  exact (conj (proj1 H) (proj1 (proj2 (proj2 (proj2 (proj2 (proj2 H))))))).
Defined.

Lemma analyze_lazy_import_witness :
  document_at Fixture.parse Fixture.scan Fixture.extname
    (AnalyzerCacheContext_new Fixture.options) "l.html" "L" (Fixture.page "l.html" "L")
    [FImport (Fixture.lazy_import "d.html")] ∧
  si_type (Fixture.lazy_import "d.html") = "lazy-html-import" ∧
  let r := call TDocument
             (Analyzer_analyze Fixture.parse Fixture.scan Fixture.extname 3 "l.html" None)
             Fixture.start in
  let s := run 27 r.2 in
  state_of (s_heap s) r.1 = Some (Fulfilled (VDocument 0)) ∧
  loaderCalls (s_heap s) = ["l.html"].
Proof.
  assert (Hd : document_at Fixture.parse Fixture.scan Fixture.extname
                 (AnalyzerCacheContext_new Fixture.options) "l.html" "L" (Fixture.page "l.html" "L")
                 [FImport (Fixture.lazy_import "d.html")]) by fixture_document.
  split; [exact Hd|]. split; [reflexivity|].
  pose proof (analyze_lazy_import Fixture.parse Fixture.scan Fixture.extname
                Fixture.options "l.html" "L" (Fixture.page "l.html" "L")
                (Fixture.lazy_import "d.html") 0
                Hd eq_refl 27 (le_n 27)) as H.
  exact (conj (proj1 H) (proj1 (proj2 (proj2 H)))).
Defined.

Lemma analyze_document_with_import_witness :
  document_at Fixture.parse Fixture.scan Fixture.extname
    (AnalyzerCacheContext_new Fixture.options) "b.html" "B" (Fixture.page "b.html" "B")
    [FImport (Fixture.html_import "c.html")] ∧
  si_type (Fixture.html_import "c.html") ≠ "lazy-html-import" ∧
  "c.html" ≠ "b.html" ∧
  document_at Fixture.parse Fixture.scan Fixture.extname
    (AnalyzerCacheContext_new Fixture.options) "c.html" "C" (Fixture.page "c.html" "C") [] ∧
  let r := call TDocument
             (Analyzer_analyze Fixture.parse Fixture.scan Fixture.extname 4 "b.html" None)
             Fixture.start in
  let s := run 50 r.2 in
  state_of (s_heap s) r.1 = Some (Fulfilled (VDocument 0)) ∧
  loaderCalls (s_heap s) = ["b.html"; "c.html"] ∧
  map scannedDocument_slot (features (s_heap s)) = [Some 1].
Proof.
  assert (Hd : document_at Fixture.parse Fixture.scan Fixture.extname
                 (AnalyzerCacheContext_new Fixture.options) "b.html" "B" (Fixture.page "b.html" "B")
                 [FImport (Fixture.html_import "c.html")]) by fixture_document.
  assert (Hd' : document_at Fixture.parse Fixture.scan Fixture.extname
                  (AnalyzerCacheContext_new Fixture.options) "c.html" "C"
                  (Fixture.page "c.html" "C") []) by fixture_document.
  assert (Hlazy : si_type (Fixture.html_import "c.html") ≠ "lazy-html-import") by discriminate.
  assert (Hne : "c.html" ≠ "b.html") by discriminate.
  split; [exact Hd|]. split; [exact Hlazy|]. split; [exact Hne|]. split; [exact Hd'|].
  pose proof (analyze_document_with_import Fixture.parse Fixture.scan Fixture.extname
                Fixture.options "b.html" "B" "C" (Fixture.page "b.html" "B") (Fixture.page "c.html" "C")
                (Fixture.html_import "c.html") 0
                Hd Hlazy Hne Hd' 50 (le_n 50)) as H.
  refine (conj (proj1 H) (conj (proj1 (proj2 (proj2 H))) _)).
  exact (f_equal (map scannedDocument_slot) (proj1 (proj2 (proj2 (proj2 H))))).
Defined.

Lemma analyze_document_importing_itself_witness :
  document_at Fixture.parse Fixture.self_scan Fixture.extname
    (AnalyzerCacheContext_new Fixture.options) "d.html" "D" (Fixture.page "d.html" "D")
    [FImport (Fixture.html_import "d.html")] ∧
  si_type (Fixture.html_import "d.html") ≠ "lazy-html-import" ∧
  _resolveUrl (AnalyzerCacheContext_new Fixture.options) (si_url (Fixture.html_import "d.html")) = "d.html" ∧
  let r := call TDocument
             (Analyzer_analyze Fixture.parse Fixture.self_scan Fixture.extname 3 "d.html" None)
             Fixture.start in
  let s := run 31 r.2 in
  state_of (s_heap s) r.1 = Some (Fulfilled (VDocument 0)) ∧
  loaderCalls (s_heap s) = ["d.html"].
Proof.
  assert (Hd : document_at Fixture.parse Fixture.self_scan Fixture.extname
                 (AnalyzerCacheContext_new Fixture.options) "d.html" "D" (Fixture.page "d.html" "D")
                 [FImport (Fixture.html_import "d.html")]) by fixture_document.
  assert (Hlazy : si_type (Fixture.html_import "d.html") ≠ "lazy-html-import") by discriminate.
  split; [exact Hd|]. split; [exact Hlazy|]. split; [reflexivity|].
  pose proof (analyze_document_importing_itself Fixture.parse Fixture.self_scan Fixture.extname
                Fixture.options "d.html" "D" (Fixture.page "d.html" "D")
                (Fixture.html_import "d.html") 0
                Hd Hlazy eq_refl 31 (le_n 31)) as H.
  exact (conj (proj1 H) (proj1 (proj2 (proj2 H)))).
Defined.

Lemma analyze_import_without_parser_witness :
  document_at Fixture.parse Fixture.scan Fixture.mixed_extname
    (AnalyzerCacheContext_new Fixture.options) "b.html" "B" (Fixture.page "b.html" "B")
    [FImport (Fixture.html_import "c.html")] ∧
  si_type (Fixture.html_import "c.html") ≠ "lazy-html-import" ∧
  "c.html" ≠ "b.html" ∧
  ul_canLoad Fixture.loader "c.html" = true ∧
  ul_load Fixture.loader "c.html" = inl "C" ∧
  default_parsers !! substring1 (Fixture.mixed_extname "c.html") = None ∧
  let r := call TDocument
             (Analyzer_analyze Fixture.parse Fixture.scan Fixture.mixed_extname 3 "b.html" None)
             Fixture.start in
  let s := run 39 r.2 in
  state_of (s_heap s) r.1 = Some (Fulfilled (VDocument 0)) ∧
  warningArrays (s_heap s) = [[]].
Proof.
  assert (Hd : document_at Fixture.parse Fixture.scan Fixture.mixed_extname
                 (AnalyzerCacheContext_new Fixture.options) "b.html" "B" (Fixture.page "b.html" "B")
                 [FImport (Fixture.html_import "c.html")]) by fixture_document.
  assert (Hlazy : si_type (Fixture.html_import "c.html") ≠ "lazy-html-import") by discriminate.
  assert (Hne : "c.html" ≠ "b.html") by discriminate.
  split; [exact Hd|]. split; [exact Hlazy|]. split; [exact Hne|].
  split; [reflexivity|]. split; [reflexivity|]. split; [reflexivity|].
  pose proof (analyze_import_without_parser Fixture.parse Fixture.scan Fixture.mixed_extname
                Fixture.options "b.html" "B" "C" (Fixture.page "b.html" "B")
                (Fixture.html_import "c.html") 0
                Hd Hlazy Hne eq_refl eq_refl eq_refl 39 (le_n 39)) as H.
  exact (conj (proj1 H) (proj1 (proj2 (proj2 (proj2 (proj2 (proj2 H))))))).
Defined.

Lemma analyze_given_contents_witness :
  ul_canLoad Fixture.loader "d.html" = true ∧
  default_parsers !! substring1 (Fixture.extname "d.html") = Some HtmlParser ∧
  Fixture.parse HtmlParser "<p>new</p>" "d.html" None = inl (Fixture.page "d.html" "<p>new</p>") ∧
  pd_url (Fixture.page "d.html" "<p>new</p>") = "d.html" ∧
  pd_isInline (Fixture.page "d.html" "<p>new</p>") = false ∧
  _getDefaultScanners None !! pd_type (Fixture.page "d.html" "<p>new</p>") = Some Fixture.html_scanners ∧
  Fixture.leaf_scan (Fixture.page "d.html" "<p>new</p>") Fixture.html_scanners = inl Fixture.leaf_features ∧
  Forall leaf_feature Fixture.leaf_features ∧
  let r := call TDocument
             (Analyzer_analyze Fixture.parse Fixture.leaf_scan Fixture.extname 2 "d.html"
                (Some "<p>new</p>"))
             Fixture.start in
  let s := run 24 r.2 in
  state_of (s_heap s) r.1 = Some (Fulfilled (VDocument 0)) ∧
  loaderCalls (s_heap s) = [].
Proof.
  assert (Hleaf : Forall leaf_feature Fixture.leaf_features) by (repeat constructor).
  do 7 (split; [reflexivity|]). split; [exact Hleaf|].
  pose proof (analyze_given_contents Fixture.parse Fixture.leaf_scan Fixture.extname
                Fixture.options "d.html" "<p>new</p>" HtmlParser
                (Fixture.page "d.html" "<p>new</p>") Fixture.html_scanners Fixture.leaf_features 0
                eq_refl eq_refl eq_refl eq_refl eq_refl eq_refl eq_refl Hleaf
                24 (le_n 24)) as H.
  exact (conj (proj1 H) (proj1 (proj2 (proj2 H)))).
Defined.

Lemma analyze_inline_document_without_parser_witness :
  document_at Fixture.parse Fixture.typescript_scan Fixture.extname
    (AnalyzerCacheContext_new Fixture.options) "d.html" "D" (Fixture.page "d.html" "D")
    [FInlineDocument Fixture.inline_script] ∧
  default_parsers !! sid_type Fixture.inline_script = None ∧
  let r := call TDocument
             (Analyzer_analyze Fixture.parse Fixture.typescript_scan Fixture.extname 3 "d.html" None)
             Fixture.start in
  state_of (s_heap (run 27 r.2)) r.1
  = Some (Rejected (NoKnownParserError "No parser for for file type typescript")).
Proof.
  assert (Hd : document_at Fixture.parse Fixture.typescript_scan Fixture.extname
                 (AnalyzerCacheContext_new Fixture.options) "d.html" "D" (Fixture.page "d.html" "D")
                 [FInlineDocument Fixture.inline_script]) by fixture_document.
  split; [exact Hd|]. split; [reflexivity|].
  exact (proj1 (analyze_inline_document_without_parser Fixture.parse Fixture.typescript_scan
                  Fixture.extname Fixture.options "d.html" "D" (Fixture.page "d.html" "D")
                  Fixture.inline_script 0 Hd eq_refl 27 (le_n 27))).
Defined.

Lemma analyze_document_with_inline_document_witness :
  document_at Fixture.parse Fixture.inline_scan Fixture.extname
    (AnalyzerCacheContext_new Fixture.options) "d.html" "D" (Fixture.page "d.html" "D")
    [FInlineDocument Fixture.inline_js] ∧
  default_parsers !! sid_type Fixture.inline_js = Some (JavaScriptParser "script") ∧
  Fixture.parse (JavaScriptParser "script") (sid_contents Fixture.inline_js) "d.html"
    (Some {| idi_locationOffset :=
               Some {| lo_line := 3; lo_col := 2; lo_filename := Some "d.html" |};
             idi_astNode := None |})
  = inl Fixture.inline_js_document ∧
  pd_isInline Fixture.inline_js_document = true ∧
  _getDefaultScanners None !! pd_type Fixture.inline_js_document = Some Fixture.js_scanners ∧
  Fixture.inline_scan Fixture.inline_js_document Fixture.js_scanners = inl [] ∧
  let r := call TDocument
             (Analyzer_analyze Fixture.parse Fixture.inline_scan Fixture.extname 3 "d.html" None)
             Fixture.start in
  let s := run 36 r.2 in
  state_of (s_heap s) r.1 = Some (Fulfilled (VDocument 0)) ∧
  map scannedDocument_slot (features (s_heap s)) = [Some 1].
Proof.
  assert (Hd : document_at Fixture.parse Fixture.inline_scan Fixture.extname
                 (AnalyzerCacheContext_new Fixture.options) "d.html" "D" (Fixture.page "d.html" "D")
                 [FInlineDocument Fixture.inline_js]) by fixture_document.
  split; [exact Hd|]. do 5 (split; [reflexivity|]).
  pose proof (analyze_document_with_inline_document Fixture.parse Fixture.inline_scan
                Fixture.extname Fixture.options "d.html" "D" (Fixture.page "d.html" "D")
                Fixture.inline_js_document Fixture.inline_js (JavaScriptParser "script") Fixture.js_scanners 0
                Hd eq_refl eq_refl eq_refl eq_refl eq_refl 36 (le_n 36)) as H.
  exact (conj (proj1 H)
           (f_equal (map scannedDocument_slot) (proj1 (proj2 (proj2 (proj2 H)))))).
Defined.
